(** * abaaso promise engine: a shallow embedding and its checked properties

    The model follows the promise source of the repository (the object
    [promise], its [methods], [promise.resolve], [promise.vouch] and the
    [Promise] constructor).  Promise objects live in a store addressed by
    references, because the source mutates them in place and shares them
    through closures; closures are kept as data (which variables they
    captured), deferred jobs sit in a FIFO queue.

    Modelling decisions, all visible below:
    - JavaScript numbers are represented by integers (no NaN, no fractions);
    - functions supplied by the caller are looked up in the host environment
      and are pure: called with a value they return a value or throw one;
    - every call of a caller-supplied function is recorded in [trace]
      (ghost state, used only to say who was invoked with what);
    - helpers of the library that the promise source calls but does not
      define are either fields of [Host] or modelled from their documented
      behaviour, and say so. *)

From Stdlib Require Import ZArith String List Bool Lia DecimalString.
From stdpp Require Import base option list gmap.
Import ListNotations.
Local Open Scope string_scope.
Local Open Scope list_scope.

(** ** Values *)

Definition ref := nat.

(** The closures [function ( arg ) { self.resolve( arg ); }] and
    [function ( arg ) { self.reject( arg ); }] built by the adoption branch
    of [then], and functions supplied by the caller. *)
Inductive handler_fn : Type :=
| HUser (id : nat)
| HResolve (self : ref)
| HReject (self : ref).

#[local] Set Warnings "-register-all".
Inductive value : Type :=
| VUndefined
| VNull
| VBool (b : bool)
| VNum (n : Z)
| VStr (s : string)
| VObj (fields : list (string * value))
| VError (message : string)
| VPromise (r : ref)
| VFun (h : handler_fn).

(** How a call of a caller-supplied function ends. *)
Inductive completion : Type :=
| Return (v : value)
| Raise (v : value).

(** [x || y] chooses on the truthiness of [x]. *)
Definition truthy (v : value) : bool :=
  match v with
  | VUndefined | VNull => false
  | VBool b => b
  | VNum n => negb (n =? 0)%Z
  | VStr s => negb (String.eqb s "")
  | VObj _ | VError _ | VPromise _ | VFun _ => true
  end.

Definition or_else (x y : value) : value := if truthy x then x else y.

(** [typeof v === "object"] *)
Definition typeof_object (v : value) : bool :=
  match v with
  | VNull | VObj _ | VError _ | VPromise _ => true
  | _ => false
  end.

(** [typeof v === "function"] *)
Definition typeof_function (v : value) : bool :=
  match v with VFun _ => true | _ => false end.

Definition instanceof_Promise (v : value) : bool :=
  match v with VPromise _ => true | _ => false end.

Definition instanceof_Error (v : value) : bool :=
  match v with VError _ => true | _ => false end.

Definition is_undefined (v : value) : bool :=
  match v with VUndefined => true | _ => false end.

(** ** The store *)

(** Entries of the arrays [this.fulfill] and [this.error]:
    [KWrap] is [function () { return fn(yay); }] of [then], with the
    variables [self], [deferred], [success], [failure] it closes over;
    [KFn] is a function handed to [promise.vouch] directly. *)
Inductive cont : Type :=
| KWrap (self deferred : ref) (success failure : value) (yay : bool)
| KFn (h : handler_fn).

(** [function Promise ()]: the five fields, and whether [Object.freeze]
    was applied to the object. *)
Record Promise : Type := mkPromise {
  error : list cont;
  fulfill : list cont;
  parentNode : option ref;
  outcome : value;
  state : string;
  frozen : bool
}.

(** [function () { promise.resolve.call( self, st, arg ); }] handed to
    [utility.defer]. *)
Inductive job : Type :=
| JSettle (self : ref) (st : string) (arg : value).

Record world : Type := mkWorld {
  heap : gmap ref Promise;
  next : ref;
  queue : list job;
  trace : list (nat * value)
}.

(** [promise.state] *)
Module st.
Definition broken : string := "rejected".
Definition pending : string := "pending".
Definition resolved : string := "fulfilled".
End st.

(** What the promise source takes from its surroundings: message labels,
    string helpers, the JSON encoder, the language's conversions, whether
    [Object.freeze] exists, what an assignment to a frozen object does
    ([None]: ignored, as in sloppy mode; [Some m]: a TypeError with message
    [m], as in strict mode), and the functions of the caller. *)
Record Host : Type := mkHost {
  label_invalidArguments : string;
  label_promiseResolved : string;
  string_replace : string -> string -> string -> string;
  string_isEmpty : string -> bool;
  json_encode : value -> string;
  ToString : value -> string;
  freeze : bool;
  frozen_write : option string;
  not_callable : string;
  user_fn : nat -> value -> completion
}.

(** ** Computations: store passing with exceptions *)

Inductive res (A : Type) : Type :=
| Ret (a : A)
| Throw (e : value)
| Stuck
| OutOfFuel.
Arguments Ret {A} a.
Arguments Throw {A} e.
Arguments Stuck {A}.
Arguments OutOfFuel {A}.

Definition M (A : Type) : Type := world -> res A * world.

Definition ret {A} (a : A) : M A := fun w => (Ret a, w).
Definition throw {A} (e : value) : M A := fun w => (Throw e, w).
Definition stuck {A} : M A := fun w => (Stuck, w).
Definition out_of_fuel {A} : M A := fun w => (OutOfFuel, w).

Definition bind {A B} (m : M A) (f : A -> M B) : M B :=
  fun w =>
    match m w with
    | (Ret a, w') => f a w'
    | (Throw e, w') => (Throw e, w')
    | (Stuck, w') => (Stuck, w')
    | (OutOfFuel, w') => (OutOfFuel, w')
    end.

Declare Scope js_scope.
Delimit Scope js_scope with js.
Notation "x <- c ;; k" := (bind c (fun x => k))
  (at level 100, c at next level, right associativity) : js_scope.
Notation "c ;;; k" := (bind c (fun _ => k))
  (at level 100, right associativity) : js_scope.
Local Open Scope js_scope.

Definition get_promise (r : ref) : M Promise :=
  fun w => match heap w !! r with
           | Some p => (Ret p, w)
           | None => (Stuck, w)
           end.

Definition put_promise (r : ref) (p : Promise) : M unit :=
  fun w => (Ret tt, mkWorld (<[r := p]> (heap w)) (next w) (queue w) (trace w)).

Definition set_state (s : string) (p : Promise) : Promise :=
  mkPromise (error p) (fulfill p) (parentNode p) (outcome p) s (frozen p).
Definition set_outcome (v : value) (p : Promise) : Promise :=
  mkPromise (error p) (fulfill p) (parentNode p) v (state p) (frozen p).
Definition set_parentNode (r : option ref) (p : Promise) : Promise :=
  mkPromise (error p) (fulfill p) r (outcome p) (state p) (frozen p).
Definition set_error (l : list cont) (p : Promise) : Promise :=
  mkPromise l (fulfill p) (parentNode p) (outcome p) (state p) (frozen p).
Definition set_fulfill (l : list cont) (p : Promise) : Promise :=
  mkPromise (error p) l (parentNode p) (outcome p) (state p) (frozen p).
Definition set_frozen (b : bool) (p : Promise) : Promise :=
  mkPromise (error p) (fulfill p) (parentNode p) (outcome p) (state p) b.

(** The two arrays of a promise, selected by name as [this[handler]]. *)
Inductive slot : Type := SFulfill | SError.

Definition get_slot (s : slot) (p : Promise) : list cont :=
  match s with SFulfill => fulfill p | SError => error p end.
Definition set_slot (s : slot) (l : list cont) (p : Promise) : Promise :=
  match s with SFulfill => set_fulfill l p | SError => set_error l p end.

(** ** The engine *)

Section Engine.

Context (H : Host).

(** A property assignment [obj.field = v]: it changes nothing on a frozen
    object. *)
Definition assign (r : ref) (upd : Promise -> Promise) : M unit :=
  p <- get_promise r ;;
  if frozen p then
    match frozen_write H with
    | Some m => throw (VError m)
    | None => ret tt
    end
  else put_promise r (upd p).

(** [obj[slot].push( fn )] and the other in-place changes of an array:
    the array is not the frozen object, so freezing does not stop them. *)
Definition modify_slot (r : ref) (s : slot) (f : list cont -> list cont) : M unit :=
  p <- get_promise r ;;
  put_promise r (set_slot s (f (get_slot s p)) p).

(** [Object.freeze( this )] *)
Definition do_freeze (r : ref) : M unit :=
  p <- get_promise r ;;
  put_promise r (set_frozen true p).

(** Modelled from the spec: [utility.defer] is not in the promise source.
    It accepts a callback, does not run it within the calling stack frame
    and keeps FIFO order among the callbacks it was given: the job goes to
    the back of the queue. *)
Definition defer (j : job) : M unit :=
  fun w => (Ret tt, mkWorld (heap w) (next w) (queue w ++ [j]) (trace w)).

(** Ghost: notes that caller function [id] was called with [arg]. *)
Definition log (id : nat) (arg : value) : M unit :=
  fun w => (Ret tt, mkWorld (heap w) (next w) (queue w) (trace w ++ [(id, arg)])).

(** [new Promise()] *)
Definition new_Promise : Promise :=
  mkPromise [] [] None VNull st.pending false.

(** [promise.factory] *)
Definition factory : M ref :=
  fun w => (Ret (next w),
            mkWorld (<[next w := new_Promise]> (heap w)) (S (next w)) (queue w) (trace w)).

(** [promise.methods.reject] *)
Definition methods_reject (self : ref) (arg : value) : M ref :=
  defer (JSettle self st.broken arg) ;;;
  ret self.

(** [promise.methods.resolve] *)
Definition methods_resolve (self : ref) (arg : value) : M ref :=
  defer (JSettle self st.resolved arg) ;;;
  ret self.

(** [promise.methods.resolved] *)
Definition methods_resolved (self : ref) : M bool :=
  p <- get_promise self ;;
  ret (String.eqb (state p) st.broken || String.eqb (state p) st.resolved).

(** [Error( v )] for a [v] that is not [undefined]. *)
Definition Error (v : value) : value :=
  match v with
  | VStr s => VError s
  | _ => VError (ToString H v)
  end.

(** Calling a function value with one argument. *)
Definition call_handler (h : handler_fn) (arg : value) : M value :=
  match h with
  | HUser id =>
      log id arg ;;;
      match user_fn H id arg with
      | Return v => ret v
      | Raise e => throw e
      end
  | HResolve self => methods_resolve self arg ;;; ret VUndefined
  | HReject self => methods_reject self arg ;;; ret VUndefined
  end.

Definition call_value (f : value) (arg : value) : M value :=
  match f with
  | VFun h => call_handler h arg
  | _ => throw (VError (not_callable H))
  end.

(** The [catch] block of [fn]: what [result] is after a throw of [e]. *)
Definition normalize (e : value) : value :=
  if negb (is_undefined e) && negb (instanceof_Error e) then
    Error (if typeof_object e then VStr (json_encode H e) else e)
  else e.

(** The [finally] block of [fn], entered with [result] and [error] set. *)
Definition fn_finally (then_ : ref -> value -> value -> M ref)
    (self deferred : ref) (result : value) (err : bool) : M value :=
  match result with
  | VPromise q =>
      assign self (set_state st.pending) ;;;
      assign self (set_outcome VNull) ;;;
      assign q (set_parentNode (Some self)) ;;;
      then_ q (VFun (HResolve self)) (VFun (HReject self)) ;;;
      ret result
  | _ =>
      if err && is_undefined result then
        throw (VError (label_invalidArguments H))
      else
        p <- get_promise self ;;
        (if negb err then methods_resolve else methods_reject)
          deferred (or_else result (outcome p)) ;;;
        ret result
  end.

(** [fn] of [then]: the continuation wrapper. *)
Definition fn_gen (then_ : ref -> value -> value -> M ref)
    (self deferred : ref) (success failure : value) (yay : bool) : M value :=
  let handler := if yay then success else failure in
  p <- get_promise self ;;
  fun w =>
    match call_value handler (outcome p) w with
    | (Ret v, w1) => fn_finally then_ self deferred v false w1
    | (Throw e, w1) => fn_finally then_ self deferred (normalize e) true w1
    | (Stuck, w1) => (Stuck, w1)
    | (OutOfFuel, w1) => (OutOfFuel, w1)
    end.

(** [promise.vouch] *)
Definition vouch_gen (call : cont -> value -> M value)
    (self : ref) (state_ : string) (fn : cont) : M ref :=
  if string_isEmpty H state_ then
    throw (VError (label_invalidArguments H))
  else
    p <- get_promise self ;;
    if String.eqb (state p) st.pending then
      modify_slot self
        (if String.eqb state_ st.resolved then SFulfill else SError)
        (fun l => l ++ [fn]) ;;;
      ret self
    else if String.eqb (state p) state_ then
      call fn (outcome p) ;;;
      ret self
    else ret self.

(** [promise.methods.then] *)
Definition then_gen (call : cont -> value -> M value)
    (self : ref) (success failure : value) : M ref :=
  deferred <- factory ;;
  (if typeof_function success then
     vouch_gen call self st.resolved (KWrap self deferred success failure true)
   else ret self) ;;;
  (if typeof_function failure then
     vouch_gen call self st.broken (KWrap self deferred success failure false)
   else ret self) ;;;
  assign deferred (set_parentNode (Some self)) ;;;
  ret deferred.

(** Calling an entry of [this.fulfill] / [this.error].  The wrapper of
    [then] ignores its argument.  [fuel] bounds the nesting of wrapper
    calls ([fn] calls [then], which may call a wrapper at once). *)
Fixpoint call_cont (fuel : nat) (k : cont) (arg : value) : M value :=
  match fuel with
  | O => out_of_fuel
  | S fuel' =>
      match k with
      | KFn h => call_handler h arg
      | KWrap self deferred success failure yay =>
          fn_gen (then_gen (call_cont fuel')) self deferred success failure yay
      end
  end.

Definition vouch (fuel : nat) := vouch_gen (call_cont fuel).
Definition methods_then (fuel : nat) := then_gen (call_cont fuel).
Definition fn (fuel : nat) := fn_gen (methods_then fuel).

(** The local variables of [promise.resolve] that its loop callback
    assigns. *)
Record locals : Type := mkLocals {
  v_result : value;
  v_pending : bool;
  v_error : bool;
  v_reason : value;
  v_state : string;
  v_purge : list nat
}.

Definition init_locals (state_ : string) : locals :=
  mkLocals VUndefined false false VUndefined state_ [].

(** Modelled from the spec: [array.each] is not in the promise source.
    It visits the elements in order, hands the callback the element and
    its index, and stops at the first callback that returns [false]; the
    callback's answer is [true] here when the loop goes on. *)
Fixpoint array_each {S : Type} (f : cont -> nat -> S -> M (bool * S))
    (obj : list cont) (i : nat) (s : S) : M S :=
  match obj with
  | [] => ret s
  | x :: rest =>
      r <- f x i s ;;
      if fst r then array_each f rest (Datatypes.S i) (snd r) else ret (snd r)
  end.

(** The callback of the loop in [promise.resolve]. *)
Definition drain_step (call : cont -> value -> M value) (self : ref) (val : value)
    (fn : cont) (idx : nat) (v : locals) : M (bool * locals) :=
  result <- call fn val ;;
  let v1 := mkLocals result (v_pending v) (v_error v) (v_reason v) (v_state v)
                     (v_purge v ++ [idx]) in
  if instanceof_Promise result then
    assign self (set_outcome VNull) ;;;
    assign self (set_state st.pending) ;;;
    ret (false, mkLocals result true (v_error v1) (v_reason v1) (v_state v1) (v_purge v1))
  else if instanceof_Error result then
    ret (true, mkLocals result (v_pending v1) true result st.broken (v_purge v1))
  else ret (true, v1).

(** [array.each( this[handler], function ( fn, idx ) { ... } )] as
    [promise.resolve] starts it: over the array [l], with the local
    variables at their initial values. *)
Definition drain (call : cont -> value -> M value) (self : ref) (val : value)
    (l : list cont) (state_ : string) : M locals :=
  array_each (drain_step call self val) l 0 (init_locals state_).

(** Modelled from the spec: [array.remove] is not in the promise source;
    with one index it takes that element out of the array, in place. *)
Definition array_remove (r : ref) (s : slot) (i : nat) : M unit :=
  modify_slot r s (delete i).

(** [i = purge.length; while ( i-- ) array.remove( self[handler], purge[i] )],
    given the indices already in the order of the loop. *)
Fixpoint purge_loop (r : ref) (s : slot) (js : list nat) : M unit :=
  match js with
  | [] => ret tt
  | j :: js' => array_remove r s j ;;; purge_loop r s js'
  end.

(** [label.replace( "{{outcome}}", v )], the built-in
    [String.prototype.replace] with a string pattern.  A replacement that
    is a function is called when the pattern occurs, with the matched text
    as first argument, and what it returns is converted to a string and put
    in the place of the first match as it is; what it throws escapes.  Any
    other replacement is converted to a string and handed to the host's
    [string_replace]. *)
Definition replace_outcome (label : string) (v : value) : M string :=
  match v with
  | VFun h =>
      match String.index 0 "{{outcome}}" label with
      | Some i =>
          r <- call_handler h (VStr "{{outcome}}") ;;
          ret (String.substring 0 i label ++ ToString H r ++
               String.substring (i + 11) (String.length label - (i + 11)) label)%string
      | None => ret label
      end
  | _ => ret (string_replace H label "{{outcome}}" (ToString H v))
  end.

(** [promise.resolve] *)
Definition promise_resolve (fuel : nat) (self : ref) (state_ : string) (val : value)
  : M value :=
  let handler := if String.eqb state_ st.broken then SError else SFulfill in
  p <- get_promise self ;;
  if negb (String.eqb (state p) st.pending) then
    message <- replace_outcome (label_promiseResolved H) (outcome p) ;;
    throw (VError message)
  else
    assign self (set_state state_) ;;;
    assign self (set_outcome val) ;;;
    p1 <- get_promise self ;;
    v <- drain (call_cont fuel) self val (get_slot handler p1) state_ ;;
    if negb (v_pending v) then
      assign self (set_error []) ;;;
      assign self (set_fulfill []) ;;;
      let result := if negb (v_error v) then v_reason v else v_result v in
      let state' := if negb (v_error v) then st.resolved else v_state v in
      p2 <- get_promise self ;;
      match parentNode p2 with
      | Some parent =>
          pp <- get_promise parent ;;
          if String.eqb (state pp) st.pending then
            (if String.eqb state' st.resolved then methods_resolve else methods_reject)
              parent (or_else result (outcome p2)) ;;;
            ret tt
          else ret tt
      | None => ret tt
      end ;;;
      (if freeze H then do_freeze self else ret tt) ;;;
      ret (VPromise self)
    else
      purge_loop self handler (rev (v_purge v)) ;;;
      ret (v_result v).

(** Modelled from the spec: the event loop behind [utility.defer] is not
    in the promise source.  One turn takes the job at the front of the
    queue and runs it to completion; [None] when the queue is empty. *)
Definition run_job (fuel : nat) (j : job) : M value :=
  match j with
  | JSettle self state_ arg => promise_resolve fuel self state_ arg
  end.

Definition run_next (fuel : nat) (w : world) : option (res value * world) :=
  match queue w with
  | [] => None
  | j :: rest => Some (run_job fuel j (mkWorld (heap w) (next w) rest (trace w)))
  end.

End Engine.

(** ** Notions used to state the properties *)

Definition preserves {A} (I : world -> Prop) (m : M A) : Prop :=
  forall w, I w -> I (snd (m w)).

Definition fueled {A} (m : M A) : Prop := forall w, fst (m w) ≠ OutOfFuel.

(** The field assignments that [fn] and the loop of [promise.resolve]
    perform when they re-arm a promise. *)
Inductive rearming : (Promise -> Promise) -> Prop :=
| rearm_state : rearming (set_state st.pending)
| rearm_outcome : rearming (set_outcome VNull)
| rearm_parent x : rearming (set_parentNode x).

Definition trace_is (t : list (nat * value)) (w : world) : Prop := trace w = t.

(** Promise [d] exists, is pending and has no outcome. *)
Definition stays_pending (d : ref) (w : world) : Prop :=
  d < next w /\
  exists pd, heap w !! d = Some pd /\ state pd = st.pending /\ outcome pd = VNull.

(** Once an Error result was seen, the local [state] is [broken]. *)
Definition locals_ok (v : locals) : Prop :=
  v_error v = true -> v_state v = st.broken.

(** The host's emptiness test does not reject the two state labels. *)
Definition labels_accepted (H : Host) : Prop :=
  string_isEmpty H st.resolved = false /\ string_isEmpty H st.broken = false.

(** The array entries [then] registers on a pending promise. *)
Definition registered (self d : ref) (su fa : value) (p : Promise) : Promise :=
  set_error
    (error p ++ if typeof_function fa then [KWrap self d su fa false] else [])
    (set_fulfill
       (fulfill p ++ if typeof_function su then [KWrap self d su fa true] else [])
       p).

Definition derived (parent : ref) : Promise :=
  mkPromise [] [] (Some parent) VNull st.pending false.

(** The forwarding closures of the adoption branch, for owner [P]. *)
Definition forward_resolve (P : ref) : value := VFun (HResolve P).
Definition forward_reject (P : ref) : value := VFun (HReject P).

(** One turn of the event loop, keeping only the store. *)
Definition turn (H : Host) (fuel : nat) (w : world) : world :=
  match run_next H fuel w with
  | Some (_, w') => w'
  | None => w
  end.

(** ** A concrete host and stores, used for examples *)

(** Caller functions of the examples, by number. *)
Definition demo_fn (id : nat) (v : value) : completion :=
  match id with
  | 0 => Return (VNum 0)
  | 1 => Return v
  | 2 => Raise (VObj [("code", VNum 1)])
  | 3 => Return VUndefined
  | 4 => Return (VPromise 0)
  | 5 => Raise (VError "boom")
  | _ => Return (VStr "other")
  end.

(** Replaces the first occurrence of [pat] in [s] by [r]. *)
Definition replace_first (s pat r : string) : string :=
  match String.index 0 pat s with
  | Some i =>
      (String.substring 0 i s ++ r ++
       String.substring (i + String.length pat)
                        (String.length s - (i + String.length pat)) s)%string
  | None => s
  end.

Definition demo_ToString (v : value) : string :=
  match v with
  | VUndefined => "undefined"
  | VNull => "null"
  | VBool b => if b then "true" else "false"
  | VNum n => NilZero.string_of_int (Z.to_int n)
  | VStr s => s
  | VError m => ("Error: " ++ m)%string
  | VFun _ => "function"
  | VObj _ | VPromise _ => "[object Object]"
  end.

Definition dquote : string := String (Ascii.ascii_of_nat 34) EmptyString.

Definition demo_json (v : value) : string :=
  match v with
  | VObj [(k, VNum n)] =>
      ("{" ++ dquote ++ k ++ dquote ++ ":" ++ NilZero.string_of_int (Z.to_int n) ++ "}")%string
  | _ => "null"
  end.

Definition demo_host : Host :=
  mkHost "One or more arguments is invalid"
         "The promise has been resolved: {{outcome}}"
         replace_first
         (fun s => String.eqb s "")
         demo_json
         demo_ToString
         true (Some "Cannot assign to read only property")
         "not a function" demo_fn.

Definition empty_world : world := mkWorld ∅ 0 [] [].

(** The store after [promise.factory()] was called once. *)
Definition one_promise : world := snd (factory empty_world).

(** The store after [promise.factory()] was called twice. *)
Definition two_promises : world := snd (factory one_promise).

Definition settled_world : world :=
  mkWorld {[ 0 := mkPromise [] [] None (VNum 5) st.resolved true ]} 1 [] [].

Definition rejected_world : world :=
  mkWorld {[ 0 := mkPromise [] [] None (VStr "bad") st.broken true ]} 1 [] [].




(** [P.then(fa); P.then(fb); P.resolve(val)] *)
Definition two_then_resolve (H : Host) (P : ref) (fa fb : nat) (val : value)
    (w : world) : world :=
  snd (methods_resolve P val
         (snd (methods_then H 2 P (VFun (HUser fb)) VUndefined
                 (snd (methods_then H 2 P (VFun (HUser fa)) VUndefined w))))).

(** [P.then(f0).then(f1)] on the promise of [settled_world], fulfilled
    with [5]; [f0] returns [0]. *)
Definition chain_demo : world :=
  snd (methods_then demo_host 2 1 (VFun (HUser 1)) VUndefined
         (snd (methods_then demo_host 2 0 (VFun (HUser 0)) VUndefined settled_world))).

(** Two continuations on promise [1], the first of which returns promise
    [0]; then [resolve("x")] and one turn of the event loop. *)
Definition skipped_demo : world :=
  turn demo_host 2 (two_then_resolve demo_host 1 4 1 (VStr "x") two_promises).

(** [P.then(undefined, f3); P.reject("bad")] on a fresh promise, and one
    turn of the event loop; [f3] returns [undefined]. *)
Definition reject_demo : world :=
  snd (methods_reject 0 (VStr "bad")
         (snd (methods_then demo_host 2 0 VUndefined (VFun (HUser 3)) one_promise))).



(** Promise 0 after [resolve(f2)] and one turn of the event loop: it is
    fulfilled with a function as outcome. *)
Definition function_outcome_world : world :=
  turn demo_host 2 (snd (methods_resolve 0 (VFun (HUser 2)) one_promise)).

(** ** Promises that nothing refers to *)

Definition job_target (j : job) : ref :=
  match j with JSettle r _ _ => r end.

(** A function value other than the closures that call [d.resolve] and
    [d.reject]. *)
Definition handler_avoids (d : ref) (h : handler_fn) : Prop :=
  match h with
  | HUser _ => True
  | HResolve x | HReject x => x ≠ d
  end.

Definition value_avoids (d : ref) (v : value) : Prop :=
  match v with
  | VFun h => handler_avoids d h
  | _ => True
  end.

(** A continuation that was not registered for [d]: [d] is neither the
    promise it was registered on, nor its derived promise, nor the promise
    its functions settle. *)
Definition cont_avoids (d : ref) (k : cont) : Prop :=
  match k with
  | KWrap s dd su fa _ => s ≠ d /\ dd ≠ d /\ value_avoids d su /\ value_avoids d fa
  | KFn h => handler_avoids d h
  end.

(** No continuation of [p] was registered for [d], [d] is not the parent
    of [p], and the outcome of [p] is not a closure that settles [d]. *)
Definition promise_avoids (d : ref) (p : Promise) : Prop :=
  Forall (cont_avoids d) (error p) /\ Forall (cont_avoids d) (fulfill p) /\
  parentNode p ≠ Some d /\ value_avoids d (outcome p).

(** Nothing has reached [d] from [P]: [d] is pending without outcome, no
    queued job settles [d], and [d] is not the parent of [P]. *)
Definition unreached (d P : ref) (w : world) : Prop :=
  stays_pending d w /\
  Forall (fun j => job_target j ≠ d) (queue w) /\
  P < next w /\
  (forall p, heap w !! P = Some p -> parentNode p ≠ Some d).

(** ** Notions used by the further properties *)

(** The job that the reverse step of [promise.resolve] queues after a loop
    that ended with the locals [v]: none without a parent or with a parent
    that is not pending; otherwise [reject] when an Error result was seen
    (with the last result, or the outcome when that is falsy), [resolve]
    with the outcome when none was. *)
Definition reverse_job (w : world) (p : Promise) (val : value) (v : locals)
  : list job :=
  match parentNode p with
  | Some parent =>
      match heap w !! parent with
      | Some pp =>
          if String.eqb (state pp) st.pending then
            [JSettle parent
               (if v_error v then st.broken else st.resolved)
               (if v_error v then or_else (v_result v) val else val)]
          else []
      | None => []
      end
  | None => []
  end.

(** Without an Error result the local [reason] is still [undefined]. *)
Definition reason_unset (v : locals) : Prop :=
  v_error v = false -> v_reason v = VUndefined.

(** [resolve] or [reject], chosen by a flag, and the state each leads to. *)
Definition settle_call (yay : bool) : ref -> value -> M ref :=
  if yay then methods_resolve else methods_reject.

Definition settle_state (yay : bool) : string :=
  if yay then st.resolved else st.broken.

Definition settle_slot (yay : bool) : slot :=
  if yay then SFulfill else SError.

(** A promise whose parent, if it has one, exists and is no longer
    pending. *)
Definition parent_settled (w : world) (self : ref) (p : Promise) : Prop :=
  match parentNode p with
  | None => True
  | Some parent =>
      exists pp, heap w !! parent = Some pp /\ state pp ≠ st.pending /\ parent ≠ self
  end.


(** What calling a wrapper of [then] on [self] does when its caller
    function neither returns a promise nor throws [undefined]: the caller
    function it calls, and the job it queues for its derived promise. *)
Definition cont_effect (H : Host) (self : ref) (val : value) (k : cont)
  : option (nat * job) :=
  match k with
  | KWrap s d su fa yay =>
      if Nat.eqb s self then
        match (if yay then su else fa) with
        | VFun (HUser f) =>
            match user_fn H f val with
            | Return x =>
                if instanceof_Promise x then None
                else Some (f, JSettle d st.resolved (or_else x val))
            | Raise e =>
                if is_undefined e then None
                else Some (f, JSettle d st.broken (normalize H e))
            end
        | _ => None
        end
      else None
  | KFn _ => None
  end.

(** The result of such a call: what the caller function returned, or the
    Error the [catch] block made of what it threw. *)
Definition cont_result (H : Host) (val : value) (k : cont) : option value :=
  match k with
  | KWrap _ _ su fa yay =>
      match (if yay then su else fa) with
      | VFun (HUser f) =>
          match user_fn H f val with
          | Return x => Some x
          | Raise e => Some (normalize H e)
          end
      | _ => None
      end
  | KFn _ => None
  end.

(** The job the reverse step queues after a loop that adopted nothing and
    whose calls had the results [rs]: none without a parent or with a
    parent that is not pending; otherwise [reject] of the parent when one
    of the results was an Error (with the last result, or the value when
    that is falsy), and [resolve] of the parent with the value when none
    was. *)
Definition parent_job (w : world) (p : Promise) (val : value) (rs : list value)
  : list job :=
  match parentNode p with
  | Some parent =>
      match heap w !! parent with
      | Some pp =>
          if String.eqb (state pp) st.pending then
            [if existsb instanceof_Error rs
             then JSettle parent st.broken (or_else (List.last rs VUndefined) val)
             else JSettle parent st.resolved val]
          else []
      | None => []
      end
  | None => []
  end.

(** The entries of a list of effects as calls with the argument [val]. *)
Definition calls_with (val : value) (eff : list (nat * job)) : list (nat * value) :=
  map (fun e => (fst e, val)) eff.

(** Promise 0, pending, with three success continuations registered by
    [then]: the identity, a function that throws an Error, a function that
    returns 0; promises 1, 2 and 3 are derived from it. *)
Definition three_continuations : world :=
  mkWorld
    (<[3 := derived 0]> (<[2 := derived 0]> (<[1 := derived 0]>
       (<[0 := mkPromise []
                 [KWrap 0 1 (VFun (HUser 1)) VUndefined true;
                  KWrap 0 2 (VFun (HUser 5)) VUndefined true;
                  KWrap 0 3 (VFun (HUser 0)) VUndefined true]
                 None VNull st.pending false]> ∅))))
    4 [] [].

(** As [three_continuations], with the pending promise 4 as parent of
    promise 0. *)
Definition parented_promise : Promise :=
  mkPromise []
            [KWrap 0 1 (VFun (HUser 1)) VUndefined true;
             KWrap 0 2 (VFun (HUser 5)) VUndefined true;
             KWrap 0 3 (VFun (HUser 0)) VUndefined true]
            (Some 4) VNull st.pending false.

Definition parented_world : world :=
  mkWorld (<[4 := new_Promise]> (<[0 := parented_promise]> (heap three_continuations)))
          5 [] [].

(** More caller functions: 6 throws [undefined], 7 returns promise 1; the
    others are those of [demo_fn]. *)
Definition more_fn (id : nat) (v : value) : completion :=
  match id with
  | 6 => Raise VUndefined
  | 7 => Return (VPromise 1)
  | _ => demo_fn id v
  end.

(** A host without [Object.freeze]. *)
Definition plain_host : Host :=
  mkHost "One or more arguments is invalid"
         "The promise has been resolved: {{outcome}}"
         replace_first
         (fun s => String.eqb s "")
         demo_json
         demo_ToString
         false None
         "not a function" more_fn.

(** A host with [Object.freeze] in which a write to a frozen object is
    ignored. *)
Definition sloppy_host : Host :=
  mkHost "One or more arguments is invalid"
         "The promise has been resolved: {{outcome}}"
         replace_first
         (fun s => String.eqb s "")
         demo_json
         demo_ToString
         true None
         "not a function" more_fn.

(** As [three_continuations], with a second continuation that throws
    [undefined]. *)
Definition thrower_promise : Promise :=
  mkPromise []
            [KWrap 0 1 (VFun (HUser 1)) VUndefined true;
             KWrap 0 2 (VFun (HUser 6)) VUndefined true;
             KWrap 0 3 (VFun (HUser 0)) VUndefined true]
            None VNull st.pending false.

Definition thrower_world : world :=
  mkWorld (<[0 := thrower_promise]> (heap three_continuations)) 4 [] [].

(** Promise 0, pending, with three success continuations of which the
    second returns the pending promise 1; promises 2, 3 and 4 are derived
    from promise 0. *)
Definition adopter_promise : Promise :=
  mkPromise []
            [KWrap 0 2 (VFun (HUser 1)) VUndefined true;
             KWrap 0 3 (VFun (HUser 7)) VUndefined true;
             KWrap 0 4 (VFun (HUser 0)) VUndefined true]
            None VNull st.pending false.

Definition adopter_world : world :=
  mkWorld
    (<[4 := derived 0]> (<[3 := derived 0]> (<[2 := derived 0]>
       (<[1 := new_Promise]> (<[0 := adopter_promise]> ∅)))))
    5 [] [].

(** One step of a client of the engine: a call of [promise.factory], of
    [then], [resolve] or [reject] on any promise with any arguments, of
    [promise.vouch] with a function, or one turn of the event loop. *)
Inductive api_step (H : Host) (fuel : nat) : world -> world -> Prop :=
| step_factory w :
    api_step H fuel w (snd (factory w))
| step_then w self su fa :
    api_step H fuel w (snd (methods_then H fuel self su fa w))
| step_resolve w self v :
    api_step H fuel w (snd (methods_resolve self v w))
| step_reject w self v :
    api_step H fuel w (snd (methods_reject self v w))
| step_vouch w self s h :
    api_step H fuel w (snd (vouch H fuel self s (KFn h) w))
| step_turn w :
    api_step H fuel w (turn H fuel w).

(** The field assignments the engine performs, with the states it may
    write restricted to [ok]. *)
Inductive engine_update (ok : string -> Prop) : (Promise -> Promise) -> Prop :=
| upd_state s : ok s -> engine_update ok (set_state s)
| upd_outcome v : engine_update ok (set_outcome v)
| upd_parentNode x : engine_update ok (set_parentNode x)
| upd_error : engine_update ok (set_error [])
| upd_fulfill : engine_update ok (set_fulfill []).

Definition job_state (j : job) : string :=
  match j with JSettle _ s _ => s end.

(** Promise [r] is allocated and is the object [p]. *)
Definition sealed (r : ref) (p : Promise) (w : world) : Prop :=
  r < next w /\ heap w !! r = Some p.

(** The three states of [promise.state]. *)
Definition valid_state (s : string) : Prop :=
  s = st.pending \/ s = st.resolved \/ s = st.broken.

(** Every promise of the store is allocated and in one of the three
    states, and every queued job settles toward fulfilled or rejected. *)
Definition valid_store (w : world) : Prop :=
  (forall r p, heap w !! r = Some p -> r < next w /\ valid_state (state p)) /\
  Forall (fun j => job_state j = st.resolved \/ job_state j = st.broken) (queue w).

(** Promise 0 fulfilled with 5 and not frozen, promise 1 pending. *)
Definition rearm_world : world :=
  mkWorld (<[1 := new_Promise]>
             (<[0 := mkPromise [] [] None (VNum 5) st.resolved false]> ∅))
          2 [] [].

(** Promise 0 fulfilled with 5 and frozen, promise 1 pending. *)
Definition frozen_world : world :=
  mkWorld (<[1 := new_Promise]>
             (<[0 := mkPromise [] [] None (VNum 5) st.resolved true]> ∅))
          2 [] [].

(** Promise [d] is allocated and not frozen. *)
Definition unfrozen (d : ref) (w : world) : Prop :=
  d < next w /\ exists p, heap w !! d = Some p /\ frozen p = false.

(** Every promise of the store was handed out by the factory. *)
Definition allocated (w : world) : Prop :=
  forall r p, heap w !! r = Some p -> r < next w.

(** Promise [r] is allocated and pending. *)
Definition still_pending (r : ref) (w : world) : Prop :=
  r < next w /\ exists p, heap w !! r = Some p /\ state p = st.pending.

(** ** Basic facts about computations *)

Lemma bind_ext {A B} (m : M A) (f g : A -> M B) w :
  (forall a w', f a w' = g a w') -> bind m f w = bind m g w.
Proof.
  intros Hfg. unfold bind. destruct (m w) as [[a|e| |] w']; auto.
Qed.

Lemma bind_ret_inv {A B} (m : M A) (f : A -> M B) w b w' :
  bind m f w = (Ret b, w') ->
  exists a w1, m w = (Ret a, w1) /\ f a w1 = (Ret b, w').
Proof.
  unfold bind. destruct (m w) as [[a|e| |] w1]; try discriminate.
  intros Hf. eauto.
Qed.

Lemma preserves_ret {A} I (a : A) : preserves I (ret a).
Proof. intros w Hw. exact Hw. Qed.

Lemma preserves_throw {A} I e : preserves I (@throw A e).
Proof. intros w Hw. exact Hw. Qed.

Lemma preserves_bind {A B} I (m : M A) (f : A -> M B) :
  preserves I m -> (forall a, preserves I (f a)) -> preserves I (bind m f).
Proof.
  intros Hm Hf w Hw. unfold bind. specialize (Hm w Hw).
  destruct (m w) as [[a|e| |] w']; simpl in *; auto.
  by apply Hf.
Qed.

Lemma preserves_get I r : preserves I (get_promise r).
Proof. intros w Hw. unfold get_promise. by destruct (heap w !! r). Qed.

Section Fuel.
Context (H : Host).

Lemma fn_gen_forward t1 t2 q d s1 s2 yay w :
  fn_gen H t1 q d (VFun (HResolve s1)) (VFun (HReject s2)) yay w =
  fn_gen H t2 q d (VFun (HResolve s1)) (VFun (HReject s2)) yay w.
Proof.
  unfold fn_gen, bind, get_promise.
  destruct (heap w !! q); [|reflexivity]. by destruct yay.
Qed.

Lemma fn_gen_ext t1 t2 self d su fa yay w :
  (forall q w', t1 q (VFun (HResolve self)) (VFun (HReject self)) w' =
                t2 q (VFun (HResolve self)) (VFun (HReject self)) w') ->
  fn_gen H t1 self d su fa yay w = fn_gen H t2 self d su fa yay w.
Proof.
  intros Ht. unfold fn_gen. apply bind_ext. intros p w1.
  destruct (call_value H (if yay then su else fa) (outcome p) w1) as [[v|e| |] w2];
    try reflexivity.
  - destruct v; try reflexivity. unfold fn_finally.
    do 3 (apply bind_ext; intros). unfold bind. rewrite Ht. reflexivity.
  - destruct (normalize H e); try reflexivity. unfold fn_finally.
    do 3 (apply bind_ext; intros). unfold bind. rewrite Ht. reflexivity.
Qed.

Lemma vouch_gen_ext c1 c2 self s k w :
  (forall arg w', c1 k arg w' = c2 k arg w') ->
  vouch_gen H c1 self s k w = vouch_gen H c2 self s k w.
Proof.
  intros Hc. unfold vouch_gen. destruct (string_isEmpty H s); [reflexivity|].
  apply bind_ext. intros p w1.
  destruct (String.eqb (state p) st.pending); [reflexivity|].
  destruct (String.eqb (state p) s); [|reflexivity].
  unfold bind. rewrite Hc. reflexivity.
Qed.

Lemma then_gen_ext c1 c2 self su fa w :
  (forall d yay arg w', c1 (KWrap self d su fa yay) arg w' =
                        c2 (KWrap self d su fa yay) arg w') ->
  then_gen H c1 self su fa w = then_gen H c2 self su fa w.
Proof.
  intros Hc. unfold then_gen. apply bind_ext. intros d w1.
  assert (Hv : forall yay s w', vouch_gen H c1 self s (KWrap self d su fa yay) w' =
                           vouch_gen H c2 self s (KWrap self d su fa yay) w').
  { intros. apply vouch_gen_ext. intros. apply Hc. }
  unfold bind.
  destruct (typeof_function su); [rewrite Hv|];
    (match goal with |- context [match ?x with _ => _ end] => destruct x as [[?|?| |] ?] end;
     try reflexivity);
    destruct (typeof_function fa); rewrite ?Hv; reflexivity.
Qed.

Lemma call_cont_KWrap n self d su fa yay arg :
  call_cont H (S n) (KWrap self d su fa yay) arg =
  fn_gen H (methods_then H n) self d su fa yay.
Proof. reflexivity. Qed.

(** Two levels of fuel are always enough: the wrappers that [then] calls
    at once from inside [fn] wrap the forwarding closures, which return
    [undefined] and so never reach [then] again. *)
Lemma call_cont_fuel n k arg w :
  call_cont H (S (S n)) k arg w = call_cont H 2 k arg w.
Proof.
  destruct k as [self d su fa yay|h]; [|reflexivity].
  cbn [call_cont]. apply fn_gen_ext. intros q w1.
  apply then_gen_ext. intros d' yay' arg' w2.
  destruct n; [reflexivity|]. cbn [call_cont]. apply fn_gen_forward.
Qed.

Lemma call_cont_enough n k arg w :
  2 <= n -> call_cont H n k arg w = call_cont H 2 k arg w.
Proof.
  intros Hn. destruct n as [|[|n]]; try lia. apply call_cont_fuel.
Qed.
End Fuel.

(** ** Invariants kept by the wrappers

    [fn], [then] and [vouch] change the store only by a few kinds of
    steps.  Whatever property of the store those steps keep is kept by any
    call of a continuation. *)

Section Preservation.
Context (H : Host) (I : world -> Prop).
Hypothesis I_assign : forall r upd, rearming upd -> preserves I (assign H r upd).
Hypothesis I_slot : forall r s f, preserves I (modify_slot r s f).
Hypothesis I_defer : forall j, preserves I (defer j).
Hypothesis I_factory : preserves I factory.

Lemma pres_methods_resolve self arg : preserves I (methods_resolve self arg).
Proof. apply preserves_bind; [apply I_defer | intros; apply preserves_ret]. Qed.

Lemma pres_methods_reject self arg : preserves I (methods_reject self arg).
Proof. apply preserves_bind; [apply I_defer | intros; apply preserves_ret]. Qed.

Lemma pres_vouch call self s k :
  (forall arg, preserves I (call k arg)) ->
  preserves I (vouch_gen H call self s k).
Proof.
  intros Hc. unfold vouch_gen.
  destruct (string_isEmpty H s); [apply preserves_throw|].
  apply preserves_bind; [apply preserves_get|]. intros p.
  destruct (String.eqb (state p) st.pending).
  { apply preserves_bind; [apply I_slot | intros; apply preserves_ret]. }
  destruct (String.eqb (state p) s); [|apply preserves_ret].
  apply preserves_bind; [apply Hc | intros; apply preserves_ret].
Qed.

Lemma pres_then call self su fa :
  (forall d yay arg, preserves I (call (KWrap self d su fa yay) arg)) ->
  preserves I (then_gen H call self su fa).
Proof.
  intros Hc. unfold then_gen.
  apply preserves_bind; [apply I_factory|]. intros d.
  apply preserves_bind.
  { destruct (typeof_function su); [by apply pres_vouch | apply preserves_ret]. }
  intros _. apply preserves_bind.
  { destruct (typeof_function fa); [by apply pres_vouch | apply preserves_ret]. }
  intros _. apply preserves_bind; [apply I_assign; constructor|].
  intros; apply preserves_ret.
Qed.

Lemma pres_fn_finally_plain t self d result err :
  instanceof_Promise result = false ->
  preserves I (fn_finally H t self d result err).
Proof.
  intros Hr.
  assert (Hplain : preserves I
    (if err && is_undefined result then throw (VError (label_invalidArguments H))
     else bind (get_promise self) (fun p =>
       bind ((if negb err then methods_resolve else methods_reject) d
               (or_else result (outcome p))) (fun _ => ret result)))).
  { destruct (err && is_undefined result); [apply preserves_throw|].
    apply preserves_bind; [apply preserves_get|]. intros p.
    apply preserves_bind; [|intros; apply preserves_ret].
    destruct (negb err); [apply pres_methods_resolve | apply pres_methods_reject]. }
  destruct result; try exact Hplain. discriminate.
Qed.

Lemma pres_fn_finally t self d result err :
  (forall q, preserves I (t q (VFun (HResolve self)) (VFun (HReject self)))) ->
  preserves I (fn_finally H t self d result err).
Proof.
  intros Ht.
  destruct (instanceof_Promise result) eqn:Hr; [|by apply pres_fn_finally_plain].
  destruct result; try discriminate. unfold fn_finally.
  repeat (apply preserves_bind; [first [apply I_assign; constructor | apply Ht]|intros _]).
  apply preserves_ret.
Qed.

Lemma pres_fn_forward t q d s1 s2 yay :
  preserves I (fn_gen H t q d (VFun (HResolve s1)) (VFun (HReject s2)) yay).
Proof.
  intros w Hw. unfold fn_gen, bind at 1, get_promise.
  destruct (heap w !! q) as [p|]; [|exact Hw].
  destruct yay; cbn -[fn_finally].
  - apply pres_fn_finally_plain; [reflexivity|].
    apply (I_defer (JSettle s1 st.resolved (outcome p))). exact Hw.
  - apply pres_fn_finally_plain; [reflexivity|].
    apply (I_defer (JSettle s2 st.broken (outcome p))). exact Hw.
Qed.

Lemma pres_then_forward n q s1 s2 :
  preserves I (then_gen H (call_cont H n) q (VFun (HResolve s1)) (VFun (HReject s2))).
Proof.
  apply pres_then. intros d yay arg.
  destruct n; [intros w Hw; exact Hw|]. apply pres_fn_forward.
Qed.

Lemma pres_fn_finally_fuel n self d result err :
  preserves I (fn_finally H (then_gen H (call_cont H n)) self d result err).
Proof. apply pres_fn_finally. intros q. apply pres_then_forward. Qed.

Lemma pres_call_handler h arg :
  (forall id a, preserves I (log id a)) ->
  preserves I (call_handler H h arg).
Proof.
  intros Hlog. destruct h as [id|s|s]; simpl.
  - apply preserves_bind; [apply Hlog|]. intros _.
    destruct (user_fn H id arg); [apply preserves_ret | apply preserves_throw].
  - apply preserves_bind; [apply pres_methods_resolve | intros; apply preserves_ret].
  - apply preserves_bind; [apply pres_methods_reject | intros; apply preserves_ret].
Qed.

Lemma pres_replace_outcome label v :
  (forall id a, preserves I (log id a)) ->
  preserves I (replace_outcome H label v).
Proof.
  intros Hlog. destruct v; try apply preserves_ret. unfold replace_outcome.
  destruct (String.index _ _ _); [|apply preserves_ret].
  apply preserves_bind; [by apply pres_call_handler | intros; apply preserves_ret].
Qed.

Lemma pres_call_cont n k arg :
  (forall id a, preserves I (log id a)) ->
  preserves I (call_cont H n k arg).
Proof.
  intros Hlog. destruct n; [intros w Hw; exact Hw|].
  destruct k as [self d su fa yay|h]; [|by apply pres_call_handler].
  cbn [call_cont]. intros w Hw. unfold fn_gen, bind, get_promise.
  destruct (heap w !! self) as [p|]; [|exact Hw].
  assert (Hcall : I (snd (call_value H (if yay then su else fa) (outcome p) w))).
  { destruct (if yay then su else fa); try exact Hw.
    by apply pres_call_handler. }
  destruct (call_value H (if yay then su else fa) (outcome p) w) as [[v|e| |] w1];
    simpl in Hcall; try exact Hcall; by apply pres_fn_finally_fuel.
Qed.

End Preservation.

(** ** Running the primitives on a known store *)

Lemma get_promise_eq r p w :
  heap w !! r = Some p -> get_promise r w = (Ret p, w).
Proof. intros Hp. unfold get_promise. by rewrite Hp. Qed.

Lemma eqb_pending_false s : s ≠ st.pending -> String.eqb s st.pending = false.
Proof. intros Hs. by apply String.eqb_neq. Qed.

Lemma assign_unfrozen H r upd p w :
  heap w !! r = Some p -> frozen p = false ->
  assign H r upd w =
    (Ret tt, mkWorld (<[r := upd p]> (heap w)) (next w) (queue w) (trace w)).
Proof.
  intros Hp Hf. unfold assign, bind. rewrite (get_promise_eq _ _ _ Hp), Hf.
  reflexivity.
Qed.

Lemma modify_slot_eq r s f p w :
  heap w !! r = Some p ->
  modify_slot r s f w =
    (Ret tt, mkWorld (<[r := set_slot s (f (get_slot s p)) p]> (heap w))
                     (next w) (queue w) (trace w)).
Proof.
  intros Hp. unfold modify_slot, bind. rewrite (get_promise_eq _ _ _ Hp).
  reflexivity.
Qed.

(** ** Tactics *)

Ltac heap_solve :=
  simpl;
  repeat first [rewrite lookup_insert_eq | rewrite lookup_insert_ne by lia];
  first [reflexivity | eassumption].

Ltac exec_step :=
  first [ erewrite get_promise_eq by heap_solve
        | erewrite assign_unfrozen by (first [heap_solve | reflexivity | eassumption])
        | erewrite modify_slot_eq by heap_solve ];
  simpl.

(** Two stores with the same fields are equal; heaps are compared key by
    key. *)
Ltac heap_eq :=
  apply map_eq; intros ?;
  repeat first [ progress cbn [heap]
               | rewrite lookup_insert_eq
               | rewrite lookup_insert_ne by (first [lia | congruence | assumption])
               | rewrite lookup_insert; case_decide; subst ];
  try lia; try reflexivity; try congruence;
  unfold set_error, set_fulfill, set_state, set_outcome, set_parentNode, set_frozen;
  simpl; try assumption; try congruence.

(** ** The trace grows only where a caller function is called *)

Section Trace.
Context (H : Host).

Lemma trace_assign t r upd : preserves (trace_is t) (assign H r upd).
Proof.
  intros w Hw. unfold assign, bind, get_promise.
  destruct (heap w !! r) as [p|]; [|exact Hw].
  destruct (frozen p); [|exact Hw]. by destruct (frozen_write H).
Qed.

Lemma trace_slot t r s f : preserves (trace_is t) (modify_slot r s f).
Proof.
  intros w Hw. unfold modify_slot, bind, get_promise.
  by destruct (heap w !! r).
Qed.

Lemma trace_defer t j : preserves (trace_is t) (defer j).
Proof. intros w Hw. exact Hw. Qed.

Lemma trace_factory t : preserves (trace_is t) factory.
Proof. intros w Hw. exact Hw. Qed.

Lemma fn_finally_trace n self d result err w :
  trace (snd (fn_finally H (then_gen H (call_cont H n)) self d result err w)) = trace w.
Proof.
  apply (pres_fn_finally_fuel H (trace_is (trace w))).
  - intros. apply trace_assign.
  - apply trace_slot.
  - apply trace_defer.
  - apply trace_factory.
  - reflexivity.
Qed.

(** A wrapper of [then] around a caller function calls it once, with the
    outcome of the promise the wrapper belongs to, whatever happens next. *)
Lemma wrapper_trace n self d (su fa : value) (yay : bool) id arg w p :
  heap w !! self = Some p ->
  (if yay then su else fa) = VFun (HUser id) ->
  trace (snd (call_cont H (S n) (KWrap self d su fa yay) arg w)) =
    trace w ++ [(id, outcome p)].
Proof.
  intros Hp Hh. cbn [call_cont]. unfold fn_gen, bind at 1.
  rewrite (get_promise_eq _ _ _ Hp), Hh. cbn.
  destruct (user_fn H id (outcome p)); cbn; by rewrite fn_finally_trace.
Qed.

End Trace.

(** ** A pending promise nobody settles stays pending *)

Section Frame.
Context (H : Host).

Lemma stays_put d r p' w :
  stays_pending d w ->
  (r = d -> state p' = st.pending /\ outcome p' = VNull) ->
  stays_pending d (mkWorld (<[r := p']> (heap w)) (next w) (queue w) (trace w)).
Proof.
  intros [Hlt (pd & Hd & Hs & Ho)] Hr. split; [exact Hlt|]. simpl.
  destruct (decide (r = d)) as [->|Hne].
  - exists p'. rewrite lookup_insert_eq. destruct (Hr eq_refl). done.
  - exists pd. by rewrite lookup_insert_ne.
Qed.

Lemma stays_assign d r upd :
  (r = d -> forall p, state p = st.pending -> outcome p = VNull ->
            state (upd p) = st.pending /\ outcome (upd p) = VNull) ->
  preserves (stays_pending d) (assign H r upd).
Proof.
  intros Hupd w Hw. unfold assign, bind, get_promise.
  destruct (heap w !! r) as [p|] eqn:Hp; [|exact Hw].
  destruct (frozen p); [by destruct (frozen_write H)|]. simpl.
  apply stays_put; [exact Hw|]. intros ->.
  destruct Hw as [_ (pd & Hd & Hs & Ho)]. rewrite Hp in Hd. injection Hd as ->.
  by apply Hupd.
Qed.

Lemma stays_rearming d r upd :
  rearming upd -> preserves (stays_pending d) (assign H r upd).
Proof.
  intros Hu. apply stays_assign. intros _ p Hs Ho. by destruct Hu.
Qed.

Lemma stays_slot d r s f : preserves (stays_pending d) (modify_slot r s f).
Proof.
  intros w Hw. unfold modify_slot, bind, get_promise.
  destruct (heap w !! r) as [p|] eqn:Hp; [|exact Hw]. simpl.
  apply stays_put; [exact Hw|]. intros ->.
  destruct Hw as [_ (pd & Hd & Hs & Ho)]. rewrite Hp in Hd. injection Hd as ->.
  by destruct s.
Qed.

Lemma stays_freeze d r : preserves (stays_pending d) (do_freeze r).
Proof.
  intros w Hw. unfold do_freeze, bind, get_promise.
  destruct (heap w !! r) as [p|] eqn:Hp; [|exact Hw]. simpl.
  apply stays_put; [exact Hw|]. intros ->.
  destruct Hw as [_ (pd & Hd & Hs & Ho)]. rewrite Hp in Hd. by injection Hd as ->.
Qed.

Lemma stays_defer d j : preserves (stays_pending d) (defer j).
Proof. intros w Hw. exact Hw. Qed.

Lemma stays_log d id a : preserves (stays_pending d) (log id a).
Proof. intros w Hw. exact Hw. Qed.

Lemma stays_factory d : preserves (stays_pending d) factory.
Proof.
  intros w [Hlt (pd & Hd & Hs & Ho)]. split; simpl; [lia|].
  exists pd. rewrite lookup_insert_ne by lia. done.
Qed.

Lemma stays_call_cont d n k arg : preserves (stays_pending d) (call_cont H n k arg).
Proof.
  apply pres_call_cont.
  - intros. by apply stays_rearming.
  - apply stays_slot.
  - apply stays_defer.
  - apply stays_factory.
  - apply stays_log.
Qed.

Lemma stays_array_each d n self val l :
  forall i v, preserves (stays_pending d)
                (array_each (drain_step H (call_cont H n) self val) l i v).
Proof.
  induction l as [|k l IH]; intros i v; [apply preserves_ret|].
  cbn [array_each]. apply preserves_bind.
  - unfold drain_step. apply preserves_bind; [apply stays_call_cont|].
    intros result. destruct (instanceof_Promise result).
    + repeat (apply preserves_bind; [apply stays_rearming; constructor|intros _]).
      apply preserves_ret.
    + destruct (instanceof_Error result); apply preserves_ret.
  - intros [b v']. simpl. destruct b; [apply IH | apply preserves_ret].
Qed.

Lemma stays_purge_loop d r s js : preserves (stays_pending d) (purge_loop r s js).
Proof.
  induction js as [|j js IH]; [apply preserves_ret|].
  cbn [purge_loop]. apply preserves_bind; [apply stays_slot | intros _; exact IH].
Qed.

(** Settling one promise never changes the state or the outcome of
    another promise that is pending with no outcome. *)
Lemma stays_promise_resolve d n self state_ val :
  self ≠ d ->
  preserves (stays_pending d) (promise_resolve H n self state_ val).
Proof.
  intros Hne. unfold promise_resolve.
  apply preserves_bind; [apply preserves_get|]. intros p.
  destruct (negb (String.eqb (state p) st.pending)).
  { apply preserves_bind; [|intros; apply preserves_throw].
    apply pres_replace_outcome; first [apply stays_defer | apply stays_log]. }
  apply preserves_bind; [apply stays_assign; intros; done|]. intros _.
  apply preserves_bind; [apply stays_assign; intros; done|]. intros _.
  apply preserves_bind; [apply preserves_get|]. intros p1.
  apply preserves_bind; [apply stays_array_each|]. intros v.
  destruct (negb (v_pending v)).
  - apply preserves_bind; [apply stays_assign; intros; done|]. intros _.
    apply preserves_bind; [apply stays_assign; intros; done|]. intros _.
    apply preserves_bind; [apply preserves_get|]. intros p2.
    apply preserves_bind.
    { destruct (parentNode p2) as [parent|]; [|apply preserves_ret].
      apply preserves_bind; [apply preserves_get|]. intros pp.
      destruct (String.eqb (state pp) st.pending); [|apply preserves_ret].
      apply preserves_bind; [|intros; apply preserves_ret].
      destruct (String.eqb _ st.resolved);
        apply preserves_bind; try apply stays_defer; intros; apply preserves_ret. }
    intros _. apply preserves_bind; [|intros; apply preserves_ret].
    destruct (freeze H); [apply stays_freeze | apply preserves_ret].
  - apply preserves_bind; [apply stays_purge_loop | intros; apply preserves_ret].
Qed.

End Frame.

(** ** What a continuation does when it does not adopt *)

Section Plain.
Context (H : Host).

(** The catch block never leaves a promise in [result]. *)
Lemma normalize_not_promise e : instanceof_Promise (normalize H e) = false.
Proof.
  unfold normalize. destruct e; try reflexivity; cbn;
    by destruct (ToString H _).
Qed.

Lemma call_handler_heap h arg w :
  heap (snd (call_handler H h arg w)) = heap w /\
  next (snd (call_handler H h arg w)) = next w.
Proof.
  destruct h as [id|s|s]; cbn; [|done|done].
  by destruct (user_fn H id arg).
Qed.

Lemma call_value_heap f arg w :
  heap (snd (call_value H f arg w)) = heap w /\
  next (snd (call_value H f arg w)) = next w.
Proof. destruct f; try done. apply call_handler_heap. Qed.

(** The [finally] block on a result that is not a promise. *)
Lemma fn_finally_plain t self d result err w :
  instanceof_Promise result = false ->
  fn_finally H t self d result err w =
    if err && is_undefined result then (Throw (VError (label_invalidArguments H)), w)
    else match heap w !! self with
         | Some p =>
             (Ret result,
              mkWorld (heap w) (next w)
                (queue w ++ [JSettle d (if err then st.broken else st.resolved)
                                       (or_else result (outcome p))])
                (trace w))
         | None => (Stuck, w)
         end.
Proof.
  intros Hr.
  assert (Hplain :
    (if err && is_undefined result then throw (VError (label_invalidArguments H))
     else bind (get_promise self) (fun p =>
       bind ((if negb err then methods_resolve else methods_reject) d
               (or_else result (outcome p))) (fun _ => ret result))) w =
    if err && is_undefined result then (Throw (VError (label_invalidArguments H)), w)
    else match heap w !! self with
         | Some p =>
             (Ret result,
              mkWorld (heap w) (next w)
                (queue w ++ [JSettle d (if err then st.broken else st.resolved)
                                       (or_else result (outcome p))])
                (trace w))
         | None => (Stuck, w)
         end).
  { destruct (err && is_undefined result); [reflexivity|].
    unfold bind, get_promise. destruct (heap w !! self); [|reflexivity].
    by destruct err. }
  destruct result; try exact Hplain. discriminate.
Qed.

(** When [fn] returns, it returns [result]. *)
Lemma fn_finally_ret t self d result err w v w' :
  fn_finally H t self d result err w = (Ret v, w') -> v = result.
Proof.
  destruct (instanceof_Promise result) eqn:Hr.
  - destruct result; try discriminate. unfold fn_finally. intros Hf.
    repeat (apply bind_ret_inv in Hf; destruct Hf as (? & ? & _ & Hf)).
    by injection Hf as <- _.
  - rewrite fn_finally_plain by done.
    destruct (err && is_undefined result); [discriminate|].
    destruct (heap w !! self); [|discriminate]. by intros [= <- _].
Qed.

(** A continuation that returns something other than a promise has not
    touched any promise object. *)
Lemma call_cont_plain n k arg w v w' :
  call_cont H n k arg w = (Ret v, w') ->
  instanceof_Promise v = false ->
  heap w' = heap w /\ next w' = next w.
Proof.
  destruct n; [discriminate|].
  destruct k as [self d su fa yay|h]; cbn [call_cont].
  2:{ intros Hc _. pose proof (call_handler_heap h arg w) as Hh.
      by rewrite Hc in Hh. }
  unfold fn_gen, bind at 1, get_promise.
  destruct (heap w !! self) as [p|]; [|discriminate].
  pose proof (call_value_heap (if yay then su else fa) (outcome p) w) as Hh.
  destruct (call_value H (if yay then su else fa) (outcome p) w) as [[v0|e| |] w1];
    try discriminate; simpl in Hh; destruct Hh as [Hh1 Hh2]; intros Hf Hv.
  - pose proof (fn_finally_ret _ _ _ _ _ _ _ _ Hf) as ->.
    rewrite fn_finally_plain in Hf by done.
    destruct (false && is_undefined v0); [discriminate|].
    destruct (heap w1 !! self); [|discriminate].
    injection Hf as <-. simpl. done.
  - pose proof (fn_finally_ret _ _ _ _ _ _ _ _ Hf) as ->.
    rewrite fn_finally_plain in Hf by done.
    destruct (true && is_undefined (normalize H e)); [discriminate|].
    destruct (heap w1 !! self); [|discriminate].
    injection Hf as <-. simpl. done.
Qed.

(** A loop that ends with the local [pending] unset has changed no promise
    object, only queued jobs and called caller functions. *)
Lemma array_each_plain n self val l :
  forall i v w v' w',
    array_each (drain_step H (call_cont H n) self val) l i v w = (Ret v', w') ->
    v_pending v' = false ->
    locals_ok v ->
    heap w' = heap w /\ next w' = next w /\ locals_ok v'.
Proof.
  induction l as [|k l IH]; intros i v w v' w' He Hp Hok.
  { injection He as <- <-. done. }
  cbn [array_each] in He. apply bind_ret_inv in He.
  destruct He as ([b v1] & w1 & Hstep & He). simpl in He.
  unfold drain_step in Hstep. apply bind_ret_inv in Hstep.
  destruct Hstep as (result & w2 & Hcall & Hstep).
  destruct (instanceof_Promise result) eqn:Hr.
  - repeat (apply bind_ret_inv in Hstep; destruct Hstep as (? & ? & _ & Hstep)).
    injection Hstep as <- <- <-. injection He as <- <-. discriminate.
  - destruct (call_cont_plain _ _ _ _ _ _ Hcall Hr) as [Hh Hn].
    destruct (instanceof_Error result).
    + injection Hstep as <- <- <-.
      destruct (IH _ _ _ _ _ He Hp) as (? & ? & ?); [done|]. split; [congruence|].
      split; [congruence|done].
    + injection Hstep as <- <- <-.
      destruct (IH _ _ _ _ _ He Hp) as (? & ? & ?); [exact Hok|]. split; [congruence|].
      split; [congruence|done].
Qed.

End Plain.

(** ** Settlement of a promise that is not pending, and deferred settlement *)


(** C1 fails where the outcome is a function.  Promise 0 was fulfilled
    with caller function 2, which throws the object [{code: 1}] when it is
    called; a second settlement hands that function to
    [String.prototype.replace], which calls it with the matched text, and
    what the function throws escapes in place of the double-settlement
    error.  No promise object changes. *)
Lemma function_outcome_escapes :
  heap function_outcome_world !! 0 =
    Some (mkPromise [] [] None (VFun (HUser 2)) st.resolved true) /\
  promise_resolve demo_host 2 0 st.resolved (VNum 1) function_outcome_world =
    (Throw (VObj [("code", VNum 1)]),
     mkWorld (heap function_outcome_world) 1 [] [(2, VStr "{{outcome}}")]).
Proof. vm_compute. split; reflexivity. Qed.





(** C4. [promise.vouch] with branch selector [s] and continuation [k]:
    an empty selector raises the invalid-arguments error and changes
    nothing; on a pending promise [k] is appended to the array of the
    branch and nothing is called; on a promise settled to [s] the call is
    exactly one call of [k] with the stored outcome (for a caller function,
    directly or wrapped by [then], one new trace entry with that outcome);
    on a promise settled to the other branch nothing is called and nothing
    stored. *)
Theorem vouch_cases (H : Host) fuel w self p (s : string) (k : cont) :
  heap w !! self = Some p ->
  (string_isEmpty H s = true ->
     vouch H fuel self s k w = (Throw (VError (label_invalidArguments H)), w)) /\
  (string_isEmpty H s = false -> state p = st.pending ->
     let branch := if String.eqb s st.resolved then SFulfill else SError in
     vouch H fuel self s k w =
       (Ret self,
        mkWorld (<[self := set_slot branch (get_slot branch p ++ [k]) p]> (heap w))
                (next w) (queue w) (trace w))) /\
  (string_isEmpty H s = false -> state p ≠ st.pending -> state p = s ->
     vouch H fuel self s k w =
       bind (call_cont H fuel k (outcome p)) (fun _ => ret self) w /\
     (forall id, k = KFn (HUser id) ->
        vouch H (S fuel) self s k w =
          (match user_fn H id (outcome p) with
           | Return _ => Ret self
           | Raise e => Throw e
           end,
           mkWorld (heap w) (next w) (queue w) (trace w ++ [(id, outcome p)]))) /\
     (forall id d fa, k = KWrap self d (VFun (HUser id)) fa true ->
        trace (snd (vouch H (S fuel) self s k w)) = trace w ++ [(id, outcome p)])) /\
  (string_isEmpty H s = false -> state p ≠ st.pending -> state p ≠ s ->
     vouch H fuel self s k w = (Ret self, w)).
Proof.
  intros Hp. unfold vouch, vouch_gen.
  split; [by intros ->|]. split; [|split].
  - intros -> Hs. unfold bind at 1. rewrite (get_promise_eq _ _ _ Hp), Hs.
    rewrite String.eqb_refl. unfold bind. by rewrite (modify_slot_eq _ _ _ _ _ Hp).
  - intros -> Hs1 Hs2.
    assert (Hv : forall n,
      bind (get_promise self) (fun p0 =>
        if String.eqb (state p0) st.pending
        then bind (modify_slot self
                     (if String.eqb s st.resolved then SFulfill else SError)
                     (fun l => l ++ [k])) (fun _ => ret self)
        else if String.eqb (state p0) s
             then bind (call_cont H n k (outcome p0)) (fun _ => ret self)
             else ret self) w =
      bind (call_cont H n k (outcome p)) (fun _ => ret self) w).
    { intros n. unfold bind at 1.
      rewrite (get_promise_eq _ _ _ Hp), (eqb_pending_false _ Hs1).
      by rewrite (proj2 (String.eqb_eq _ _) Hs2). }
    split; [apply Hv|]. split.
    + intros id ->. rewrite Hv. cbn.
      by destruct (user_fn H id (outcome p)).
    + intros id d fa ->. rewrite Hv.
      pose proof (wrapper_trace H fuel self d (VFun (HUser id)) fa true id
                    (outcome p) w p Hp eq_refl) as Ht.
      unfold bind.
      by destruct (call_cont H (S fuel) _ (outcome p) w) as [[?|?| |] ?].
  - intros -> Hs1 Hs2. unfold bind.
    rewrite (get_promise_eq _ _ _ Hp), (eqb_pending_false _ Hs1).
    by rewrite (proj2 (String.eqb_neq _ _) Hs2).
Qed.

Lemma vouch_cases_witness :
  vouch demo_host 2 0 "" (KFn (HUser 1)) settled_world =
    (Throw (VError "One or more arguments is invalid"), settled_world) /\
  vouch demo_host 2 0 st.resolved (KFn (HUser 1)) one_promise =
    (Ret 0, mkWorld (<[0 := mkPromise [] [KFn (HUser 1)] None VNull st.pending false]>
                       (heap one_promise)) 1 [] []) /\
  vouch demo_host 2 0 st.resolved (KFn (HUser 1)) settled_world =
    (Ret 0, mkWorld (heap settled_world) 1 [] [(1, VNum 5)]) /\
  vouch demo_host 2 0 st.broken (KFn (HUser 1)) settled_world = (Ret 0, settled_world).
Proof.
  pose (settled := mkPromise [] [] None (VNum 5) st.resolved true).
  split; [|split; [|split]].
  - apply (vouch_cases demo_host 2 settled_world 0 settled "" (KFn (HUser 1)));
      reflexivity.
  - apply (vouch_cases demo_host 2 one_promise 0 new_Promise st.resolved
             (KFn (HUser 1))); reflexivity.
  - apply (vouch_cases demo_host 1 settled_world 0 settled st.resolved
             (KFn (HUser 1))); (reflexivity || discriminate).
  - apply (vouch_cases demo_host 2 settled_world 0 settled st.broken
             (KFn (HUser 1))); (reflexivity || discriminate).
Defined.

(** ** Where the trace of a settlement comes from *)

Section SettleTrace.
Context (H : Host).

Lemma assign_trace r upd w : trace (snd (assign H r upd w)) = trace w.
Proof. by apply (trace_assign H (trace w)). Qed.

Lemma drain_step_trace call self val k i v w :
  trace (snd (drain_step H call self val k i v w)) = trace (snd (call k val w)).
Proof.
  unfold drain_step, bind at 1.
  destruct (call k val w) as [[result|e| |] w1]; try reflexivity. simpl.
  destruct (instanceof_Promise result).
  - unfold bind. pose proof (assign_trace self (set_outcome VNull) w1) as H1.
    destruct (assign H self (set_outcome VNull) w1) as [[[]|?| |] w2]; try exact H1.
    pose proof (assign_trace self (set_state st.pending) w2) as H2.
    destruct (assign H self (set_state st.pending) w2) as [[[]|?| |] w3];
      simpl in *; congruence.
  - by destruct (instanceof_Error result).
Qed.

(** After the loop, [promise.resolve] calls no caller function. *)
Lemma resolve_tail_trace self handler v :
  forall w,
  trace (snd (
    (if negb (v_pending v) then
      assign H self (set_error []) ;;;
      assign H self (set_fulfill []) ;;;
      let result := if negb (v_error v) then v_reason v else v_result v in
      let state' := if negb (v_error v) then st.resolved else v_state v in
      p2 <- get_promise self ;;
      match parentNode p2 with
      | Some parent =>
          pp <- get_promise parent ;;
          if String.eqb (state pp) st.pending then
            (if String.eqb state' st.resolved then methods_resolve else methods_reject)
              parent (or_else result (outcome p2)) ;;;
            ret tt
          else ret tt
      | None => ret tt
      end ;;;
      (if freeze H then do_freeze self else ret tt) ;;;
      ret (VPromise self)
    else
      purge_loop self handler (rev (v_purge v)) ;;;
      ret (v_result v)) w)) = trace w.
Proof.
  intros w.
  match goal with |- trace (snd (?m w)) = _ =>
    enough (Hm : preserves (trace_is (trace w)) m) by (by apply Hm) end.
  generalize (trace w). intros t.
  destruct (negb (v_pending v)).
  - apply preserves_bind; [apply trace_assign|]. intros _.
    apply preserves_bind; [apply trace_assign|]. intros _.
    apply preserves_bind; [apply preserves_get|]. intros p2.
    apply preserves_bind.
    { destruct (parentNode p2) as [parent|]; [|apply preserves_ret].
      apply preserves_bind; [apply preserves_get|]. intros pp.
      destruct (String.eqb (state pp) st.pending); [|apply preserves_ret].
      apply preserves_bind; [|intros; apply preserves_ret].
      destruct (String.eqb _ st.resolved);
        apply preserves_bind; try apply trace_defer; intros; apply preserves_ret. }
    intros _. apply preserves_bind; [|intros; apply preserves_ret].
    destruct (freeze H); [|apply preserves_ret].
    intros w' Hw'. unfold do_freeze, bind, get_promise.
    by destruct (heap w' !! self).
  - apply preserves_bind; [|intros; apply preserves_ret].
    induction (rev (v_purge v)) as [|j js IH]; [apply preserves_ret|].
    cbn [purge_loop]. apply preserves_bind; [apply trace_slot | intros _; exact IH].
Qed.

(** The trace of a settlement of a pending promise is the trace of its
    loop over the continuations. *)
Lemma promise_resolve_trace n w self p state_ val :
  heap w !! self = Some p ->
  state p = st.pending -> frozen p = false ->
  trace (snd (promise_resolve H n self state_ val w)) =
  trace (snd (drain H (call_cont H n) self val
                (get_slot (if String.eqb state_ st.broken then SError else SFulfill) p)
                state_
                (mkWorld (<[self := set_outcome val (set_state state_ p)]> (heap w))
                         (next w) (queue w) (trace w)))).
Proof.
  intros Hp Hs Hf. unfold promise_resolve, bind at 1.
  rewrite (get_promise_eq _ _ _ Hp), Hs. cbn [String.eqb Ascii.eqb Bool.eqb negb st.pending].
  unfold bind at 1. erewrite assign_unfrozen by eassumption.
  unfold bind at 1. erewrite assign_unfrozen by (simpl; rewrite ?lookup_insert_eq; done).
  cbn [heap next queue trace]. rewrite insert_insert_eq.
  unfold bind at 1. erewrite get_promise_eq by (simpl; rewrite ?lookup_insert_eq; done).
  unfold bind at 1.
  replace (get_slot (if String.eqb state_ st.broken then SError else SFulfill)
             (set_outcome val (set_state state_ p)))
    with (get_slot (if String.eqb state_ st.broken then SError else SFulfill) p)
    by (by destruct (String.eqb state_ st.broken)).
  match goal with |- context [drain H ?c self val ?l state_ ?w0] =>
    destruct (drain H c self val l state_ w0) as [[v|e| |] w1] end; try reflexivity.
  apply resolve_tail_trace.
Qed.

End SettleTrace.

(** ** Exact steps of the wrappers and of [then] *)

Lemma world_eq {A} (r : res A) h1 h2 n1 n2 q1 q2 t1 t2 :
  h1 = h2 -> n1 = n2 -> q1 = q2 -> t1 = t2 ->
  (r, mkWorld h1 n1 q1 t1) = (r, mkWorld h2 n2 q2 t2).
Proof. by intros -> -> -> ->. Qed.

Lemma normalize_truthy (H : Host) e :
  is_undefined e = false -> truthy (normalize H e) = true.
Proof. destruct e; try done; intros _; unfold normalize; cbn; by destruct (ToString H _). Qed.

Section Wrapper.
Context (H : Host).
Variables (n : nat) (w : world) (self d : ref) (su fa : value) (yay : bool).
Variables (id : nat) (p : Promise) (arg : value).
Hypothesis Hself : heap w !! self = Some p.
Hypothesis Hhandler : (if yay then su else fa) = VFun (HUser id).

(** The caller function returns a value that is not a promise: the derived
    promise is scheduled to be resolved, on either branch. *)
Lemma wrapper_returns x :
  user_fn H id (outcome p) = Return x -> instanceof_Promise x = false ->
  call_cont H (S n) (KWrap self d su fa yay) arg w =
    (Ret x, mkWorld (heap w) (next w)
              (queue w ++ [JSettle d st.resolved (or_else x (outcome p))])
              (trace w ++ [(id, outcome p)])).
Proof.
  intros Hf Hx. cbn [call_cont]. unfold fn_gen, bind at 1.
  rewrite (get_promise_eq _ _ _ Hself), Hhandler. cbn. rewrite Hf. cbn [ret].
  rewrite fn_finally_plain by exact Hx. cbn. by rewrite Hself.
Qed.

(** The caller function throws something: the derived promise is scheduled
    to be rejected with the normalized value. *)
Lemma wrapper_raises e :
  user_fn H id (outcome p) = Raise e -> is_undefined e = false ->
  call_cont H (S n) (KWrap self d su fa yay) arg w =
    (Ret (normalize H e),
     mkWorld (heap w) (next w)
       (queue w ++ [JSettle d st.broken (normalize H e)])
       (trace w ++ [(id, outcome p)])).
Proof.
  intros Hf He. cbn [call_cont]. unfold fn_gen, bind at 1.
  rewrite (get_promise_eq _ _ _ Hself), Hhandler. cbn. rewrite Hf. cbn [throw].
  rewrite fn_finally_plain by apply normalize_not_promise.
  assert (Hu : is_undefined (normalize H e) = false).
  { pose proof (normalize_truthy H e He). by destruct (normalize H e). }
  rewrite Hu. cbn. rewrite Hself. unfold or_else.
  by rewrite normalize_truthy.
Qed.

(** The caller function throws [undefined]: the wrapper itself throws. *)
Lemma wrapper_raises_undefined :
  user_fn H id (outcome p) = Raise VUndefined ->
  call_cont H (S n) (KWrap self d su fa yay) arg w =
    (Throw (VError (label_invalidArguments H)),
     mkWorld (heap w) (next w) (queue w) (trace w ++ [(id, outcome p)])).
Proof.
  intros Hf. cbn [call_cont]. unfold fn_gen, bind at 1.
  rewrite (get_promise_eq _ _ _ Hself), Hhandler. cbn. rewrite Hf. reflexivity.
Qed.

End Wrapper.

Section Then.
Context (H : Host).

Lemma then_on_pending n w P pP su fa :
  labels_accepted H ->
  heap w !! P = Some pP -> state pP = st.pending -> P < next w ->
  methods_then H n P su fa w =
    (Ret (next w),
     mkWorld (<[next w := derived P]> (<[P := registered P (next w) su fa pP]> (heap w)))
             (S (next w)) (queue w) (trace w)).
Proof.
  intros [He1 He2] Hp Hs Hlt. destruct pP as [er fu pa ou sta fr]. simpl in Hs. subst sta.
  unfold methods_then, then_gen, vouch_gen. rewrite He1, He2.
  unfold bind at 1. cbn [factory].
  destruct (typeof_function su) eqn:Hsu, (typeof_function fa) eqn:Hfa;
    unfold bind, ret; simpl; repeat exec_step;
    unfold registered; rewrite Hsu, Hfa; simpl; rewrite ?app_nil_r;
    (apply world_eq; [heap_eq | reflexivity ..]).
Qed.

End Then.

Arguments call_cont : simpl never.

Section Scenarios.
Context (H : Host).

(** [then] with a success function, on a promise already fulfilled: the
    wrapper runs at once. *)
Lemma then_on_fulfilled n w P pP f (fa x : value) :
  labels_accepted H ->
  heap w !! P = Some pP -> state pP = st.resolved -> P < next w ->
  user_fn H f (outcome pP) = Return x -> instanceof_Promise x = false ->
  methods_then H (S n) P (VFun (HUser f)) fa w =
    (Ret (next w),
     mkWorld (<[next w := derived P]> (heap w)) (S (next w))
             (queue w ++ [JSettle (next w) st.resolved (or_else x (outcome pP))])
             (trace w ++ [(f, outcome pP)])).
Proof.
  intros [He1 He2] Hp Hs Hlt Hf Hx.
  unfold methods_then, then_gen, vouch_gen. rewrite He1, He2.
  unfold bind at 1. cbn [factory typeof_function].
  unfold bind at 1. unfold bind at 1. exec_step. rewrite Hs. simpl.
  unfold bind at 1.
  erewrite (wrapper_returns H n _ P (next w) (VFun (HUser f)) fa true f pP)
    by (first [heap_solve | reflexivity | eassumption]).
  simpl. unfold bind at 1.
  assert (Hskip : forall w0, heap w0 !! P = Some pP ->
    (if typeof_function fa
     then bind (get_promise P) (fun p =>
            if String.eqb (state p) st.pending
            then bind (modify_slot P
                         (if String.eqb st.broken st.resolved then SFulfill else SError)
                         (fun l => l ++ [KWrap P (next w) (VFun (HUser f)) fa false]))
                   (fun _ => ret P)
            else if String.eqb (state p) st.broken
                 then bind (call_cont H (S n) (KWrap P (next w) (VFun (HUser f)) fa false)
                              (outcome p)) (fun _ => ret P)
                 else ret P)
     else ret P) w0 = (Ret P, w0)).
  { intros w0 Hw0. destruct (typeof_function fa); [|reflexivity].
    unfold bind. rewrite (get_promise_eq _ _ _ Hw0), Hs. reflexivity. }
  rewrite Hskip by heap_solve. unfold bind. exec_step.
  apply world_eq; [heap_eq | reflexivity ..].
Qed.

(** Settling a pending promise that has no continuation on the branch it
    settles to, and whose parent (if any) is no longer pending. *)
Lemma resolve_no_continuation n w self p state_ val :
  heap w !! self = Some p ->
  state p = st.pending -> frozen p = false ->
  get_slot (if String.eqb state_ st.broken then SError else SFulfill) p = [] ->
  match parentNode p with
  | None => True
  | Some parent => exists pp, heap w !! parent = Some pp /\ state pp ≠ st.pending /\
                              parent ≠ self
  end ->
  promise_resolve H n self state_ val w =
    (Ret (VPromise self),
     mkWorld (<[self := mkPromise [] [] (parentNode p) val state_ (freeze H)]> (heap w))
             (next w) (queue w) (trace w)).
Proof.
  intros Hp Hs Hf Hl Hpar. destruct p as [er fu pa ou sta fr]. simpl in *. subst.
  unfold promise_resolve, bind at 1. rewrite (get_promise_eq _ _ _ Hp). simpl.
  unfold bind at 1. exec_step. unfold bind at 1. exec_step.
  unfold bind at 1. exec_step.
  assert (Hdrain : forall call w1, drain H call self val
      (get_slot (if String.eqb state_ st.broken then SError else SFulfill)
         (set_outcome val (set_state state_ (mkPromise er fu pa ou "pending" false))))
      state_ w1 = (Ret (init_locals state_), w1)).
  { intros. unfold drain.
    destruct (String.eqb state_ st.broken); simpl in *; subst; reflexivity. }
  unfold bind at 1. rewrite Hdrain. simpl.
  unfold bind at 1. exec_step. unfold bind at 1. exec_step.
  unfold bind at 1. unfold bind at 1. exec_step.
  assert (Hparent : forall w0 (x : value),
    (forall parent pp, pa = Some parent -> heap w !! parent = Some pp ->
                       parent ≠ self -> heap w0 !! parent = Some pp) ->
    match pa with
    | Some parent =>
        bind (get_promise parent) (fun pp =>
          if String.eqb (state pp) st.pending
          then bind (methods_resolve parent x) (fun _ => ret tt)
          else ret tt)
    | None => ret tt
    end w0 = (Ret tt, w0)).
  { intros w0 x Hw0. destruct pa as [parent|]; [|reflexivity].
    destruct Hpar as (pp & Hpp & Hst & Hne). unfold bind.
    rewrite (get_promise_eq _ _ _ (Hw0 _ _ eq_refl Hpp Hne)).
    by rewrite (eqb_pending_false _ Hst). }
  rewrite Hparent.
  2:{ intros parent pp -> Hpp Hne. simpl.
      repeat rewrite lookup_insert_ne by done. exact Hpp. }
  unfold bind. destruct (freeze H); simpl.
  - unfold do_freeze, bind. exec_step. unfold put_promise. simpl.
    apply world_eq; [heap_eq | reflexivity ..].
  - unfold ret. apply world_eq; [heap_eq | reflexivity ..].
Qed.

End Scenarios.

Lemma array_each_single_trace {S : Type} (f : cont -> nat -> S -> M (bool * S)) k i s w :
  trace (snd (array_each f [k] i s w)) = trace (snd (f k i s w)).
Proof.
  cbn [array_each]. unfold bind.
  destruct (f k i s w) as [[[b s']|e| |] w']; try reflexivity. by destruct b.
Qed.

Lemma demo_labels_accepted : labels_accepted demo_host.
Proof. by split. Qed.

Lemma array_each_cons {S : Type} (f : cont -> nat -> S -> M (bool * S)) k l i s w :
  array_each f (k :: l) i s w =
  bind (f k i s)
       (fun r => if fst r then array_each f l (Datatypes.S i) (snd r) else ret (snd r)) w.
Proof. reflexivity. Qed.

(** C9 (amended). Two success continuations registered with [then] on a
    pending promise that has no other success continuation, then
    [resolve(val)]: nothing is called before the deferred job; when it has
    run, both were called once, in registration order, with [val],
    provided the first one neither returned a promise nor threw
    [undefined]. *)
Theorem two_continuations_in_order (H : Host) fuel w P pP f1 f2 (val : value) :
  labels_accepted H ->
  heap w !! P = Some pP -> state pP = st.pending -> frozen pP = false ->
  fulfill pP = [] -> P < next w -> queue w = [] ->
  match user_fn H f1 val with
  | Return r => instanceof_Promise r = false
  | Raise e => is_undefined e = false
  end ->
  let w1 := snd (methods_then H (S (S fuel)) P (VFun (HUser f1)) VUndefined w) in
  let w2 := snd (methods_then H (S (S fuel)) P (VFun (HUser f2)) VUndefined w1) in
  let w3 := snd (methods_resolve P val w2) in
  queue w3 = [JSettle P st.resolved val] /\
  trace w3 = trace w /\
  trace (turn H (S (S fuel)) w3) = trace w ++ [(f1, val); (f2, val)].
Proof.
  intros Hl Hp Hs Hfr Hfu Hlt Hq Hf1 w1 w2 w3.
  destruct pP as [er fu pa ou sta fr]. simpl in Hs, Hfr, Hfu. subst sta fr fu.
  set (d1 := next w). set (d2 := S d1).
  set (k1 := KWrap P d1 (VFun (HUser f1)) VUndefined true).
  set (k2 := KWrap P d2 (VFun (HUser f2)) VUndefined true).
  set (p2 := mkPromise er [k1; k2] pa ou st.pending false).
  assert (Hw3 : w3 =
    mkWorld (<[d2 := derived P]> (<[P := p2]> (<[d1 := derived P]> (heap w))))
            (S d2) [JSettle P st.resolved val] (trace w)).
  { unfold w3, w2, w1.
    rewrite (then_on_pending H _ w P _ (VFun (HUser f1)) VUndefined Hl Hp eq_refl Hlt).
    simpl.
    erewrite then_on_pending by (first [done | heap_solve | simpl; lia]). simpl.
    rewrite Hq. simpl. apply (f_equal (fun h => mkWorld h _ _ _)). heap_eq.
    unfold registered, p2, k1, k2, d2, d1. simpl. by rewrite !app_nil_r. }
  split; [by rewrite Hw3|]. split; [by rewrite Hw3|].
  rewrite Hw3. unfold turn, run_next. cbn [queue run_job heap next trace].
  match goal with |- trace (let (_, w') := ?c in w') = _ =>
    change (trace (snd c) = trace w ++ [(f1, val); (f2, val)]) end.
  erewrite promise_resolve_trace by (first [heap_solve | reflexivity]).
  unfold drain. simpl get_slot. rewrite array_each_cons. unfold bind at 1.
  unfold drain_step at 1. unfold bind at 1.
  cbn [heap next queue trace]. subst k1 k2.
  destruct (user_fn H f1 val) as [r|e] eqn:Hu.
  - rewrite (wrapper_returns H (S fuel) _ P d1 _ _ true f1
               (set_outcome val (set_state st.resolved p2)) val
               (lookup_insert_eq _ _ _) eq_refl r Hu Hf1).
    rewrite Hf1.
    destruct (instanceof_Error r); cbn [ret fst snd];
      rewrite array_each_single_trace, drain_step_trace;
      (erewrite wrapper_trace by (first [heap_solve | reflexivity]));
      simpl; by rewrite <- app_assoc.
  - rewrite (wrapper_raises H (S fuel) _ P d1 _ _ true f1
               (set_outcome val (set_state st.resolved p2)) val
               (lookup_insert_eq _ _ _) eq_refl e Hu Hf1).
    rewrite normalize_not_promise.
    destruct (instanceof_Error (normalize H e)); cbn [ret fst snd];
      rewrite array_each_single_trace, drain_step_trace;
      (erewrite wrapper_trace by (first [heap_solve | reflexivity]));
      simpl; by rewrite <- app_assoc.
Qed.

Lemma two_continuations_in_order_witness :
  trace (turn demo_host 2 (two_then_resolve demo_host 0 1 0 (VStr "x") one_promise)) =
    [(1, VStr "x"); (0, VStr "x")].
Proof.
  apply (two_continuations_in_order demo_host 0 one_promise 0 new_Promise 1 0 (VStr "x"));
    first [exact demo_labels_accepted | reflexivity | (simpl; lia)].
Defined.

(** C9, as stated, fails: the first continuation returns promise [0]; the
    loop stops there, the second continuation has not been called when the
    deferred settlement has run, and no further job is queued. *)
Lemma second_continuation_skipped_counterexample :
  user_fn demo_host 4 (VStr "x") = Return (VPromise 0) /\
  trace skipped_demo = [(4, VStr "x")] /\
  queue skipped_demo = [] /\
  ~ In (1, VStr "x") (trace skipped_demo).
Proof.
  vm_compute. repeat split. intros [Hc|[]]. discriminate.
Qed.

Section Settled.
Context (H : Host).

(** [then] on a promise that is already settled, with a function for the
    branch it settled to: the wrapper of that branch runs at once, the
    other argument is not looked at further. *)
Lemma then_on_settled n w P pP (su fa : value) (yay : bool) r j t :
  labels_accepted H ->
  heap w !! P = Some pP -> P < next w ->
  state pP = (if yay then st.resolved else st.broken) ->
  typeof_function (if yay then su else fa) = true ->
  (forall w0, heap w0 !! P = Some pP ->
     call_cont H n (KWrap P (next w) su fa yay) (outcome pP) w0 =
       (Ret r, mkWorld (heap w0) (next w0) (queue w0 ++ [j]) (trace w0 ++ [t]))) ->
  methods_then H n P su fa w =
    (Ret (next w),
     mkWorld (<[next w := derived P]> (heap w)) (S (next w))
             (queue w ++ [j]) (trace w ++ [t])).
Proof.
  intros [He1 He2] Hp Hlt Hs Hfun Hcall.
  assert (Hrun : forall s w0, heap w0 !! P = Some pP ->
    s = (if yay then st.resolved else st.broken) ->
    vouch_gen H (call_cont H n) P s (KWrap P (next w) su fa yay) w0 =
      (Ret P, mkWorld (heap w0) (next w0) (queue w0 ++ [j]) (trace w0 ++ [t]))).
  { intros s w0 Hw0 ->. unfold vouch_gen.
    destruct yay; rewrite ?He1, ?He2; unfold bind;
      rewrite (get_promise_eq _ _ _ Hw0), Hs; simpl;
      by rewrite (Hcall _ Hw0). }
  assert (Hskip : forall s k w0, heap w0 !! P = Some pP ->
    s = (if yay then st.broken else st.resolved) ->
    vouch_gen H (call_cont H n) P s k w0 = (Ret P, w0)).
  { intros s k w0 Hw0 ->. unfold vouch_gen.
    destruct yay; rewrite ?He1, ?He2; unfold bind;
      by rewrite (get_promise_eq _ _ _ Hw0), Hs. }
  unfold methods_then, then_gen. unfold bind at 1. cbn [factory].
  destruct yay.
  - rewrite Hfun. unfold bind at 1. unfold bind at 1.
    rewrite Hrun by (first [heap_solve | reflexivity]). simpl.
    unfold bind at 1.
    replace ((if typeof_function fa
              then vouch_gen H (call_cont H n) P st.broken
                     (KWrap P (next w) su fa false)
              else ret P)
               {| heap := <[next w:=new_Promise]> (heap w);
                  next := S (next w);
                  queue := queue w ++ [j];
                  trace := trace w ++ [t] |})
      with (Ret P, {| heap := <[next w:=new_Promise]> (heap w);
                      next := S (next w);
                      queue := queue w ++ [j];
                      trace := trace w ++ [t] |}).
    2:{ destruct (typeof_function fa); [|reflexivity].
        rewrite Hskip by (first [heap_solve | reflexivity]). reflexivity. }
    unfold bind. exec_step. apply world_eq; [heap_eq | reflexivity ..].
  - rewrite Hfun. unfold bind at 1. unfold bind at 1.
    replace ((if typeof_function su
              then vouch_gen H (call_cont H n) P st.resolved
                     (KWrap P (next w) su fa true)
              else ret P)
               {| heap := <[next w:=new_Promise]> (heap w);
                  next := S (next w);
                  queue := queue w;
                  trace := trace w |})
      with (Ret P, {| heap := <[next w:=new_Promise]> (heap w);
                      next := S (next w);
                      queue := queue w;
                      trace := trace w |}).
    2:{ destruct (typeof_function su); [|reflexivity].
        rewrite Hskip by (first [heap_solve | reflexivity]). reflexivity. }
    unfold bind at 1.
    rewrite Hrun by (first [heap_solve | reflexivity]). simpl.
    unfold bind. exec_step. apply world_eq; [heap_eq | reflexivity ..].
Qed.

End Settled.

(** The settlement toward fulfilled of a pending promise without parent
    whose only success continuation is a wrapper of [then] around a caller
    function that throws something other than [undefined]. *)
Lemma settle_with_raising_wrapper (H : Host) n w P pP d f (fa val e : value) :
  heap w !! P = Some pP -> state pP = st.pending -> frozen pP = false ->
  fulfill pP = [KWrap P d (VFun (HUser f)) fa true] ->
  parentNode pP = None ->
  user_fn H f val = Raise e -> is_undefined e = false ->
  promise_resolve H (S n) P st.resolved val w =
    (Ret (VPromise P),
     mkWorld (<[P := mkPromise [] [] None val st.resolved (freeze H)]> (heap w))
             (next w)
             (queue w ++ [JSettle d st.broken (normalize H e)])
             (trace w ++ [(f, val)])).
Proof.
  intros Hp Hs Hfr Hfu Hpar Hf He.
  destruct pP as [er fu pa ou sta fr]. simpl in Hs, Hfr, Hfu, Hpar. subst sta fr fu pa.
  unfold promise_resolve. unfold bind at 1. rewrite (get_promise_eq _ _ _ Hp).
  cbn [state negb String.eqb Ascii.eqb Bool.eqb st.pending st.resolved st.broken].
  unfold bind at 1. exec_step. unfold bind at 1. exec_step.
  rewrite insert_insert_eq. unfold bind at 1. exec_step.
  unfold drain. cbn [get_slot set_outcome set_state fulfill].
  unfold bind at 1. rewrite array_each_cons. unfold bind at 1.
  unfold drain_step at 1. unfold bind at 1.
  rewrite (wrapper_raises H n _ P d (VFun (HUser f)) fa true f
             (mkPromise er [KWrap P d (VFun (HUser f)) fa true] None val st.resolved false)
             val (lookup_insert_eq _ _ _) eq_refl e Hf He).
  rewrite normalize_not_promise.
  assert (Herr : instanceof_Error (normalize H e) = true).
  { destruct e; try done; unfold normalize; cbn; by destruct (ToString H _). }
  rewrite Herr.
  cbn [fst snd ret array_each negb v_pending v_error init_locals heap next queue trace
       outcome].
  unfold bind at 1. exec_step. unfold bind at 1. exec_step.
  rewrite !insert_insert_eq. unfold bind at 1. unfold bind at 1. exec_step.
  unfold bind at 1. unfold ret at 1.
  destruct (freeze H).
  - unfold bind, do_freeze, bind. exec_step. unfold put_promise, ret.
    cbn [heap next queue trace]. apply world_eq; [heap_eq | reflexivity ..].
  - unfold bind, ret. apply world_eq; [heap_eq | reflexivity ..].
Qed.

(** The same settlement when the caller function returns a value that is
    not a promise. *)
Lemma settle_with_returning_wrapper (H : Host) n w P pP d f (fa val x : value) :
  heap w !! P = Some pP -> state pP = st.pending -> frozen pP = false ->
  fulfill pP = [KWrap P d (VFun (HUser f)) fa true] ->
  parentNode pP = None ->
  user_fn H f val = Return x -> instanceof_Promise x = false ->
  promise_resolve H (S n) P st.resolved val w =
    (Ret (VPromise P),
     mkWorld (<[P := mkPromise [] [] None val st.resolved (freeze H)]> (heap w))
             (next w)
             (queue w ++ [JSettle d st.resolved (or_else x val)])
             (trace w ++ [(f, val)])).
Proof.
  intros Hp Hs Hfr Hfu Hpar Hf Hx.
  destruct pP as [er fu pa ou sta fr]. simpl in Hs, Hfr, Hfu, Hpar. subst sta fr fu pa.
  unfold promise_resolve. unfold bind at 1. rewrite (get_promise_eq _ _ _ Hp).
  cbn [state negb String.eqb Ascii.eqb Bool.eqb st.pending st.resolved st.broken].
  unfold bind at 1. exec_step. unfold bind at 1. exec_step.
  rewrite insert_insert_eq. unfold bind at 1. exec_step.
  unfold drain. cbn [get_slot set_outcome set_state fulfill].
  unfold bind at 1. rewrite array_each_cons. unfold bind at 1.
  unfold drain_step at 1. unfold bind at 1.
  rewrite (wrapper_returns H n _ P d (VFun (HUser f)) fa true f
             (mkPromise er [KWrap P d (VFun (HUser f)) fa true] None val st.resolved false)
             val (lookup_insert_eq _ _ _) eq_refl x Hf Hx).
  rewrite Hx.
  destruct (instanceof_Error x);
    cbn [fst snd ret array_each negb v_pending v_error init_locals heap next queue trace
         outcome];
    unfold bind at 1; exec_step; unfold bind at 1; exec_step;
    rewrite !insert_insert_eq; unfold bind at 1; unfold bind at 1; exec_step;
    unfold bind at 1; unfold ret at 1;
    (destruct (freeze H);
     [ unfold bind, do_freeze, bind; exec_step; unfold put_promise, ret;
       cbn [heap next queue trace]; apply world_eq; [heap_eq | reflexivity ..]
     | unfold bind, ret; apply world_eq; [heap_eq | reflexivity ..] ]).
Qed.

(** C5 (amended). A continuation [f] that returns, when called with [v], a
    value [x] that is not a promise: in the chain [P.then(f).then(g)], on a
    promise [P] already fulfilled with [v] or on a pending promise resolved
    with [v] later, [g] is called once the settlement job of the first
    derived promise has run, and it is called with [x || v]: with [x]
    itself when [x] is truthy, with the outcome of [P] when [x] is falsy. *)
Theorem chain_passes_result_or_outcome (H : Host) fuel f g (x v : value) :
  labels_accepted H ->
  user_fn H f v = Return x -> instanceof_Promise x = false ->
  (forall w P pP,
     heap w !! P = Some pP -> state pP = st.resolved -> outcome pP = v ->
     P < next w -> queue w = [] ->
     let d1 := next w in
     let w1 := snd (methods_then H (S (S fuel)) P (VFun (HUser f)) VUndefined w) in
     let w2 := snd (methods_then H (S (S fuel)) d1 (VFun (HUser g)) VUndefined w1) in
     fst (methods_then H (S (S fuel)) P (VFun (HUser f)) VUndefined w) = Ret d1 /\
     queue w2 = [JSettle d1 st.resolved (or_else x v)] /\
     trace (turn H (S (S fuel)) w2) = trace w ++ [(f, v); (g, or_else x v)]) /\
  (forall w P pP,
     heap w !! P = Some pP -> state pP = st.pending -> frozen pP = false ->
     fulfill pP = [] -> parentNode pP = None ->
     P < next w -> queue w = [] ->
     let d1 := next w in
     let w1 := snd (methods_then H (S (S fuel)) P (VFun (HUser f)) VUndefined w) in
     let w2 := snd (methods_then H (S (S fuel)) d1 (VFun (HUser g)) VUndefined w1) in
     let w3 := snd (methods_resolve P v w2) in
     trace w3 = trace w /\
     trace (turn H (S (S fuel)) (turn H (S (S fuel)) w3)) =
       trace w ++ [(f, v); (g, or_else x v)]) /\
  (truthy x = true -> or_else x v = x).
Proof.
  intros Hl Hf Hx.
  assert (Hjob : forall h d1 nx q (t : list (nat * value)) pd,
    h !! d1 = Some pd -> state pd = st.pending -> frozen pd = false ->
    fulfill pd = [KWrap d1 (S d1) (VFun (HUser g)) VUndefined true] ->
    trace (turn H (S (S fuel))
             (mkWorld h nx (JSettle d1 st.resolved (or_else x v) :: q) t)) =
      t ++ [(g, or_else x v)]).
  { intros h d1 nx q t pd Hd Hs Hfr Hfu. unfold turn, run_next.
    cbn [queue run_job heap next trace].
    match goal with |- trace (let (_, w') := ?c in w') = _ =>
      change (trace (snd c) = t ++ [(g, or_else x v)]) end.
    erewrite promise_resolve_trace by (first [exact Hd | exact Hs | exact Hfr]).
    unfold drain. cbn [String.eqb Ascii.eqb Bool.eqb st.resolved st.broken get_slot].
    rewrite Hfu, array_each_single_trace, drain_step_trace.
    erewrite wrapper_trace by (first [heap_solve | reflexivity]). reflexivity. }
  split; [|split].
  - intros w P pP Hp Hs Ho Hlt Hq d1 w1 w2. subst v.
    assert (Hw1 : methods_then H (S (S fuel)) P (VFun (HUser f)) VUndefined w =
      (Ret d1, mkWorld (<[d1 := derived P]> (heap w)) (S d1)
                 [JSettle d1 st.resolved (or_else x (outcome pP))]
                 (trace w ++ [(f, outcome pP)]))).
    { rewrite (then_on_fulfilled H _ w P pP f VUndefined x) by done. by rewrite Hq. }
    assert (Hw2 : w2 =
      mkWorld (<[S d1 := derived d1]>
                 (<[d1 := registered d1 (S d1) (VFun (HUser g)) VUndefined (derived P)]>
                    (<[d1 := derived P]> (heap w))))
              (S (S d1)) [JSettle d1 st.resolved (or_else x (outcome pP))]
              (trace w ++ [(f, outcome pP)])).
    { unfold w2, w1. rewrite Hw1. simpl.
      erewrite then_on_pending by (first [done | heap_solve | simpl; lia]).
      reflexivity. }
    split; [by rewrite Hw1|]. split; [by rewrite Hw2|].
    rewrite Hw2. erewrite Hjob.
    + by rewrite <- app_assoc.
    + rewrite lookup_insert_ne by lia. apply lookup_insert_eq.
    + reflexivity.
    + reflexivity.
    + reflexivity.
  - intros w P pP Hp Hs Hfr Hfu Hpar Hlt Hq d1 w1 w2 w3.
    destruct pP as [er fu pa ou sta fr]. simpl in Hs, Hfr, Hfu, Hpar. subst sta fr fu pa.
    set (pP := mkPromise er [] None ou st.pending false) in *.
    set (armed := mkPromise er [KWrap P d1 (VFun (HUser f)) VUndefined true] None ou
                            st.pending false).
    assert (Hreg : registered P d1 (VFun (HUser f)) VUndefined pP = armed).
    { unfold registered, armed, pP. simpl. by rewrite app_nil_r. }
    assert (Hw1 : w1 = mkWorld (<[d1 := derived P]> (<[P := armed]> (heap w)))
                               (S d1) [] (trace w)).
    { unfold w1. rewrite (then_on_pending H _ w P pP _ _ Hl Hp eq_refl Hlt).
      fold d1. rewrite Hreg, Hq. reflexivity. }
    assert (Hw3 : w3 =
      mkWorld (<[S d1 := derived d1]>
                 (<[d1 := registered d1 (S d1) (VFun (HUser g)) VUndefined (derived P)]>
                    (<[d1 := derived P]> (<[P := armed]> (heap w)))))
              (S (S d1)) [JSettle P st.resolved v] (trace w)).
    { unfold w3, w2. rewrite Hw1.
      erewrite then_on_pending by (first [done | heap_solve | simpl; lia]).
      reflexivity. }
    split; [by rewrite Hw3|]. rewrite Hw3.
    unfold turn at 2. unfold run_next. cbn [queue run_job heap next trace].
    rewrite (settle_with_returning_wrapper H (S fuel) _ P armed d1 f VUndefined v x).
    + cbn [queue heap next trace app]. erewrite Hjob.
      * by rewrite <- app_assoc.
      * rewrite lookup_insert_ne by (unfold d1; lia).
        rewrite lookup_insert_ne by lia. apply lookup_insert_eq.
      * reflexivity.
      * reflexivity.
      * reflexivity.
    + cbn [heap]. rewrite lookup_insert_ne by lia.
      rewrite lookup_insert_ne by (unfold d1; lia).
      rewrite lookup_insert_ne by (unfold d1; lia). apply lookup_insert_eq.
    + reflexivity.
    + reflexivity.
    + reflexivity.
    + reflexivity.
    + exact Hf.
    + exact Hx.
  - intros Ht. unfold or_else. by rewrite Ht.
Qed.

Lemma chain_passes_result_or_outcome_witness :
  trace (turn demo_host 2 chain_demo) = [(0, VNum 5); (1, VNum 5)].
Proof.
  pose proof (chain_passes_result_or_outcome demo_host 0 0 1 (VNum 0) (VNum 5)
                demo_labels_accepted eq_refl eq_refl) as (Hsync & _ & _).
  apply (Hsync settled_world 0 (mkPromise [] [] None (VNum 5) st.resolved true));
    first [reflexivity | (simpl; lia)].
Defined.

(** C5, as stated, fails: [f] returns the plain value [0], and [g] is
    called with the outcome [5] of the first promise instead. *)
Lemma chain_falsy_counterexample :
  user_fn demo_host 0 (VNum 5) = Return (VNum 0) /\
  instanceof_Promise (VNum 0) = false /\
  trace (turn demo_host 2 chain_demo) = [(0, VNum 5); (1, VNum 5)] /\
  ~ In (1, VNum 0) (trace (turn demo_host 2 chain_demo)).
Proof.
  vm_compute. repeat split. intros [Hc|[Hc|[]]]; discriminate.
Qed.

(** C7. A continuation [f] that throws a plain object [o] when called with
    [v]: nothing escapes its wrapper, which returns an Error whose message
    is the JSON text of [o] and schedules the rejection of the derived
    promise with that Error.  So [p.then(f)], on a promise already
    fulfilled with [v] or on a pending promise resolved with [v] later,
    returns the derived promise normally, every deferred job returns
    normally, and once the jobs have run the derived promise is rejected
    with that Error, not with the raw object. *)
Theorem thrown_object_rejects_with_json (H : Host) n m f (fa : value) o (v : value) :
  labels_accepted H ->
  user_fn H f v = Raise (VObj o) ->
  let err := VError (json_encode H (VObj o)) in
  (forall w P pP d arg (su' fa' : value) (yay : bool),
     heap w !! P = Some pP -> outcome pP = v ->
     (if yay then su' else fa') = VFun (HUser f) ->
     call_cont H (S n) (KWrap P d su' fa' yay) arg w =
       (Ret err, mkWorld (heap w) (next w)
                   (queue w ++ [JSettle d st.broken err])
                   (trace w ++ [(f, v)]))) /\
  (forall w P pP,
     heap w !! P = Some pP -> state pP = st.resolved -> outcome pP = v ->
     P < next w -> queue w = [] ->
     let d := next w in
     let w1 := mkWorld (<[d := derived P]> (heap w)) (S d)
                       [JSettle d st.broken err] (trace w ++ [(f, v)]) in
     methods_then H (S n) P (VFun (HUser f)) fa w = (Ret d, w1) /\
     run_next H (S m) w1 =
       Some (Ret (VPromise d),
             mkWorld (<[d := mkPromise [] [] (Some P) err st.broken (freeze H)]> (heap w))
                     (S d) [] (trace w ++ [(f, v)]))) /\
  (forall w P pP,
     heap w !! P = Some pP -> state pP = st.pending -> frozen pP = false ->
     fulfill pP = [] -> parentNode pP = None ->
     P < next w -> queue w = [] ->
     let d := next w in
     let w1 := snd (methods_then H (S n) P (VFun (HUser f)) fa w) in
     let w2 := snd (methods_resolve P v w1) in
     fst (methods_then H (S n) P (VFun (HUser f)) fa w) = Ret d /\
     exists w3 w4,
       run_next H (S m) w2 = Some (Ret (VPromise P), w3) /\
       run_next H (S m) w3 = Some (Ret (VPromise d), w4) /\
       queue w4 = [] /\
       heap w4 !! d = Some (mkPromise [] [] (Some P) err st.broken (freeze H))).
Proof.
  intros Hl Hf err.
  assert (Hwrap : forall w P pP d arg (su' fa' : value) (yay : bool),
     heap w !! P = Some pP -> outcome pP = v ->
     (if yay then su' else fa') = VFun (HUser f) ->
     call_cont H (S n) (KWrap P d su' fa' yay) arg w =
       (Ret err, mkWorld (heap w) (next w)
                   (queue w ++ [JSettle d st.broken err])
                   (trace w ++ [(f, v)]))).
  { intros w P pP d arg su' fa' yay Hp Ho Hh. subst v.
    by rewrite (wrapper_raises H n w P d su' fa' yay f pP arg Hp Hh (VObj o) Hf). }
  split; [exact Hwrap|]. split.
  - intros w P pP Hp Hs Ho Hlt Hq d w1. split.
    + rewrite (then_on_settled H (S n) w P pP (VFun (HUser f)) fa true err
                 (JSettle d st.broken err) (f, v)); try done.
      * unfold w1. by rewrite Hq.
      * intros w0 Hw0. by apply (Hwrap w0 P pP).
    + unfold run_next, w1. cbn [queue run_job heap next trace].
      rewrite (resolve_no_continuation H (S m) _ d (derived P) st.broken err).
      * f_equal. apply world_eq; [heap_eq | reflexivity ..].
      * heap_solve.
      * reflexivity.
      * reflexivity.
      * reflexivity.
      * simpl. exists pP. split; [heap_solve|]. split; [|unfold d; lia].
        rewrite Hs. discriminate.
  - intros w P pP Hp Hs Hfr Hfu Hpar Hlt Hq d w1 w2.
    destruct pP as [er fu pa ou sta fr]. simpl in Hs, Hfr, Hfu, Hpar. subst sta fr fu pa.
    set (pP := mkPromise er [] None ou st.pending false) in *.
    assert (Hthen := then_on_pending H (S n) w P pP (VFun (HUser f)) fa Hl Hp eq_refl Hlt).
    fold d in Hthen. split; [by rewrite Hthen|].
    set (er' := er ++ if typeof_function fa
                      then [KWrap P d (VFun (HUser f)) fa false] else []).
    set (armed := mkPromise er' [KWrap P d (VFun (HUser f)) fa true] None ou
                            st.pending false).
    assert (Hreg : registered P d (VFun (HUser f)) fa pP = armed) by reflexivity.
    rewrite Hreg in Hthen.
    eexists _, _. split; [|split].
    + unfold w2, w1. rewrite Hthen. unfold run_next.
      cbn [snd methods_resolve bind defer ret queue run_job heap next trace].
      rewrite Hq. cbn [app run_job].
      rewrite (settle_with_raising_wrapper H m _ P armed d f fa v (VObj o)).
      * reflexivity.
      * cbn [heap]. rewrite lookup_insert_ne by (unfold d; lia). apply lookup_insert_eq.
      * reflexivity.
      * reflexivity.
      * reflexivity.
      * reflexivity.
      * exact Hf.
      * reflexivity.
    + unfold run_next. cbn [queue heap next trace app normalize].
      cbn [run_job].
      rewrite (resolve_no_continuation H (S m) _ d (derived P) st.broken).
      * reflexivity.
      * cbn [heap]. rewrite lookup_insert_ne by (unfold d; lia). apply lookup_insert_eq.
      * reflexivity.
      * reflexivity.
      * reflexivity.
      * cbn [parentNode derived heap]. eexists. split; [apply lookup_insert_eq|].
        split; [discriminate | unfold d; lia].
    + cbn [queue heap]. split; [reflexivity|]. by rewrite lookup_insert_eq.
Qed.

(** [P.then(f2)] on the promise of [settled_world]; [f2] throws
    [{code:1}]. *)
Lemma thrown_object_rejects_with_json_witness :
  exists w1,
    methods_then demo_host 2 0 (VFun (HUser 2)) VUndefined settled_world = (Ret 1, w1) /\
    exists w2,
      run_next demo_host 2 w1 = Some (Ret (VPromise 1), w2) /\
      heap w2 !! 1 =
        Some (mkPromise [] [] (Some 0)
                (VError ("{" ++ dquote ++ "code" ++ dquote ++ ":1}")%string)
                st.broken true).
Proof.
  pose proof (thrown_object_rejects_with_json demo_host 1 1 2 VUndefined
                [("code", VNum 1)] (VNum 5) demo_labels_accepted eq_refl) as Hc.
  cbv zeta in Hc. destruct Hc as (_ & Hsync & _).
  destruct (Hsync settled_world 0 (mkPromise [] [] None (VNum 5) st.resolved true)
              eq_refl eq_refl eq_refl (Nat.lt_0_succ 0) eq_refl) as [Hthen Hjob].
  eexists. split; [exact Hthen|]. eexists. split; [exact Hjob|]. reflexivity.
Defined.

(** C8 (amended). A rejection-branch continuation that completes normally
    with [undefined] raises nothing: its wrapper returns [undefined] and
    schedules the derived promise to be resolved with the outcome of the
    rejected promise; so does [then] on a promise already rejected.  The
    invalid-arguments error is what the wrapper throws when the
    continuation throws [undefined]. *)
Theorem rejection_handler_returning_undefined (H : Host) n w P pP (su : value) f :
  labels_accepted H ->
  heap w !! P = Some pP -> state pP = st.broken -> P < next w ->
  user_fn H f (outcome pP) = Return VUndefined ->
  let d := next w in
  (forall w0 d0 arg,
     heap w0 !! P = Some pP ->
     call_cont H (S n) (KWrap P d0 su (VFun (HUser f)) false) arg w0 =
       (Ret VUndefined,
        mkWorld (heap w0) (next w0)
                (queue w0 ++ [JSettle d0 st.resolved (outcome pP)])
                (trace w0 ++ [(f, outcome pP)]))) /\
  methods_then H (S n) P su (VFun (HUser f)) w =
    (Ret d,
     mkWorld (<[d := derived P]> (heap w)) (S d)
             (queue w ++ [JSettle d st.resolved (outcome pP)])
             (trace w ++ [(f, outcome pP)])) /\
  (forall g w0 d0 arg,
     heap w0 !! P = Some pP ->
     user_fn H g (outcome pP) = Raise VUndefined ->
     call_cont H (S n) (KWrap P d0 su (VFun (HUser g)) false) arg w0 =
       (Throw (VError (label_invalidArguments H)),
        mkWorld (heap w0) (next w0) (queue w0) (trace w0 ++ [(g, outcome pP)]))).
Proof.
  intros Hl Hp Hs Hlt Hf d.
  assert (Hwrap : forall w0 d0 arg,
     heap w0 !! P = Some pP ->
     call_cont H (S n) (KWrap P d0 su (VFun (HUser f)) false) arg w0 =
       (Ret VUndefined,
        mkWorld (heap w0) (next w0)
                (queue w0 ++ [JSettle d0 st.resolved (outcome pP)])
                (trace w0 ++ [(f, outcome pP)]))).
  { intros w0 d0 arg Hw0.
    by rewrite (wrapper_returns H n w0 P d0 su (VFun (HUser f)) false f pP arg
                  Hw0 eq_refl VUndefined Hf eq_refl). }
  split; [exact Hwrap|]. split.
  - apply (then_on_settled H (S n) w P pP su (VFun (HUser f)) false VUndefined);
      try done.
    intros w0 Hw0. by apply Hwrap.
  - intros g w0 d0 arg Hw0 Hg.
    by apply (wrapper_raises_undefined H n w0 P d0 su (VFun (HUser g)) false g pP arg).
Qed.

Lemma rejection_handler_returning_undefined_witness :
  methods_then demo_host 2 0 VUndefined (VFun (HUser 3)) rejected_world =
    (Ret 1,
     mkWorld (<[1 := derived 0]> (heap rejected_world)) 2
             [JSettle 1 st.resolved (VStr "bad")] [(3, VStr "bad")]).
Proof.
  apply (rejection_handler_returning_undefined demo_host 1 rejected_world 0
           (mkPromise [] [] None (VStr "bad") st.broken true) VUndefined 3);
    first [exact demo_labels_accepted | reflexivity | (simpl; lia)].
Defined.

(** C8, as stated, fails: the rejection-branch continuation returns
    [undefined], no error is raised (neither by [then] on a promise already
    rejected nor by the settlement job), and the derived promise is
    scheduled to be fulfilled. *)
Lemma rejection_handler_counterexample :
  user_fn demo_host 3 (VStr "bad") = Return VUndefined /\
  fst (methods_then demo_host 2 0 VUndefined (VFun (HUser 3)) rejected_world) = Ret 1 /\
  queue (snd (methods_then demo_host 2 0 VUndefined (VFun (HUser 3)) rejected_world)) =
    [JSettle 1 st.resolved (VStr "bad")] /\
  (fst <$> run_next demo_host 2 reject_demo) = Some (Ret (VPromise 0)) /\
  queue (turn demo_host 2 reject_demo) = [JSettle 1 st.resolved (VStr "bad")] /\
  trace (turn demo_host 2 reject_demo) = [(3, VStr "bad")].
Proof. vm_compute. repeat split. Qed.




Section Adoption.
Context (H : Host).

(** The wrapper of [P] whose caller function returns the pending promise
    [q]: [P] is re-armed, [q] gets [P] as [parentNode] and the forwarding
    wrappers, and [then] on [q] creates one more promise. *)
Lemma wrapper_adopts n w P pP d q pq f (fa arg : value) :
  labels_accepted H ->
  heap w !! P = Some pP -> frozen pP = false ->
  heap w !! q = Some pq -> state pq = st.pending -> frozen pq = false ->
  P ≠ q -> P < next w -> q < next w ->
  user_fn H f (outcome pP) = Return (VPromise q) ->
  call_cont H (S n) (KWrap P d (VFun (HUser f)) fa true) arg w =
    (Ret (VPromise q),
     mkWorld
       (<[next w := derived q]>
          (<[q := registered q (next w) (forward_resolve P) (forward_reject P)
                    (set_parentNode (Some P) pq)]>
             (<[P := set_outcome VNull (set_state st.pending pP)]> (heap w))))
       (S (next w)) (queue w) (trace w ++ [(f, outcome pP)])).
Proof.
  intros Hl Hp Hfr Hq Hsq Hfq Hne HltP Hltq Hf.
  rewrite call_cont_KWrap. unfold fn_gen, bind at 1.
  rewrite (get_promise_eq _ _ _ Hp). cbn [call_value call_handler].
  unfold bind at 1. cbn [log]. rewrite Hf. cbn [ret fn_finally].
  unfold bind at 1. exec_step. unfold bind at 1. exec_step.
  unfold bind at 1. erewrite assign_unfrozen
    by (first [ simpl; rewrite lookup_insert_ne by done;
                rewrite lookup_insert_ne by done; exact Hq
              | exact Hfq ]).
  cbn [heap next queue trace]. unfold bind at 1.
  erewrite then_on_pending; [| exact Hl | simpl; apply lookup_insert_eq | exact Hsq
                              | simpl; lia ].
  cbn [heap next queue trace ret]. apply world_eq; [heap_eq | reflexivity ..].
Qed.


End Adoption.


(** ** Two levels of fuel never run out *)

Lemma fueled_ret {A} (a : A) : fueled (ret a).
Proof. intros w. discriminate. Qed.

Lemma fueled_throw {A} e : fueled (@throw A e).
Proof. intros w. discriminate. Qed.

Lemma fueled_bind {A B} (m : M A) (f : A -> M B) :
  fueled m -> (forall a, fueled (f a)) -> fueled (bind m f).
Proof.
  intros Hm Hf w. unfold bind. specialize (Hm w).
  destruct (m w) as [[a|e| |] w']; simpl in *; try done. apply Hf.
Qed.

Lemma fueled_get r : fueled (get_promise r).
Proof. intros w. unfold get_promise. by destruct (heap w !! r). Qed.

Section Fueled.
Context (H : Host).

Lemma fueled_assign r upd : fueled (assign H r upd).
Proof.
  apply fueled_bind; [apply fueled_get|]. intros p.
  destruct (frozen p); [|by intros w]. by destruct (frozen_write H).
Qed.

Lemma fueled_slot r s f : fueled (modify_slot r s f).
Proof. apply fueled_bind; [apply fueled_get|]. by intros p w. Qed.

Lemma fueled_methods_resolve self arg : fueled (methods_resolve self arg).
Proof. by intros w. Qed.

Lemma fueled_methods_reject self arg : fueled (methods_reject self arg).
Proof. by intros w. Qed.

Lemma fueled_call_value f arg : fueled (call_value H f arg).
Proof.
  destruct f; try apply fueled_throw. destruct h as [id|s|s]; intros w; cbn; try done.
  by destruct (user_fn H id arg).
Qed.

Lemma fueled_vouch call self s k :
  (forall arg, fueled (call k arg)) -> fueled (vouch_gen H call self s k).
Proof.
  intros Hc. unfold vouch_gen.
  destruct (string_isEmpty H s); [apply fueled_throw|].
  apply fueled_bind; [apply fueled_get|]. intros p.
  destruct (String.eqb (state p) st.pending).
  { apply fueled_bind; [apply fueled_slot | intros; apply fueled_ret]. }
  destruct (String.eqb (state p) s); [|apply fueled_ret].
  apply fueled_bind; [apply Hc | intros; apply fueled_ret].
Qed.

Lemma fueled_then call self su fa :
  (forall d yay arg, fueled (call (KWrap self d su fa yay) arg)) ->
  fueled (then_gen H call self su fa).
Proof.
  intros Hc. unfold then_gen. apply fueled_bind; [by intros w|]. intros d.
  apply fueled_bind.
  { destruct (typeof_function su); [by apply fueled_vouch | apply fueled_ret]. }
  intros _. apply fueled_bind.
  { destruct (typeof_function fa); [by apply fueled_vouch | apply fueled_ret]. }
  intros _. apply fueled_bind; [apply fueled_assign | intros; apply fueled_ret].
Qed.

Lemma fueled_fn_finally t self d result err :
  (forall q, fueled (t q (VFun (HResolve self)) (VFun (HReject self)))) ->
  fueled (fn_finally H t self d result err).
Proof.
  intros Ht.
  destruct (instanceof_Promise result) eqn:Hr.
  - destruct result; try discriminate. unfold fn_finally.
    repeat (apply fueled_bind; [first [apply fueled_assign | apply Ht]|intros _]).
    apply fueled_ret.
  - intros w. rewrite fn_finally_plain by done.
    destruct (err && is_undefined result); [done|]. by destruct (heap w !! self).
Qed.

Lemma fueled_fn t self d su fa yay :
  (forall q, fueled (t q (VFun (HResolve self)) (VFun (HReject self)))) ->
  fueled (fn_gen H t self d su fa yay).
Proof.
  intros Ht w. unfold fn_gen, bind, get_promise.
  destruct (heap w !! self) as [p|]; [|done].
  pose proof (fueled_call_value (if yay then su else fa) (outcome p) w) as Hc.
  destruct (call_value H (if yay then su else fa) (outcome p) w) as [[v|e| |] w1];
    try done; by apply fueled_fn_finally.
Qed.

Lemma fueled_forward n q d P1 P2 yay arg :
  fueled (call_cont H (S n) (KWrap q d (VFun (HResolve P1)) (VFun (HReject P2)) yay) arg).
Proof.
  intros w. rewrite call_cont_KWrap.
  rewrite (fn_gen_forward H _ (fun _ _ _ => ret 0)).
  apply fueled_fn. intros. apply fueled_ret.
Qed.

Lemma fueled_call_cont n k arg : fueled (call_cont H (S (S n)) k arg).
Proof.
  intros w. rewrite call_cont_fuel.
  destruct k as [self d su fa yay|h]; [|apply (fueled_call_value (VFun h))].
  rewrite call_cont_KWrap. apply fueled_fn. intros q.
  apply fueled_then. intros d' yay' arg'. apply fueled_forward.
Qed.

Lemma fueled_array_each n self val l :
  forall i v, fueled (array_each (drain_step H (call_cont H (S (S n))) self val) l i v).
Proof.
  induction l as [|k l IH]; intros i v; [apply fueled_ret|].
  cbn [array_each]. apply fueled_bind.
  - unfold drain_step. apply fueled_bind; [apply fueled_call_cont|].
    intros result. destruct (instanceof_Promise result).
    + repeat (apply fueled_bind; [apply fueled_assign|intros _]). apply fueled_ret.
    + destruct (instanceof_Error result); apply fueled_ret.
  - intros [b v']. simpl. destruct b; [apply IH | apply fueled_ret].
Qed.

(** With two levels of fuel a settlement always ends by returning or
    throwing (or stops on a dangling reference), never for lack of fuel. *)
Lemma promise_resolve_fueled n self state_ val :
  fueled (promise_resolve H (S (S n)) self state_ val).
Proof.
  unfold promise_resolve.
  apply fueled_bind; [apply fueled_get|]. intros p.
  destruct (negb (String.eqb (state p) st.pending)).
  { apply fueled_bind; [|intros; apply fueled_throw].
    destruct (outcome p); try apply fueled_ret. unfold replace_outcome.
    destruct (String.index _ _ _); [|apply fueled_ret].
    apply fueled_bind; [apply (fueled_call_value (VFun h)) | intros; apply fueled_ret]. }
  apply fueled_bind; [apply fueled_assign|]. intros _.
  apply fueled_bind; [apply fueled_assign|]. intros _.
  apply fueled_bind; [apply fueled_get|]. intros p1.
  apply fueled_bind; [apply fueled_array_each|]. intros v.
  destruct (negb (v_pending v)).
  - apply fueled_bind; [apply fueled_assign|]. intros _.
    apply fueled_bind; [apply fueled_assign|]. intros _.
    apply fueled_bind; [apply fueled_get|]. intros p2.
    apply fueled_bind.
    { destruct (parentNode p2) as [parent|]; [|apply fueled_ret].
      apply fueled_bind; [apply fueled_get|]. intros pp.
      destruct (String.eqb (state pp) st.pending); [|apply fueled_ret].
      apply fueled_bind; [|intros; apply fueled_ret].
      destruct (String.eqb _ st.resolved); by intros w. }
    intros _. apply fueled_bind; [|intros; apply fueled_ret].
    destruct (freeze H); [|apply fueled_ret].
    apply fueled_bind; [apply fueled_get | by intros p' w].
  - apply fueled_bind; [|intros; apply fueled_ret].
    induction (rev (v_purge v)) as [|j js IH]; [apply fueled_ret|].
    cbn [purge_loop]. apply fueled_bind; [apply fueled_slot | intros _; exact IH].
Qed.

End Fueled.

(** ** A settlement reaches only the promises its continuations name *)

Section Unreached.
Context (H : Host) (d P : ref).
Hypothesis HPd : P ≠ d.

Lemma unreached_put r p' w :
  unreached d P w ->
  (r = d -> state p' = st.pending /\ outcome p' = VNull) ->
  (r = P -> parentNode p' ≠ Some d) ->
  unreached d P (mkWorld (<[r := p']> (heap w)) (next w) (queue w) (trace w)).
Proof.
  intros (Hst & Hq & Hlt & Hpar) Hd HP. split; [by apply stays_put|].
  split; [exact Hq|]. split; [exact Hlt|]. intros p. simpl.
  destruct (decide (r = P)) as [->|Hne].
  - rewrite lookup_insert_eq. intros [= <-]. by apply HP.
  - rewrite lookup_insert_ne by done. apply Hpar.
Qed.

Lemma unreached_assign r upd :
  (r = d -> forall p, state p = st.pending -> outcome p = VNull ->
             state (upd p) = st.pending /\ outcome (upd p) = VNull) ->
  (r = P -> forall p, parentNode p ≠ Some d -> parentNode (upd p) ≠ Some d) ->
  preserves (unreached d P) (assign H r upd).
Proof.
  intros Hd HP w Hw. unfold assign, bind, get_promise.
  destruct (heap w !! r) as [p|] eqn:Hp; [|exact Hw].
  destruct (frozen p); [by destruct (frozen_write H)|]. simpl.
  apply unreached_put; [exact Hw | |].
  - intros ->. destruct Hw as ((_ & pd & Hpd & Hs & Ho) & _).
    rewrite Hp in Hpd. injection Hpd as ->. by apply Hd.
  - intros ->. apply HP; [reflexivity|]. destruct Hw as (_ & _ & _ & Hpar). by apply Hpar.
Qed.

Lemma unreached_set_state r : preserves (unreached d P) (assign H r (set_state st.pending)).
Proof. apply unreached_assign; intros; done. Qed.

Lemma unreached_set_outcome r : preserves (unreached d P) (assign H r (set_outcome VNull)).
Proof. apply unreached_assign; intros; done. Qed.

Lemma unreached_set_parent r x :
  x ≠ d -> preserves (unreached d P) (assign H r (set_parentNode (Some x))).
Proof. intros Hx. apply unreached_assign; [intros; done|]. intros _ p _. cbn. congruence. Qed.

Lemma unreached_own upd :
  (forall p, parentNode (upd p) = parentNode p) ->
  preserves (unreached d P) (assign H P upd).
Proof.
  intros Hu. apply unreached_assign; [intros; done|]. intros _ p Hp. by rewrite Hu.
Qed.

Lemma unreached_slot r s f : preserves (unreached d P) (modify_slot r s f).
Proof.
  intros w Hw. unfold modify_slot, bind, get_promise.
  destruct (heap w !! r) as [p|] eqn:Hp; [|exact Hw]. simpl.
  apply unreached_put; [exact Hw | |].
  - intros ->. destruct Hw as ((_ & pd & Hpd & Hs & Ho) & _).
    rewrite Hp in Hpd. injection Hpd as ->. by destruct s.
  - intros ->. destruct Hw as (_ & _ & _ & Hpar). specialize (Hpar p Hp). by destruct s.
Qed.

Lemma unreached_freeze r : preserves (unreached d P) (do_freeze r).
Proof.
  intros w Hw. unfold do_freeze, bind, get_promise.
  destruct (heap w !! r) as [p|] eqn:Hp; [|exact Hw]. simpl.
  apply unreached_put; [exact Hw | |].
  - intros ->. destruct Hw as ((_ & pd & Hpd & Hs & Ho) & _).
    rewrite Hp in Hpd. by injection Hpd as ->.
  - intros ->. destruct Hw as (_ & _ & _ & Hpar). exact (Hpar p Hp).
Qed.

Lemma unreached_log id a : preserves (unreached d P) (log id a).
Proof. intros w Hw. exact Hw. Qed.

Lemma unreached_defer r s v :
  r ≠ d -> preserves (unreached d P) (defer (JSettle r s v)).
Proof.
  intros Hr w (Hst & Hq & Hrest). split; [exact Hst|]. split; [|exact Hrest].
  simpl. apply Forall_app. split; [exact Hq|]. by constructor.
Qed.

Lemma unreached_settle_call (yay : bool) r v :
  r ≠ d -> preserves (unreached d P) ((if yay then methods_resolve else methods_reject) r v).
Proof.
  intros Hr.
  destruct yay; (apply preserves_bind; [by apply unreached_defer | intros; apply preserves_ret]).
Qed.

Lemma unreached_call_handler h arg :
  handler_avoids d h -> preserves (unreached d P) (call_handler H h arg).
Proof.
  intros Hh. destruct h as [id|s|s]; simpl.
  - apply preserves_bind; [apply unreached_log|]. intros _.
    destruct (user_fn H id arg); [apply preserves_ret | apply preserves_throw].
  - apply preserves_bind; [by apply (unreached_settle_call true)|].
    intros; apply preserves_ret.
  - apply preserves_bind; [by apply (unreached_settle_call false)|].
    intros; apply preserves_ret.
Qed.

Lemma unreached_replace_outcome label v :
  value_avoids d v -> preserves (unreached d P) (replace_outcome H label v).
Proof.
  intros Hv. destruct v; try apply preserves_ret. unfold replace_outcome.
  destruct (String.index _ _ _); [|apply preserves_ret].
  apply preserves_bind; [by apply unreached_call_handler | intros; apply preserves_ret].
Qed.

(** A promise found in a state other than pending is not [d]. *)
Lemma unreached_settled w r p :
  unreached d P w -> heap w !! r = Some p -> String.eqb (state p) st.pending = false ->
  r ≠ d.
Proof.
  intros ((_ & pd & Hpd & Hs & _) & _) Hp Hne ->. rewrite Hp in Hpd.
  injection Hpd as ->. rewrite Hs in Hne. discriminate.
Qed.

Lemma unreached_vouch call self s k :
  (forall arg, self ≠ d -> preserves (unreached d P) (call k arg)) ->
  preserves (unreached d P) (vouch_gen H call self s k).
Proof.
  intros Hc w Hw. unfold vouch_gen.
  destruct (string_isEmpty H s); [exact Hw|].
  unfold bind at 1, get_promise.
  destruct (heap w !! self) as [p|] eqn:Hp; [|exact Hw].
  destruct (String.eqb (state p) st.pending) eqn:Hs.
  { apply preserves_bind; [apply unreached_slot | intros; apply preserves_ret | exact Hw]. }
  destruct (String.eqb (state p) s); [|exact Hw].
  apply preserves_bind; [|intros; apply preserves_ret | exact Hw].
  apply Hc. by apply (unreached_settled w self p).
Qed.

Lemma unreached_then call self su fa :
  (forall dd yay arg, self ≠ d -> dd ≠ d ->
     preserves (unreached d P) (call (KWrap self dd su fa yay) arg)) ->
  preserves (unreached d P) (then_gen H call self su fa).
Proof.
  intros Hc w Hw. unfold then_gen. unfold bind at 1. cbn [factory].
  assert (Hd : next w ≠ d) by (destruct Hw as ((? & _) & _); lia).
  assert (HP : next w ≠ P) by (destruct Hw as (_ & _ & ? & _); lia).
  assert (Hw0 : unreached d P
            (mkWorld (<[next w := new_Promise]> (heap w)) (S (next w)) (queue w) (trace w))).
  { destruct Hw as ((Hlt & pd & Hpd & Hs) & Hq & HltP & Hpar).
    split; [split; [simpl; lia|]|].
    - exists pd. simpl. by rewrite lookup_insert_ne.
    - split; [exact Hq|]. split; [simpl; lia|]. intros p. simpl.
      rewrite lookup_insert_ne by done. apply Hpar. }
  revert Hw0. generalize (mkWorld (<[next w := new_Promise]> (heap w)) (S (next w))
                                  (queue w) (trace w)).
  intros w0 Hw0.
  apply preserves_bind; [| |exact Hw0].
  { destruct (typeof_function su); [|apply preserves_ret].
    apply unreached_vouch. intros arg Hs. by apply Hc. }
  intros _. apply preserves_bind.
  { destruct (typeof_function fa); [|apply preserves_ret].
    apply unreached_vouch. intros arg Hs. by apply Hc. }
  intros _. apply preserves_bind; [|intros; apply preserves_ret].
  apply unreached_assign; [intros; done | intros; done].
Qed.

Lemma unreached_fn_finally t self dd result err :
  self ≠ d -> dd ≠ d ->
  (forall q, preserves (unreached d P) (t q (VFun (HResolve self)) (VFun (HReject self)))) ->
  preserves (unreached d P) (fn_finally H t self dd result err).
Proof.
  intros Hs Hdd Ht.
  assert (Hplain : preserves (unreached d P)
    (if err && is_undefined result then throw (VError (label_invalidArguments H))
     else bind (get_promise self) (fun p =>
       bind ((if negb err then methods_resolve else methods_reject) dd
               (or_else result (outcome p))) (fun _ => ret result)))).
  { destruct (err && is_undefined result); [apply preserves_throw|].
    apply preserves_bind; [apply preserves_get|]. intros p.
    apply preserves_bind; [by apply unreached_settle_call | intros; apply preserves_ret]. }
  destruct result; try exact Hplain. unfold fn_finally.
  apply preserves_bind; [apply unreached_set_state|]. intros _.
  apply preserves_bind; [apply unreached_set_outcome|]. intros _.
  apply preserves_bind; [by apply unreached_set_parent|].
  intros _. apply preserves_bind; [apply Ht | intros; apply preserves_ret].
Qed.

Lemma unreached_fn_gen t self dd su fa yay :
  cont_avoids d (KWrap self dd su fa yay) ->
  (forall q, preserves (unreached d P) (t q (VFun (HResolve self)) (VFun (HReject self)))) ->
  preserves (unreached d P) (fn_gen H t self dd su fa yay).
Proof.
  intros (Hs & Hdd & Hsu & Hfa) Ht w Hw. unfold fn_gen, bind, get_promise.
  destruct (heap w !! self) as [p|]; [|exact Hw].
  assert (Hh : value_avoids d (if yay then su else fa)) by (by destruct yay).
  assert (Hcall : unreached d P
            (snd (call_value H (if yay then su else fa) (outcome p) w))).
  { destruct (if yay then su else fa); try exact Hw. by apply unreached_call_handler. }
  destruct (call_value H (if yay then su else fa) (outcome p) w) as [[v|e| |] w1];
    simpl in Hcall; try exact Hcall; by apply unreached_fn_finally.
Qed.

Lemma unreached_call_cont n :
  forall k arg, cont_avoids d k -> preserves (unreached d P) (call_cont H n k arg).
Proof.
  induction n as [|n IH]; intros k arg Hk; [intros w Hw; exact Hw|].
  destruct k as [self dd su fa yay|h]; [|by apply unreached_call_handler].
  rewrite call_cont_KWrap. apply unreached_fn_gen; [exact Hk|]. intros q.
  unfold methods_then. apply unreached_then. intros dd' yay' arg' Hq Hdd'.
  apply IH. destruct Hk as (Hs & _). by repeat split.
Qed.

Lemma unreached_array_each n self val l :
  Forall (cont_avoids d) l ->
  forall i v, preserves (unreached d P)
                (array_each (drain_step H (call_cont H n) self val) l i v).
Proof.
  induction 1 as [|k l Hk _ IH]; intros i v; [apply preserves_ret|].
  cbn [array_each]. apply preserves_bind.
  - unfold drain_step. apply preserves_bind; [by apply unreached_call_cont|].
    intros result. destruct (instanceof_Promise result).
    + apply preserves_bind; [apply unreached_set_outcome|]. intros _.
      apply preserves_bind; [apply unreached_set_state|]. intros _.
      apply preserves_ret.
    + destruct (instanceof_Error result); apply preserves_ret.
  - intros [b v']. simpl. destruct b; [apply IH | apply preserves_ret].
Qed.

Lemma unreached_purge_loop r s js : preserves (unreached d P) (purge_loop r s js).
Proof.
  induction js as [|j js IH]; [apply preserves_ret|].
  cbn [purge_loop]. apply preserves_bind; [apply unreached_slot | intros _; exact IH].
Qed.

(** What follows the loop in [promise.resolve]. *)
Lemma unreached_after_loop (handler : slot) v :
  preserves (unreached d P)
    (if negb (v_pending v) then
       assign H P (set_error []) ;;;
       assign H P (set_fulfill []) ;;;
       let result := if negb (v_error v) then v_reason v else v_result v in
       let state' := if negb (v_error v) then st.resolved else v_state v in
       p2 <- get_promise P ;;
       match parentNode p2 with
       | Some parent =>
           pp <- get_promise parent ;;
           if String.eqb (state pp) st.pending then
             (if String.eqb state' st.resolved then methods_resolve else methods_reject)
               parent (or_else result (outcome p2)) ;;;
             ret tt
           else ret tt
       | None => ret tt
       end ;;;
       (if freeze H then do_freeze P else ret tt) ;;;
       ret (VPromise P)
     else
       purge_loop P handler (rev (v_purge v)) ;;;
       ret (v_result v))%js.
Proof.
  destruct (negb (v_pending v)).
  - apply preserves_bind; [by apply unreached_own|]. intros _.
    apply preserves_bind; [by apply unreached_own|]. intros _.
    intros w Hw. unfold bind at 1, get_promise.
    destruct (heap w !! P) as [p2|] eqn:Hp2; [|exact Hw].
    assert (Hpar : parentNode p2 ≠ Some d) by (destruct Hw as (_ & _ & _ & Hpar); eauto).
    apply preserves_bind; [| |exact Hw].
    { destruct (parentNode p2) as [parent|]; [|apply preserves_ret].
      apply preserves_bind; [apply preserves_get|]. intros pp.
      destruct (String.eqb (state pp) st.pending); [|apply preserves_ret].
      apply preserves_bind; [|intros; apply preserves_ret].
      apply unreached_settle_call. congruence. }
    intros _. apply preserves_bind; [|intros; apply preserves_ret].
    destruct (freeze H); [apply unreached_freeze | apply preserves_ret].
  - apply preserves_bind; [apply unreached_purge_loop | intros; apply preserves_ret].
Qed.

(** A settlement of [P] whose continuations were not registered for [d]
    queues no job for [d] and leaves [d] pending without outcome. *)
Lemma unreached_promise_resolve n state_ val w pP :
  unreached d P w -> heap w !! P = Some pP -> promise_avoids d pP ->
  unreached d P (snd (promise_resolve H n P state_ val w)).
Proof.
  intros Hw Hp (Her & Hfu & Hpar & Hout). unfold promise_resolve.
  unfold bind at 1. rewrite (get_promise_eq _ _ _ Hp).
  destruct (String.eqb (state pP) st.pending) eqn:Hs; cbn [negb].
  2: { apply preserves_bind; [|intros; apply preserves_throw | exact Hw].
       by apply unreached_replace_outcome. }
  assert (Hslots : forall p, error p = error pP -> fulfill p = fulfill pP ->
            Forall (cont_avoids d)
              (get_slot (if String.eqb state_ st.broken then SError else SFulfill) p)).
  { intros p He Hf. destruct (String.eqb state_ st.broken); cbn; by rewrite ?He, ?Hf. }
  assert (Hloop : forall w0 p1, unreached d P w0 ->
            error p1 = error pP -> fulfill p1 = fulfill pP ->
            unreached d P
              (snd (bind (drain H (call_cont H n) P val
                            (get_slot (if String.eqb state_ st.broken
                                       then SError else SFulfill) p1) state_)
                      (fun v =>
                         if negb (v_pending v) then
                           assign H P (set_error []) ;;;
                           assign H P (set_fulfill []) ;;;
                           let result := if negb (v_error v) then v_reason v
                                         else v_result v in
                           let state' := if negb (v_error v) then st.resolved
                                         else v_state v in
                           p2 <- get_promise P ;;
                           match parentNode p2 with
                           | Some parent =>
                               pp <- get_promise parent ;;
                               if String.eqb (state pp) st.pending then
                                 (if String.eqb state' st.resolved
                                  then methods_resolve else methods_reject)
                                   parent (or_else result (outcome p2)) ;;;
                                 ret tt
                               else ret tt
                           | None => ret tt
                           end ;;;
                           (if freeze H then do_freeze P else ret tt) ;;;
                           ret (VPromise P)
                         else
                           purge_loop P (if String.eqb state_ st.broken
                                         then SError else SFulfill)
                                      (rev (v_purge v)) ;;;
                           ret (v_result v))%js w0))).
  { intros w0 p1 Hw0 He Hf.
    apply preserves_bind; [| |exact Hw0].
    - unfold drain. apply unreached_array_each. by apply Hslots.
    - intros v. apply unreached_after_loop. }
  destruct (frozen pP) eqn:Hfr.
  - unfold bind at 1. unfold assign at 1. unfold bind at 1.
    rewrite (get_promise_eq _ _ _ Hp), Hfr.
    destruct (frozen_write H) as [m|] eqn:Hm; [exact Hw|]. cbn [ret].
    unfold bind at 1. unfold assign at 1. unfold bind at 1.
    rewrite (get_promise_eq _ _ _ Hp), Hfr, Hm. cbn [ret].
    unfold bind at 1. rewrite (get_promise_eq _ _ _ Hp).
    by apply Hloop.
  - unfold bind at 1. rewrite (assign_unfrozen H _ _ pP w Hp Hfr).
    unfold bind at 1.
    erewrite assign_unfrozen by (first [cbn [heap]; apply lookup_insert_eq | exact Hfr]).
    cbn [heap next queue trace]. unfold bind at 1.
    erewrite get_promise_eq by (cbn [heap]; apply lookup_insert_eq).
    apply Hloop; [|reflexivity|reflexivity].
    assert (Hstep : preserves (unreached d P)
              (bind (assign H P (set_state state_))
                    (fun _ => assign H P (set_outcome val)))).
    { apply preserves_bind; [by apply unreached_own|]. intros _. by apply unreached_own. }
    specialize (Hstep w Hw). unfold bind in Hstep.
    rewrite (assign_unfrozen H _ _ pP w Hp Hfr) in Hstep.
    erewrite assign_unfrozen in Hstep
      by (first [cbn [heap]; apply lookup_insert_eq | exact Hfr]).
    exact Hstep.
Qed.

End Unreached.

(** C10. [then] with two arguments that are not functions registers
    nothing: its only effect is the new derived promise [d], pending,
    without outcome, with [parentNode] the promise [P] it was called on,
    whose own object is unchanged; [d] is then not reached from [P],
    provided that no job queued before and not the [parentNode] of [P]
    named the reference that was unused until then.  From then on, in any
    store where [d] is not reached from [P] (pending without outcome, no
    job queued for it, not the parent of [P]) and where no continuation of
    [P] was registered for [d], a settlement of [P] (which, given two
    levels of fuel, runs to its end) leaves [d] not reached, whatever the
    continuations of [P] do: [d] stays pending without outcome and no job
    for it is queued.  Nothing is propagated forward. *)
Theorem then_without_functions (H : Host) fuel w P pP (su fa : value) :
  heap w !! P = Some pP ->
  P < next w ->
  typeof_function su = false ->
  typeof_function fa = false ->
  let d := next w in
  let w1 := mkWorld (<[d := mkPromise [] [] (Some P) VNull st.pending false]> (heap w))
                    (S d) (queue w) (trace w) in
  methods_then H fuel P su fa w = (Ret d, w1) /\
  heap w1 !! P = Some pP /\
  stays_pending d w1 /\
  (Forall (fun j => job_target j ≠ d) (queue w) -> parentNode pP ≠ Some d ->
   unreached d P w1) /\
  (forall w' fuel' state_ val pP',
     unreached d P w' -> heap w' !! P = Some pP' -> promise_avoids d pP' ->
     fst (promise_resolve H (S (S fuel')) P state_ val w') ≠ OutOfFuel /\
     unreached d P (snd (promise_resolve H (S (S fuel')) P state_ val w'))).
Proof.
  intros Hp Hlt Hsu Hfa d w1.
  assert (Hst : stays_pending d w1).
  { split; [unfold w1; cbn; lia|]. eexists. split; [apply lookup_insert_eq|done]. }
  assert (HP1 : heap w1 !! P = Some pP).
  { unfold w1, d. cbn. rewrite lookup_insert_ne by lia. exact Hp. }
  split; [|split; [|split; [|split]]].
  - unfold methods_then, then_gen. rewrite Hsu, Hfa. unfold bind. cbn.
    erewrite assign_unfrozen by (simpl; rewrite ?lookup_insert_eq; reflexivity).
    cbn. unfold w1, d. by rewrite insert_insert_eq.
  - exact HP1.
  - exact Hst.
  - intros Hq Hpar. split; [exact Hst|]. split; [exact Hq|].
    split; [unfold w1; cbn; lia|]. intros p Hp1.
    change (heap w1 !! P = Some p) in Hp1. rewrite HP1 in Hp1. by injection Hp1 as <-.
  - intros w' fuel' state_ val pP' Hw' Hp' Hav. split; [apply promise_resolve_fueled|].
    apply (unreached_promise_resolve H d P) with (pP := pP'); [unfold d; lia | done ..].
Qed.

Lemma then_without_functions_witness :
  methods_then demo_host 2 0 VUndefined VNull one_promise =
    (Ret 1, mkWorld (<[1 := mkPromise [] [] (Some 0) VNull st.pending false]>
                       (heap one_promise)) 2 [] []) /\
  unreached 1 0
    (snd (promise_resolve demo_host 2 0 st.resolved (VNum 3)
            (snd (methods_then demo_host 2 0 VUndefined VNull one_promise)))).
Proof.
  pose proof (then_without_functions demo_host 2 one_promise 0 new_Promise
                VUndefined VNull eq_refl (Nat.lt_0_succ 0) eq_refl eq_refl) as Hc.
  cbv zeta in Hc. destruct Hc as (Hthen & HP & _ & Hun & Hframe).
  split; [exact Hthen|]. rewrite Hthen.
  apply (Hframe _ 0 st.resolved (VNum 3) new_Promise).
  - apply Hun; [constructor | discriminate].
  - exact HP.
  - repeat split; first [constructor | discriminate | exact I].
Defined.

(** ** Settlement without adoption, in general *)

Section Quiet.
Context (H : Host).

Lemma array_each_reason call self val l :
  forall i v w v' w',
    array_each (drain_step H call self val) l i v w = (Ret v', w') ->
    reason_unset v -> reason_unset v'.
Proof.
  induction l as [|k l IH]; intros i v w v' w' He Hok.
  { by injection He as <- <-. }
  rewrite array_each_cons in He. apply bind_ret_inv in He.
  destruct He as ([b v1] & w1 & Hstep & He). simpl in He.
  unfold drain_step in Hstep. apply bind_ret_inv in Hstep.
  destruct Hstep as (result & w2 & Hcall & Hstep).
  destruct (instanceof_Promise result).
  - repeat (apply bind_ret_inv in Hstep; destruct Hstep as (? & ? & _ & Hstep)).
    injection Hstep as <- <- <-. by injection He as <- <-.
  - destruct (instanceof_Error result); injection Hstep as <- <- <-;
      apply (IH _ _ _ _ _ He); [discriminate | exact Hok].
Qed.

(** A settlement whose loop adopted nothing: the promise gets the requested
    state and value, both arrays are emptied, the object is frozen when
    [Object.freeze] exists, and the reverse step queues at most one job for
    the parent. *)
Lemma settle_without_adoption n w self p state_ val v w1 :
  heap w !! self = Some p -> state p = st.pending -> frozen p = false ->
  match parentNode p with
  | Some parent => parent ≠ self /\ is_Some (heap w !! parent)
  | None => True
  end ->
  drain H (call_cont H n) self val
    (get_slot (if String.eqb state_ st.broken then SError else SFulfill) p) state_
    (mkWorld (<[self := set_outcome val (set_state state_ p)]> (heap w))
             (next w) (queue w) (trace w)) = (Ret v, w1) ->
  v_pending v = false ->
  promise_resolve H n self state_ val w =
    (Ret (VPromise self),
     mkWorld (<[self := mkPromise [] [] (parentNode p) val state_ (freeze H)]> (heap w))
             (next w) (queue w1 ++ reverse_job w p val v) (trace w1)).
Proof.
  intros Hp Hs Hfr Hwf Hdrain Hpend.
  destruct (array_each_plain H n self val _ 0 (init_locals state_)
              _ v w1 Hdrain Hpend) as (Hheap & Hnext & Hok); [discriminate|].
  pose proof (array_each_reason _ _ _ _ _ _ _ _ _ Hdrain (fun _ => eq_refl)) as Hreason.
  destruct w1 as [h1 n1 q1 t1]. simpl in Hheap, Hnext. subst h1 n1.
  destruct p as [er fu pa ou sta fr]. simpl in Hs, Hfr, Hwf. subst sta fr.
  unfold promise_resolve. unfold bind at 1. rewrite (get_promise_eq _ _ _ Hp).
  cbn [state negb String.eqb Ascii.eqb Bool.eqb st.pending].
  unfold bind at 1. exec_step. unfold bind at 1. exec_step.
  rewrite insert_insert_eq. unfold bind at 1. exec_step.
  unfold bind at 1.
  replace (get_slot (if String.eqb state_ st.broken then SError else SFulfill)
             (set_outcome val (set_state state_
                (mkPromise er fu pa ou st.pending false))))
    with (get_slot (if String.eqb state_ st.broken then SError else SFulfill)
            (mkPromise er fu pa ou st.pending false))
    by (by destruct (String.eqb state_ st.broken)).
  rewrite Hdrain, Hpend. cbn [negb].
  unfold bind at 1. exec_step. unfold bind at 1. exec_step.
  rewrite !insert_insert_eq. unfold bind at 1. unfold bind at 1. exec_step.
  assert (Hfinish : forall q,
    bind (if freeze H then do_freeze self else ret tt) (fun _ => ret (VPromise self))
      (mkWorld (<[self := mkPromise [] [] pa val state_ false]> (heap w)) (next w) q t1) =
    (Ret (VPromise self),
     mkWorld (<[self := mkPromise [] [] pa val state_ (freeze H)]> (heap w))
             (next w) q t1)).
  { intros q. unfold bind. destruct (freeze H); [|reflexivity].
    unfold do_freeze, bind. exec_step. unfold put_promise, ret. simpl.
    by rewrite insert_insert_eq. }
  unfold reverse_job. cbn [parentNode].
  destruct pa as [parent|].
  - destruct Hwf as [Hne [pp Hpp]]. rewrite Hpp.
    unfold bind at 1. unfold bind at 1.
    erewrite get_promise_eq
      by (cbn [heap]; rewrite lookup_insert_ne by done; exact Hpp).
    destruct (String.eqb (state pp) st.pending).
    + destruct (v_error v) eqn:Herr; cbn [negb].
      * rewrite (Hok Herr).
        cbn [String.eqb Ascii.eqb Bool.eqb st.broken st.resolved].
        unfold bind at 1. unfold methods_reject at 1. unfold bind at 1.
        unfold defer at 1. unfold ret at 1. unfold ret at 1.
        cbn [heap next queue trace outcome]. apply Hfinish.
      * rewrite (Hreason Herr).
        cbn [String.eqb Ascii.eqb Bool.eqb st.broken st.resolved].
        unfold bind at 1. unfold methods_resolve at 1. unfold bind at 1.
        unfold defer at 1. unfold ret at 1. unfold ret at 1.
        cbn [heap next queue trace outcome or_else truthy]. apply Hfinish.
    + unfold ret at 1. rewrite app_nil_r. apply Hfinish.
  - unfold bind at 1. unfold ret at 1. rewrite app_nil_r. apply Hfinish.
Qed.

End Quiet.

(** ** Settling through the public methods *)

(** X1. A pending promise without continuation on the branch it goes to,
    whose parent (if any) is no longer pending: [resolve(v)] or [reject(v)]
    and one turn of the event loop settle it to the matching state with
    exactly [v] as outcome (falsy values included); both arrays are empty
    afterwards, the object is frozen when [Object.freeze] exists, no
    caller function was called and no job is left. *)
Theorem settle_call_then_turn (H : Host) n w self p (yay : bool) (v : value) :
  heap w !! self = Some p -> state p = st.pending -> frozen p = false ->
  get_slot (settle_slot yay) p = [] ->
  parent_settled w self p ->
  queue w = [] ->
  run_next H n (snd (settle_call yay self v w)) =
    Some (Ret (VPromise self),
          mkWorld (<[self := mkPromise [] [] (parentNode p) v (settle_state yay)
                                 (freeze H)]> (heap w))
                  (next w) [] (trace w)).
Proof.
  intros Hp Hs Hfr Hslot Hpar Hq.
  unfold run_next.
  assert (Hcall : snd (settle_call yay self v w) =
            mkWorld (heap w) (next w) [JSettle self (settle_state yay) v] (trace w)).
  { destruct yay; cbn; by rewrite Hq. }
  rewrite Hcall. cbn [queue run_job heap next trace].
  rewrite (resolve_no_continuation H n
             (mkWorld (heap w) (next w) [] (trace w)) self p (settle_state yay) v);
    try done.
  by destruct yay.
Qed.

Lemma settle_call_then_turn_witness :
  run_next demo_host 2 (snd (settle_call false 0 (VNum 0) one_promise)) =
    Some (Ret (VPromise 0),
          mkWorld (<[0 := mkPromise [] [] None (VNum 0) st.broken true]> (heap one_promise))
                  1 [] []).
Proof.
  apply (settle_call_then_turn demo_host 2 one_promise 0 new_Promise false (VNum 0));
    first [reflexivity | exact I].
Defined.



(** ** The reverse step without an Error result *)



Section ReverseScenario.
Context (H : Host).


End ReverseScenario.



(** ** Continuations of the branch that is not taken *)



(** ** What a throwing continuation leaves behind *)

Lemma normalize_is_error (H : Host) e :
  is_undefined e = false -> instanceof_Error (normalize H e) = true.
Proof. destruct e; try done; intros _; unfold normalize; cbn; by destruct (ToString H _). Qed.

(** X6. Whatever a continuation throws, other than [undefined], the
    derived promise is rejected with an Error instance: the thrown Error
    itself when it was one, an Error whose message is the thrown string
    for a string, and otherwise the Error the [catch] block builds (a
    thrown promise is not adopted).  This holds for [then] on a promise
    already fulfilled and on a pending promise resolved later; in both,
    [then] and every deferred job return normally. *)
Theorem thrown_value_rejects_with_error (H : Host) n m f (fa e v : value) :
  labels_accepted H ->
  user_fn H f v = Raise e -> is_undefined e = false ->
  let err := normalize H e in
  (instanceof_Error err = true /\
   (instanceof_Error e = true -> err = e) /\
   (forall s, e = VStr s -> err = VError s)) /\
  (forall w P pP,
     heap w !! P = Some pP -> state pP = st.resolved -> outcome pP = v ->
     P < next w -> queue w = [] ->
     let d := next w in
     exists w1,
       methods_then H (S n) P (VFun (HUser f)) fa w = (Ret d, w1) /\
       run_next H (S m) w1 =
         Some (Ret (VPromise d),
               mkWorld (<[d := mkPromise [] [] (Some P) err st.broken (freeze H)]> (heap w))
                       (S d) [] (trace w ++ [(f, v)]))) /\
  (forall w P pP,
     heap w !! P = Some pP -> state pP = st.pending -> frozen pP = false ->
     fulfill pP = [] -> parentNode pP = None ->
     P < next w -> queue w = [] ->
     let d := next w in
     let w1 := snd (methods_then H (S n) P (VFun (HUser f)) fa w) in
     let w2 := snd (methods_resolve P v w1) in
     fst (methods_then H (S n) P (VFun (HUser f)) fa w) = Ret d /\
     exists w3 w4,
       run_next H (S m) w2 = Some (Ret (VPromise P), w3) /\
       run_next H (S m) w3 = Some (Ret (VPromise d), w4) /\
       queue w4 = [] /\
       heap w4 !! d = Some (mkPromise [] [] (Some P) err st.broken (freeze H))).
Proof.
  intros Hl Hf He err. split; [|split].
  - split; [by apply normalize_is_error|]. split.
    + intros Hi. unfold err, normalize. rewrite Hi, andb_false_r. reflexivity.
    + intros s ->. reflexivity.
  - intros w P pP Hp Hs Ho Hlt Hq d. subst v. eexists. split.
    + rewrite (then_on_settled H (S n) w P pP (VFun (HUser f)) fa true err
                 (JSettle d st.broken err) (f, outcome pP)); try done.
      intros w0 Hw0.
      exact (wrapper_raises H n w0 P d (VFun (HUser f)) fa true f pP (outcome pP)
               Hw0 eq_refl e Hf He).
    + unfold run_next. rewrite Hq. cbn [queue run_job heap next trace app].
      rewrite (resolve_no_continuation H (S m) _ d (derived P) st.broken err).
      * f_equal. apply world_eq; [heap_eq | reflexivity ..].
      * heap_solve.
      * reflexivity.
      * reflexivity.
      * reflexivity.
      * simpl. exists pP. split; [heap_solve|]. split; [|unfold d; lia].
        rewrite Hs. discriminate.
  - intros w P pP Hp Hs Hfr Hfu Hpar Hlt Hq d w1 w2.
    destruct pP as [er fu pa ou sta fr]. simpl in Hs, Hfr, Hfu, Hpar. subst sta fr fu pa.
    set (pP := mkPromise er [] None ou st.pending false) in *.
    assert (Hthen := then_on_pending H (S n) w P pP (VFun (HUser f)) fa Hl Hp eq_refl Hlt).
    fold d in Hthen. split; [by rewrite Hthen|].
    set (er' := er ++ if typeof_function fa
                      then [KWrap P d (VFun (HUser f)) fa false] else []).
    set (armed := mkPromise er' [KWrap P d (VFun (HUser f)) fa true] None ou
                            st.pending false).
    assert (Hreg : registered P d (VFun (HUser f)) fa pP = armed) by reflexivity.
    rewrite Hreg in Hthen.
    eexists _, _. split; [|split].
    + unfold w2, w1. rewrite Hthen. unfold run_next.
      cbn [snd methods_resolve bind defer ret queue run_job heap next trace].
      rewrite Hq. cbn [app run_job].
      rewrite (settle_with_raising_wrapper H m _ P armed d f fa v e).
      * reflexivity.
      * cbn [heap]. rewrite lookup_insert_ne by (unfold d; lia). apply lookup_insert_eq.
      * reflexivity.
      * reflexivity.
      * reflexivity.
      * reflexivity.
      * exact Hf.
      * exact He.
    + unfold run_next. cbn [queue heap next trace app].
      cbn [run_job].
      rewrite (resolve_no_continuation H (S m) _ d (derived P) st.broken).
      * reflexivity.
      * cbn [heap]. rewrite lookup_insert_ne by (unfold d; lia). apply lookup_insert_eq.
      * reflexivity.
      * reflexivity.
      * reflexivity.
      * cbn [parentNode derived heap]. eexists. split; [apply lookup_insert_eq|].
        split; [discriminate | unfold d; lia].
    + cbn [queue heap]. split; [reflexivity|]. by rewrite lookup_insert_eq.
Qed.

Lemma thrown_value_rejects_with_error_witness :
  exists w1,
    methods_then demo_host 2 0 (VFun (HUser 5)) VUndefined settled_world = (Ret 1, w1) /\
    run_next demo_host 2 w1 =
      Some (Ret (VPromise 1),
            mkWorld (<[1 := mkPromise [] [] (Some 0) (VError "boom") st.broken true]>
                       (heap settled_world)) 2 [] [(5, VNum 5)]).
Proof.
  pose proof (thrown_value_rejects_with_error demo_host 1 1 5 VUndefined (VError "boom")
                (VNum 5) demo_labels_accepted eq_refl eq_refl) as Hc.
  cbv zeta in Hc. destruct Hc as (_ & Hsync & _).
  apply (Hsync settled_world 0 (mkPromise [] [] None (VNum 5) st.resolved true));
    first [reflexivity | (simpl; lia)].
Defined.

(** ** The loop of [promise.resolve] over any number of continuations *)

Section Loop.
Context (H : Host).

(** With the promise pending and not frozen, [promise.resolve] writes the
    state and the value and enters the loop over the chosen array. *)
Lemma promise_resolve_enters_loop n w self p state_ (val : value) :
  heap w !! self = Some p -> state p = st.pending -> frozen p = false ->
  let handler := if String.eqb state_ st.broken then SError else SFulfill in
  let w0 := mkWorld (<[self := set_outcome val (set_state state_ p)]> (heap w))
                    (next w) (queue w) (trace w) in
  exists k,
    promise_resolve H n self state_ val w =
      bind (array_each (drain_step H (call_cont H n) self val) (get_slot handler p) 0
              (init_locals state_)) k w0 /\
    (forall v, v_pending v = true ->
       k v = bind (purge_loop self handler (rev (v_purge v)))
                  (fun _ => ret (v_result v))).
Proof.
  intros Hp Hs Hfr handler w0.
  destruct p as [er fu pa ou sta fr]. simpl in Hs, Hfr. subst sta fr.
  eexists. split.
  - unfold promise_resolve. unfold bind at 1. rewrite (get_promise_eq _ _ _ Hp).
    cbn [state negb String.eqb Ascii.eqb Bool.eqb st.pending].
    unfold bind at 1. exec_step. unfold bind at 1. exec_step.
    rewrite insert_insert_eq. unfold bind at 1. exec_step.
    unfold drain.
    replace (get_slot (if String.eqb state_ st.broken then SError else SFulfill)
               (set_outcome val (set_state state_
                  (mkPromise er fu pa ou st.pending false))))
      with (get_slot handler (mkPromise er fu pa ou st.pending false))
      by (unfold handler; by destruct (String.eqb state_ st.broken)).
    reflexivity.
  - intros v Hv. cbv beta. rewrite Hv. reflexivity.
Qed.

(** A run of wrappers that neither adopt nor throw [undefined]: each calls
    its caller function with the value and queues the job of its derived
    promise, in the order of the array; no promise object changes, and the
    loop goes on with what follows. *)
Lemma loop_plain_prefix n self (val : value) l eff :
  Forall2 (fun k e => cont_effect H self val k = Some e) l eff ->
  forall rest i v w p,
    heap w !! self = Some p -> outcome p = val ->
    exists v',
      array_each (drain_step H (call_cont H (S n)) self val) (l ++ rest) i v w =
      array_each (drain_step H (call_cont H (S n)) self val) rest (i + length l) v'
        (mkWorld (heap w) (next w) (queue w ++ map snd eff)
                 (trace w ++ calls_with val eff)) /\
      v_pending v' = v_pending v /\
      v_purge v' = v_purge v ++ seq i (length l).
Proof.
  induction 1 as [|k e l eff Hk _ IH]; intros rest i v w p Hp Ho.
  { exists v. cbn [app length map calls_with seq]. rewrite !app_nil_r, Nat.add_0_r.
    by destruct w. }
  destruct k as [s d su fa yay|h]; [|discriminate]. cbn [cont_effect] in Hk.
  destruct (Nat.eqb_spec s self) as [->|]; [|discriminate].
  destruct (if yay then su else fa) as [| | | | | | | |[f| |]] eqn:Hh; try discriminate.
  assert (Hstep : exists r,
    call_cont H (S n) (KWrap self d su fa yay) val w =
      (Ret r, mkWorld (heap w) (next w) (queue w ++ [snd e]) (trace w ++ [(fst e, val)])) /\
    instanceof_Promise r = false).
  { destruct (user_fn H f val) as [x|x] eqn:Hf.
    - destruct (instanceof_Promise x) eqn:Hx; [discriminate|]. injection Hk as <-.
      exists x. split; [|exact Hx]. rewrite <- Ho in Hf |- *.
      exact (wrapper_returns H n w self d su fa yay f p (outcome p) Hp Hh x Hf Hx).
    - destruct (is_undefined x) eqn:Hx; [discriminate|]. injection Hk as <-.
      exists (normalize H x). split; [|apply normalize_not_promise].
      rewrite <- Ho in Hf |- *.
      exact (wrapper_raises H n w self d su fa yay f p (outcome p) Hp Hh x Hf Hx). }
  destruct Hstep as (r & Hcall & Hr).
  cbn [app]. rewrite array_each_cons. unfold bind at 1. unfold drain_step at 1.
  unfold bind at 1. rewrite Hcall, Hr.
  set (w1 := mkWorld (heap w) (next w) (queue w ++ [snd e]) (trace w ++ [(fst e, val)])).
  assert (Hgo : forall v1, exists v',
    array_each (drain_step H (call_cont H (S n)) self val) (l ++ rest) (S i) v1 w1 =
    array_each (drain_step H (call_cont H (S n)) self val) rest (S (i + length l))
      v' (mkWorld (heap w) (next w) (queue w ++ map snd (e :: eff))
                  (trace w ++ calls_with val (e :: eff))) /\
    v_pending v' = v_pending v1 /\ v_purge v' = v_purge v1 ++ seq (S i) (length l)).
  { intros v1. destruct (IH rest (S i) v1 w1 p Hp Ho) as (v' & He & Hpe & Hpu).
    exists v'. split; [|done]. rewrite He. unfold w1. cbn [heap next queue trace].
    cbn [map calls_with]. rewrite <- !app_assoc. reflexivity. }
  destruct (instanceof_Error r).
  - cbn [ret fst snd v_pending v_purge v_error v_reason v_state].
    destruct (Hgo (mkLocals r (v_pending v) true r st.broken (v_purge v ++ [i])))
      as (v' & He & Hpe & Hpu).
    exists v'. rewrite He. cbn [length]. rewrite Nat.add_succ_r. split; [done|].
    split; [done|]. rewrite Hpu. cbn [v_purge seq]. by rewrite <- app_assoc.
  - cbn [ret fst snd v_pending v_purge v_error v_reason v_state].
    destruct (Hgo (mkLocals r (v_pending v) (v_error v) (v_reason v) (v_state v)
                            (v_purge v ++ [i])))
      as (v' & He & Hpe & Hpu).
    exists v'. rewrite He. cbn [length]. rewrite Nat.add_succ_r. split; [done|].
    split; [done|]. rewrite Hpu. cbn [v_purge seq]. by rewrite <- app_assoc.
Qed.

End Loop.

Section LoopOutcomes.
Context (H : Host).

Lemma drop_delete_at {A : Type} k : forall l : list A, drop k (delete k l) = drop (S k) l.
Proof. induction k as [|k IH]; intros [|x l]; try reflexivity. cbn. apply IH. Qed.

Lemma set_slot_get_slot s p : set_slot s (get_slot s p) p = p.
Proof. by destruct p, s. Qed.

Lemma set_slot_twice s l l' p : set_slot s l (set_slot s l' p) = set_slot s l p.
Proof. by destruct p, s. Qed.

Lemma get_set_slot s l p : get_slot s (set_slot s l p) = l.
Proof. by destruct p, s. Qed.

(** The purge loop over the indices [0 .. k-1], highest first, removes the
    first [k] entries of the array. *)
Lemma purge_loop_drop r s k :
  forall w p, heap w !! r = Some p ->
    purge_loop r s (rev (seq 0 k)) w =
      (Ret tt, mkWorld (<[r := set_slot s (drop k (get_slot s p)) p]> (heap w))
                       (next w) (queue w) (trace w)).
Proof.
  induction k as [|k IH]; intros w p Hp.
  - cbn [seq rev purge_loop ret]. rewrite drop_0, set_slot_get_slot.
    rewrite insert_id by exact Hp. by destruct w.
  - rewrite seq_S, rev_app_distr. cbn [rev app Nat.add purge_loop].
    unfold bind, array_remove. rewrite (modify_slot_eq _ _ _ _ _ Hp).
    erewrite IH by (cbn [heap]; apply lookup_insert_eq).
    cbn [heap next queue trace].
    by rewrite insert_insert_eq, set_slot_twice, get_set_slot, drop_delete_at.
Qed.

End LoopOutcomes.

Section LoopResults.
Context (H : Host).

Lemma last_cons {A : Type} (rs : list A) : forall r d, List.last (r :: rs) d = List.last rs r.
Proof.
  induction rs as [|r' rs IH]; intros r d; [reflexivity|].
  change (List.last (r :: r' :: rs) d) with (List.last (r' :: rs) d). by rewrite !IH.
Qed.

(** One call of a wrapper that neither adopts nor throws [undefined]. *)
Lemma plain_call n self (val : value) k e w p (arg : value) :
  cont_effect H self val k = Some e ->
  heap w !! self = Some p -> outcome p = val ->
  exists r,
    cont_result H val k = Some r /\ instanceof_Promise r = false /\
    call_cont H (S n) k arg w =
      (Ret r, mkWorld (heap w) (next w) (queue w ++ [snd e]) (trace w ++ [(fst e, val)])).
Proof.
  intros Hk Hp Ho.
  destruct k as [s d su fa yay|h]; [|discriminate]. cbn [cont_effect cont_result] in *.
  destruct (Nat.eqb_spec s self) as [->|]; [|discriminate].
  destruct (if yay then su else fa) as [| | | | | | | |[f| |]] eqn:Hh; try discriminate.
  destruct (user_fn H f val) as [x|x] eqn:Hf.
  - destruct (instanceof_Promise x) eqn:Hx; [discriminate|]. injection Hk as <-.
    exists x. split; [reflexivity|]. split; [exact Hx|]. rewrite <- Ho in Hf |- *.
    exact (wrapper_returns H n w self d su fa yay f p arg Hp Hh x Hf Hx).
  - destruct (is_undefined x) eqn:Hx; [discriminate|]. injection Hk as <-.
    exists (normalize H x). split; [reflexivity|].
    split; [apply normalize_not_promise|]. rewrite <- Ho in Hf |- *.
    exact (wrapper_raises H n w self d su fa yay f p arg Hp Hh x Hf Hx).
Qed.

(** A run of such wrappers at the head of the loop: besides the calls and
    the jobs, the local [error] is set when one of the results was an
    Error, the local [result] ends as the last result, and the indices
    are noted in [purge]. *)
Lemma loop_plain_results n self (val : value) l eff :
  Forall2 (fun k e => cont_effect H self val k = Some e) l eff ->
  forall rest i v w p,
    heap w !! self = Some p -> outcome p = val ->
    exists v',
      array_each (drain_step H (call_cont H (S n)) self val) (l ++ rest) i v w =
      array_each (drain_step H (call_cont H (S n)) self val) rest (i + length l) v'
        (mkWorld (heap w) (next w) (queue w ++ map snd eff)
                 (trace w ++ calls_with val eff)) /\
      v_pending v' = v_pending v /\
      v_purge v' = v_purge v ++ seq i (length l) /\
      v_error v' = v_error v || existsb instanceof_Error (omap (cont_result H val) l) /\
      v_result v' = List.last (omap (cont_result H val) l) (v_result v).
Proof.
  induction 1 as [|k e l eff Hk _ IH]; intros rest i v w p Hp Ho.
  { exists v. cbn [app length map calls_with seq omap list_omap existsb List.last].
    rewrite !app_nil_r, Nat.add_0_r, orb_false_r. by destruct w. }
  destruct (plain_call n self val k e w p val Hk Hp Ho) as (r & Hr & Hnp & Hcall).
  cbn [app]. rewrite array_each_cons. unfold bind at 1. unfold drain_step at 1.
  unfold bind at 1. rewrite Hcall, Hnp.
  cbn [omap list_omap]. rewrite Hr. cbn [existsb length]. rewrite last_cons, Nat.add_succ_r.
  set (w1 := mkWorld (heap w) (next w) (queue w ++ [snd e]) (trace w ++ [(fst e, val)])).
  assert (Hgo : forall v1, exists v',
    array_each (drain_step H (call_cont H (S n)) self val) (l ++ rest) (S i) v1 w1 =
    array_each (drain_step H (call_cont H (S n)) self val) rest (S (i + length l)) v'
      (mkWorld (heap w) (next w) (queue w ++ map snd (e :: eff))
               (trace w ++ calls_with val (e :: eff))) /\
    v_pending v' = v_pending v1 /\
    v_purge v' = v_purge v1 ++ seq (S i) (length l) /\
    v_error v' = v_error v1 || existsb instanceof_Error (omap (cont_result H val) l) /\
    v_result v' = List.last (omap (cont_result H val) l) (v_result v1)).
  { intros v1. destruct (IH rest (S i) v1 w1 p Hp Ho) as (v' & He & Hrest).
    exists v'. split; [|exact Hrest]. rewrite He. unfold w1. cbn [heap next queue trace].
    cbn [map calls_with]. rewrite <- !app_assoc. reflexivity. }
  destruct (instanceof_Error r) eqn:Her.
  - cbn [ret fst snd v_pending v_purge v_error v_reason v_state].
    destruct (Hgo (mkLocals r (v_pending v) true r st.broken (v_purge v ++ [i])))
      as (v' & He & Hpe & Hpu & Herr & Hres).
    exists v'. rewrite He. split; [done|]. split; [done|].
    cbn [v_error v_result v_purge] in Hpu, Herr, Hres. rewrite Hpu, Herr, Hres.
    split; [cbn [seq]; by rewrite <- app_assoc|].
    split; [|done]. cbn [orb]. by rewrite orb_true_r.
  - cbn [ret fst snd v_pending v_purge v_error v_reason v_state].
    destruct (Hgo (mkLocals r (v_pending v) (v_error v) (v_reason v) (v_state v)
                            (v_purge v ++ [i])))
      as (v' & He & Hpe & Hpu & Herr & Hres).
    exists v'. rewrite He. split; [done|]. split; [done|].
    cbn [v_error v_result v_purge] in Hpu, Herr, Hres. rewrite Hpu, Herr, Hres.
    split; [cbn [seq]; by rewrite <- app_assoc|]. done.
Qed.

Lemma reverse_job_results w p (val : value) v rs :
  v_error v = existsb instanceof_Error rs -> v_result v = List.last rs VUndefined ->
  reverse_job w p val v = parent_job w p val rs.
Proof.
  intros He Hr. unfold reverse_job, parent_job. rewrite He, Hr.
  destruct (parentNode p) as [parent|]; [|reflexivity].
  destruct (heap w !! parent) as [pp|]; [|reflexivity].
  destruct (String.eqb (state pp) st.pending); [|reflexivity].
  by destruct (existsb instanceof_Error rs).
Qed.

End LoopResults.

(** X7. Any number of continuations run in registration order.  When a
    pending, unfrozen promise is settled and every entry of the array of
    that branch is a wrapper of [then] whose caller function neither
    returns a promise nor throws [undefined], the one job calls each caller
    function once with the value, in the order of the array, queues the
    settlement of each derived promise in the same order, and leaves the
    promise settled with both arrays empty.  After these jobs it queues
    one job for the parent when there is a pending parent, and none
    otherwise: [reject] of the parent when one of the results was an Error
    (with the last result, or the value when that is falsy), [resolve] of
    the parent with the value when none was. *)
Theorem continuations_run_in_order (H : Host) n w P pP (yay : bool) (val : value) eff :
  heap w !! P = Some pP -> state pP = st.pending -> frozen pP = false ->
  match parentNode pP with
  | Some parent => parent ≠ P /\ is_Some (heap w !! parent)
  | None => True
  end ->
  Forall2 (fun k e => cont_effect H P val k = Some e)
          (get_slot (settle_slot yay) pP) eff ->
  promise_resolve H (S n) P (settle_state yay) val w =
    (Ret (VPromise P),
     mkWorld (<[P := mkPromise [] [] (parentNode pP) val (settle_state yay) (freeze H)]>
                (heap w))
             (next w)
             (queue w ++ map snd eff ++
                parent_job w pP val
                  (omap (cont_result H val) (get_slot (settle_slot yay) pP)))
             (trace w ++ calls_with val eff)).
Proof.
  intros Hp Hs Hfr Hwf Heff.
  set (w0 := mkWorld (<[P := set_outcome val (set_state (settle_state yay) pP)]> (heap w))
                     (next w) (queue w) (trace w)).
  destruct (loop_plain_results H n P val _ eff Heff [] 0 (init_locals (settle_state yay))
              w0 (set_outcome val (set_state (settle_state yay) pP)))
    as (v' & Hloop & Hpend & _ & Herr & Hres).
  { apply lookup_insert_eq. }
  { by destruct pP. }
  rewrite app_nil_r in Hloop. cbn [array_each ret] in Hloop.
  rewrite (settle_without_adoption H (S n) w P pP (settle_state yay) val v'
             (mkWorld (heap w0) (next w0) (queue w0 ++ map snd eff)
                      (trace w0 ++ calls_with val eff))); try done.
  - cbn [queue trace w0].
    rewrite (reverse_job_results w pP val v' _ Herr Hres). by rewrite <- app_assoc.
  - unfold drain.
    replace (if String.eqb (settle_state yay) st.broken then SError else SFulfill)
      with (settle_slot yay) by (by destruct yay).
    exact Hloop.
Qed.

Lemma continuations_run_in_order_witness :
  promise_resolve demo_host 2 0 st.resolved (VNum 7) parented_world =
    (Ret (VPromise 0),
     mkWorld (<[0 := mkPromise [] [] (Some 4) (VNum 7) st.resolved true]>
                (heap parented_world))
             5
             [JSettle 1 st.resolved (VNum 7);
              JSettle 2 st.broken (VError "boom");
              JSettle 3 st.resolved (VNum 7);
              JSettle 4 st.broken (VNum 7)]
             [(1, VNum 7); (5, VNum 7); (0, VNum 7)]).
Proof.
  apply (continuations_run_in_order demo_host 1 parented_world 0 parented_promise
           true (VNum 7)
           [(1, JSettle 1 st.resolved (VNum 7));
            (5, JSettle 2 st.broken (VError "boom"));
            (0, JSettle 3 st.resolved (VNum 7))]);
    first [reflexivity | (split; [done | by eexists]) | repeat constructor].
Defined.

(** X8. A continuation that throws [undefined] aborts the settlement job.
    When the array of the branch starts with wrappers that neither adopt
    nor throw [undefined] and the next wrapper's caller function throws
    [undefined], the job throws the invalid-arguments Error after calling
    these functions in order; the promise keeps the new state and value
    but stays unfrozen with both arrays as they were, nothing is queued
    for the thrower's derived promise or for the parent, and the entries
    after the thrower are not called. *)
Theorem thrown_undefined_aborts_settlement (H : Host) n w P pP (yay yay' : bool)
    (val su fa : value) pre eff d f rest :
  heap w !! P = Some pP -> state pP = st.pending -> frozen pP = false ->
  get_slot (settle_slot yay) pP = pre ++ KWrap P d su fa yay' :: rest ->
  Forall2 (fun k e => cont_effect H P val k = Some e) pre eff ->
  (if yay' then su else fa) = VFun (HUser f) ->
  user_fn H f val = Raise VUndefined ->
  promise_resolve H (S n) P (settle_state yay) val w =
    (Throw (VError (label_invalidArguments H)),
     mkWorld (<[P := set_outcome val (set_state (settle_state yay) pP)]> (heap w))
             (next w) (queue w ++ map snd eff)
             (trace w ++ calls_with val eff ++ [(f, val)])).
Proof.
  intros Hp Hs Hfr Hslot Heff Hh Hf.
  destruct (promise_resolve_enters_loop H (S n) w P pP (settle_state yay) val Hp Hs Hfr)
    as (k & -> & _).
  replace (if String.eqb (settle_state yay) st.broken then SError else SFulfill)
    with (settle_slot yay) by (by destruct yay).
  rewrite Hslot. unfold bind at 1.
  set (p0 := set_outcome val (set_state (settle_state yay) pP)).
  destruct (loop_plain_prefix H n P val _ eff Heff (KWrap P d su fa yay' :: rest) 0
              (init_locals (settle_state yay))
              (mkWorld (<[P := p0]> (heap w)) (next w) (queue w) (trace w)) p0)
    as (v' & -> & _).
  { apply lookup_insert_eq. }
  { by destruct pP. }
  rewrite array_each_cons. unfold bind at 1. unfold drain_step at 1. unfold bind at 1.
  assert (Ho : outcome p0 = val) by (by destruct pP).
  rewrite <- Ho in Hf.
  rewrite (wrapper_raises_undefined H n _ P d su fa yay' f p0 val
             (lookup_insert_eq _ _ _) Hh Hf).
  cbn [heap next queue trace]. rewrite Ho. by rewrite <- app_assoc.
Qed.

Lemma thrown_undefined_aborts_settlement_witness :
  promise_resolve plain_host 2 0 (settle_state true) (VNum 7) thrower_world =
    (Throw (VError (label_invalidArguments plain_host)),
     mkWorld (<[0 := set_outcome (VNum 7) (set_state (settle_state true) thrower_promise)]>
                (heap thrower_world))
             (next thrower_world)
             (queue thrower_world ++ map snd [(1, JSettle 1 st.resolved (VNum 7))])
             (trace thrower_world ++
                calls_with (VNum 7) [(1, JSettle 1 st.resolved (VNum 7))] ++ [(6, VNum 7)])).
Proof.
  apply (thrown_undefined_aborts_settlement plain_host 1 thrower_world 0 thrower_promise
           true true (VNum 7) (VFun (HUser 6)) VUndefined
           [KWrap 0 1 (VFun (HUser 1)) VUndefined true]
           [(1, JSettle 1 st.resolved (VNum 7))] 2 6
           [KWrap 0 3 (VFun (HUser 0)) VUndefined true]);
    first [reflexivity | repeat constructor].
Defined.

(** X9. Adoption after any number of continuations.  When the array of a
    pending promise [P] starts with wrappers that neither adopt nor throw
    [undefined] and the next wrapper's caller function returns a pending
    promise [q], [resolve(val)] calls these functions in order, queues the
    settlements of the derived promises of the wrappers before the adopter,
    and then stops: [P] is pending again with outcome [null], the entries
    called so far are removed from its array and the later ones are kept,
    uncalled; [q] has [P] as parent and the two forwarding wrappers; no
    settlement is queued for the adopter's derived promise; the call
    returns [q]. *)
Theorem adoption_removes_called_continuations (H : Host) n w P pP d q pq f
    (fa val : value) pre eff rest :
  labels_accepted H ->
  heap w !! P = Some pP -> state pP = st.pending -> frozen pP = false ->
  fulfill pP = pre ++ KWrap P d (VFun (HUser f)) fa true :: rest ->
  Forall2 (fun k e => cont_effect H P val k = Some e) pre eff ->
  heap w !! q = Some pq -> state pq = st.pending -> frozen pq = false ->
  P ≠ q -> P < next w -> q < next w ->
  user_fn H f val = Return (VPromise q) ->
  promise_resolve H (S n) P st.resolved val w =
    (Ret (VPromise q),
     mkWorld
       (<[next w := derived q]>
          (<[q := registered q (next w) (forward_resolve P) (forward_reject P)
                    (set_parentNode (Some P) pq)]>
             (<[P := mkPromise (error pP) rest (parentNode pP) VNull st.pending false]>
                (heap w))))
       (S (next w)) (queue w ++ map snd eff)
       (trace w ++ calls_with val eff ++ [(f, val)])).
Proof.
  intros Hl Hp Hs Hfr Hfu Heff Hq Hsq Hfq Hne HltP Hltq Hf.
  destruct (promise_resolve_enters_loop H (S n) w P pP st.resolved val Hp Hs Hfr)
    as (k & -> & Hk).
  cbn [String.eqb Ascii.eqb Bool.eqb st.resolved st.broken get_slot] in Hk |- *.
  rewrite Hfu. unfold bind at 1.
  set (p0 := set_outcome val (set_state st.resolved pP)).
  assert (Ho : outcome p0 = val) by (by destruct pP).
  destruct (loop_plain_prefix H n P val _ eff Heff
              (KWrap P d (VFun (HUser f)) fa true :: rest) 0
              (init_locals st.resolved)
              (mkWorld (<[P := p0]> (heap w)) (next w) (queue w) (trace w)) p0)
    as (v' & -> & Hpend & Hpurge).
  { apply lookup_insert_eq. }
  { exact Ho. }
  rewrite array_each_cons. unfold bind at 1. unfold drain_step at 1. unfold bind at 1.
  rewrite <- Ho in Hf.
  erewrite (wrapper_adopts H n _ P p0 d q pq f fa val Hl).
  2: simpl; apply lookup_insert_eq.
  2: by destruct pP.
  2: simpl; rewrite lookup_insert_ne by done; exact Hq.
  2: exact Hsq.
  2: exact Hfq.
  2: exact Hne.
  2: exact HltP.
  2: exact Hltq.
  2: exact Hf.
  cbn [instanceof_Promise heap next queue trace].
  unfold bind at 1. exec_step. unfold bind at 1. exec_step.
  rewrite Hk by reflexivity. cbn [v_purge v_result]. rewrite Hpurge.
  cbn [init_locals v_purge app Nat.add]. rewrite <- seq_S.
  unfold bind at 1.
  erewrite purge_loop_drop by (cbn [heap]; heap_solve).
  cbn [heap next queue trace ret].
  assert (Hdrop : drop (S (length pre)) (pre ++ KWrap P d (VFun (HUser f)) fa true :: rest)
                  = rest).
  { rewrite (cons_middle _ pre rest), app_assoc.
    replace (S (length pre)) with (length (pre ++ [KWrap P d (VFun (HUser f)) fa true]))
      by (rewrite length_app; simpl; lia).
    apply drop_app_length. }
  destruct pP as [er fu pa ou sta fr]. simpl in Hs, Hfr, Hfu. subst sta fr fu.
  cbn [get_slot set_slot set_fulfill set_state set_outcome p0 fulfill error parentNode
       outcome state frozen].
  rewrite Hdrop, <- app_assoc. unfold ret. subst p0.
  apply world_eq; [heap_eq | reflexivity ..].
Qed.

Lemma adoption_removes_called_continuations_witness :
  promise_resolve plain_host 2 0 st.resolved (VNum 7) adopter_world =
    (Ret (VPromise 1),
     mkWorld
       (<[next adopter_world := derived 1]>
          (<[1 := registered 1 (next adopter_world) (forward_resolve 0) (forward_reject 0)
                    (set_parentNode (Some 0) new_Promise)]>
             (<[0 := mkPromise (error adopter_promise)
                       [KWrap 0 4 (VFun (HUser 0)) VUndefined true]
                       (parentNode adopter_promise) VNull st.pending false]>
                (heap adopter_world))))
       (S (next adopter_world))
       (queue adopter_world ++ map snd [(1, JSettle 2 st.resolved (VNum 7))])
       (trace adopter_world ++
          calls_with (VNum 7) [(1, JSettle 2 st.resolved (VNum 7))] ++ [(7, VNum 7)])).
Proof.
  apply (adoption_removes_called_continuations plain_host 1 adopter_world 0 adopter_promise
           3 1 new_Promise 7 VUndefined (VNum 7)
           [KWrap 0 2 (VFun (HUser 1)) VUndefined true]
           [(1, JSettle 2 st.resolved (VNum 7))]
           [KWrap 0 4 (VFun (HUser 0)) VUndefined true]);
    first [reflexivity | (simpl; lia) | (split; reflexivity) | repeat constructor | done].
Defined.

(** X10. [then] itself throws when the continuation it runs at once throws
    [undefined]: on a promise already settled toward the branch of the
    given function, the call throws the invalid-arguments Error after the
    one call of that function; no settlement is queued, the caller gets no
    derived promise, and the promise created for it is left in the store
    pending and without parent. *)
Theorem then_throws_on_thrown_undefined (H : Host) n w P pP (yay : bool)
    (su fa : value) f :
  labels_accepted H ->
  heap w !! P = Some pP -> P < next w ->
  state pP = settle_state yay ->
  (if yay then su else fa) = VFun (HUser f) ->
  user_fn H f (outcome pP) = Raise VUndefined ->
  methods_then H (S n) P su fa w =
    (Throw (VError (label_invalidArguments H)),
     mkWorld (<[next w := new_Promise]> (heap w)) (S (next w))
             (queue w) (trace w ++ [(f, outcome pP)])).
Proof.
  intros [He1 He2] Hp Hlt Hs Hh Hf.
  assert (Hrun : forall s w0, heap w0 !! P = Some pP -> s = settle_state yay ->
    vouch_gen H (call_cont H (S n)) P s (KWrap P (next w) su fa yay) w0 =
      (Throw (VError (label_invalidArguments H)),
       mkWorld (heap w0) (next w0) (queue w0) (trace w0 ++ [(f, outcome pP)]))).
  { intros s w0 Hw0 ->. unfold vouch_gen.
    pose proof (wrapper_raises_undefined H n w0 P (next w) su fa yay f pP (outcome pP)
                  Hw0 Hh Hf) as Hc.
    destruct yay; cbn [settle_state] in Hs |- *; rewrite ?He1, ?He2; unfold bind;
      rewrite (get_promise_eq _ _ _ Hw0), Hs; simpl; by rewrite Hc. }
  assert (Hskip : forall s k w0, heap w0 !! P = Some pP ->
    s = settle_state (negb yay) ->
    vouch_gen H (call_cont H (S n)) P s k w0 = (Ret P, w0)).
  { intros s k w0 Hw0 ->. unfold vouch_gen.
    destruct yay; cbn [settle_state negb] in Hs |- *; rewrite ?He1, ?He2; unfold bind;
      by rewrite (get_promise_eq _ _ _ Hw0), Hs. }
  assert (Hfun : typeof_function (if yay then su else fa) = true) by (by rewrite Hh).
  unfold methods_then, then_gen. unfold bind at 1. cbn [factory].
  destruct yay.
  - rewrite Hfun. unfold bind at 1. unfold bind at 1.
    rewrite Hrun by (first [heap_solve | reflexivity]). reflexivity.
  - unfold bind at 1. unfold bind at 1.
    replace ((if typeof_function su
              then vouch_gen H (call_cont H (S n)) P st.resolved
                     (KWrap P (next w) su fa true)
              else ret P)
               {| heap := <[next w:=new_Promise]> (heap w);
                  next := S (next w);
                  queue := queue w;
                  trace := trace w |})
      with (Ret P, {| heap := <[next w:=new_Promise]> (heap w);
                      next := S (next w);
                      queue := queue w;
                      trace := trace w |}).
    2:{ destruct (typeof_function su); [|reflexivity].
        rewrite (Hskip st.resolved) by (first [heap_solve | reflexivity]). reflexivity. }
    rewrite Hfun. unfold bind at 1.
    rewrite Hrun by (first [heap_solve | reflexivity]). reflexivity.
Qed.

Lemma then_throws_on_thrown_undefined_witness :
  methods_then plain_host 2 0 (VFun (HUser 6)) VUndefined settled_world =
    (Throw (VError (label_invalidArguments plain_host)),
     mkWorld (<[next settled_world := new_Promise]> (heap settled_world))
             (S (next settled_world)) (queue settled_world)
             (trace settled_world ++ [(6, VNum 5)])).
Proof.
  apply (then_throws_on_thrown_undefined plain_host 1 settled_world 0
           (mkPromise [] [] None (VNum 5) st.resolved true) true
           (VFun (HUser 6)) VUndefined 6);
    first [reflexivity | (simpl; lia) | (split; reflexivity)].
Defined.

(** ** [then] with an adopting continuation on a promise already fulfilled *)

(** X11. A late [then] re-arms a fulfilled promise that is not frozen.
    When [P] is fulfilled and not frozen and the success function returns
    a pending promise [q], [P.then(su, fa)] calls the function at once and
    returns the derived promise, and [P] is pending again with outcome
    [null]; its failure wrapper, when [fa] is a function, is registered on
    the re-armed [P]; [q] gets [P] as parent and the forwarding wrappers;
    nothing is queued. *)
Theorem late_adoption_rearms_fulfilled (H : Host) n w P pP q pq f (fa : value) :
  labels_accepted H ->
  heap w !! P = Some pP -> state pP = st.resolved -> frozen pP = false ->
  heap w !! q = Some pq -> state pq = st.pending -> frozen pq = false ->
  P ≠ q -> P < next w -> q < next w ->
  user_fn H f (outcome pP) = Return (VPromise q) ->
  let d := next w in
  methods_then H (S n) P (VFun (HUser f)) fa w =
    (Ret d,
     mkWorld
       (<[S d := derived q]>
          (<[q := registered q (S d) (forward_resolve P) (forward_reject P)
                    (set_parentNode (Some P) pq)]>
             (<[d := derived P]>
                (<[P := mkPromise
                          (error pP ++ if typeof_function fa
                                       then [KWrap P d (VFun (HUser f)) fa false] else [])
                          (fulfill pP) (parentNode pP) VNull st.pending false]>
                   (heap w)))))
       (S (S d)) (queue w) (trace w ++ [(f, outcome pP)])).
Proof.
  intros [He1 He2] Hp Hs Hfr Hq Hsq Hfq Hne HltP Hltq Hf d.
  destruct pP as [er fu pa ou sta fr]. simpl in Hs, Hfr, Hf. subst sta fr.
  set (pP := mkPromise er fu pa ou st.resolved false) in *.
  unfold methods_then, then_gen. unfold bind at 1. cbn [factory typeof_function].
  unfold bind at 1. unfold bind at 1. unfold vouch_gen at 1. rewrite He1.
  unfold bind at 1.
  erewrite get_promise_eq by (cbn [heap]; rewrite lookup_insert_ne by lia; exact Hp).
  cbn [state pP String.eqb Ascii.eqb Bool.eqb st.pending st.resolved].
  unfold bind at 1.
  erewrite (wrapper_adopts H n _ P pP (next w) q pq f fa ou (conj He1 He2)).
  2: cbn [heap]; rewrite lookup_insert_ne by lia; exact Hp.
  2: reflexivity.
  2: cbn [heap]; rewrite lookup_insert_ne by lia; exact Hq.
  2: exact Hsq.
  2: exact Hfq.
  2: exact Hne.
  2: cbn [next]; lia.
  2: cbn [next]; lia.
  2: exact Hf.
  cbn [heap next queue trace ret]. fold d.
  destruct (typeof_function fa).
  - unfold vouch_gen at 1. rewrite He2. unfold bind at 1.
    erewrite get_promise_eq
      by (cbn [heap]; rewrite lookup_insert_ne by (unfold d; lia);
          rewrite lookup_insert_ne by done; apply lookup_insert_eq).
    cbn [state set_outcome set_state String.eqb Ascii.eqb Bool.eqb st.pending].
    unfold bind at 1.
    erewrite modify_slot_eq
      by (cbn [heap]; rewrite lookup_insert_ne by (unfold d; lia);
          rewrite lookup_insert_ne by done; apply lookup_insert_eq).
    cbn [String.eqb Ascii.eqb Bool.eqb st.broken st.resolved ret heap next queue trace].
    unfold bind at 1.
    erewrite assign_unfrozen;
      [| cbn [heap]; rewrite lookup_insert_ne by (unfold d; lia);
         rewrite lookup_insert_ne by (unfold d; lia);
         rewrite lookup_insert_ne by (unfold d; lia);
         rewrite lookup_insert_ne by (unfold d; lia);
         apply lookup_insert_eq
       | reflexivity ].
    cbn [heap next queue trace ret outcome pP].
    apply world_eq; [heap_eq | reflexivity ..].
  - unfold ret at 1. unfold bind at 1.
    erewrite assign_unfrozen;
      [| cbn [heap]; rewrite lookup_insert_ne by (unfold d; lia);
         rewrite lookup_insert_ne by (unfold d; lia);
         rewrite lookup_insert_ne by (unfold d; lia);
         apply lookup_insert_eq
       | reflexivity ].
    cbn [heap next queue trace ret outcome pP]. rewrite app_nil_r.
    apply world_eq; [heap_eq | reflexivity ..].
Qed.

Lemma late_adoption_rearms_fulfilled_witness :
  methods_then plain_host 1 0 (VFun (HUser 7)) VUndefined rearm_world =
    (Ret 2,
     mkWorld
       (<[3 := derived 1]>
          (<[1 := registered 1 3 (forward_resolve 0) (forward_reject 0)
                    (set_parentNode (Some 0) new_Promise)]>
             (<[2 := derived 0]>
                (<[0 := mkPromise [] [] None VNull st.pending false]>
                   (heap rearm_world)))))
       4 [] [(7, VNum 5)]).
Proof.
  apply (late_adoption_rearms_fulfilled plain_host 0 rearm_world 0
           (mkPromise [] [] None (VNum 5) st.resolved false) 1 new_Promise 7 VUndefined);
    first [reflexivity | (simpl; lia) | (split; reflexivity) | done].
Defined.

Lemma assign_frozen_strict H r upd p w m :
  heap w !! r = Some p -> frozen p = true -> frozen_write H = Some m ->
  assign H r upd w = (Throw (VError m), w).
Proof.
  intros Hp Hf Hm. unfold assign, bind. by rewrite (get_promise_eq _ _ _ Hp), Hf, Hm.
Qed.

Lemma assign_frozen_sloppy H r upd p w :
  heap w !! r = Some p -> frozen p = true -> frozen_write H = None ->
  assign H r upd w = (Ret tt, w).
Proof.
  intros Hp Hf Hm. unfold assign, bind. by rewrite (get_promise_eq _ _ _ Hp), Hf, Hm.
Qed.

(** X12. The same late [then] on a fulfilled promise that is frozen.
    Where a write to a frozen object throws, the TypeError of the first
    assignment in the [finally] block escapes [then]: the function was
    called, the caller gets no derived promise and [q] is untouched.
    Where such a write is ignored, [then] returns the derived promise and
    [P] keeps its state and outcome, while [q] still gets [P] as parent
    and the forwarding wrappers. *)
Theorem late_adoption_on_frozen (H : Host) n w P pP q pq f (fa : value) :
  labels_accepted H ->
  heap w !! P = Some pP -> state pP = st.resolved -> frozen pP = true ->
  heap w !! q = Some pq -> state pq = st.pending -> frozen pq = false ->
  P ≠ q -> P < next w -> q < next w ->
  user_fn H f (outcome pP) = Return (VPromise q) ->
  let d := next w in
  methods_then H (S n) P (VFun (HUser f)) fa w =
    match frozen_write H with
    | Some m =>
        (Throw (VError m),
         mkWorld (<[d := new_Promise]> (heap w)) (S d) (queue w)
                 (trace w ++ [(f, outcome pP)]))
    | None =>
        (Ret d,
         mkWorld
           (<[S d := derived q]>
              (<[q := registered q (S d) (forward_resolve P) (forward_reject P)
                        (set_parentNode (Some P) pq)]>
                 (<[d := derived P]> (heap w))))
           (S (S d)) (queue w) (trace w ++ [(f, outcome pP)]))
    end.
Proof.
  intros [He1 He2] Hp Hs Hfr Hq Hsq Hfq Hne HltP Hltq Hf d.
  destruct pP as [er fu pa ou sta fr]. simpl in Hs, Hfr, Hf. subst sta fr.
  set (pP := mkPromise er fu pa ou st.resolved true) in *.
  unfold methods_then, then_gen. unfold bind at 1. cbn [factory typeof_function].
  unfold bind at 1. unfold bind at 1. unfold vouch_gen at 1. rewrite He1.
  unfold bind at 1.
  erewrite get_promise_eq by (cbn [heap]; rewrite lookup_insert_ne by lia; exact Hp).
  cbn [state pP String.eqb Ascii.eqb Bool.eqb st.pending st.resolved].
  unfold bind at 1. rewrite call_cont_KWrap. unfold fn_gen. unfold bind at 1.
  erewrite get_promise_eq by (cbn [heap]; rewrite lookup_insert_ne by lia; exact Hp).
  cbn [call_value call_handler outcome pP]. unfold bind at 1. cbn [log].
  rewrite Hf. cbn [ret fn_finally]. unfold bind at 1.
  destruct (frozen_write H) as [m|] eqn:Hm.
  - erewrite assign_frozen_strict;
      [| cbn [heap]; rewrite lookup_insert_ne by lia; exact Hp | reflexivity | exact Hm].
    reflexivity.
  - erewrite assign_frozen_sloppy;
      [| cbn [heap]; rewrite lookup_insert_ne by lia; exact Hp | reflexivity | exact Hm].
    unfold bind at 1.
    erewrite assign_frozen_sloppy;
      [| cbn [heap]; rewrite lookup_insert_ne by lia; exact Hp | reflexivity | exact Hm].
    unfold bind at 1.
    erewrite assign_unfrozen;
      [| cbn [heap]; rewrite lookup_insert_ne by lia; exact Hq | exact Hfq].
    cbn [heap next queue trace]. unfold bind at 1.
    erewrite then_on_pending;
      [| exact (conj He1 He2) | cbn [heap]; apply lookup_insert_eq | exact Hsq
       | cbn [next]; lia ].
    cbn [heap next queue trace ret]. fold d.
    assert (HP :
              (<[S d := derived q]>
                 (<[q := registered q (S d) (VFun (HResolve P)) (VFun (HReject P))
                           (set_parentNode (Some P) pq)]>
                    (<[q := set_parentNode (Some P) pq]>
                       (<[d := new_Promise]> (heap w))))) !! P = Some pP).
    { rewrite lookup_insert_ne by (unfold d; lia).
      rewrite lookup_insert_ne by done. rewrite lookup_insert_ne by done.
      rewrite lookup_insert_ne by (unfold d; lia). exact Hp. }
    destruct (typeof_function fa).
    + unfold vouch_gen at 1. rewrite He2. unfold bind at 1.
      erewrite get_promise_eq by (cbn [heap]; exact HP).
      cbn [state pP String.eqb Ascii.eqb Bool.eqb st.pending st.resolved st.broken ret].
      unfold bind at 1.
      erewrite assign_unfrozen;
        [| cbn [heap]; rewrite lookup_insert_ne by (unfold d; lia);
           rewrite lookup_insert_ne by (unfold d; lia);
           rewrite lookup_insert_ne by (unfold d; lia);
           apply lookup_insert_eq
         | reflexivity ].
      cbn [heap next queue trace ret].
      apply world_eq; [heap_eq | reflexivity ..].
    + unfold ret at 1. unfold bind at 1.
      erewrite assign_unfrozen;
        [| cbn [heap]; rewrite lookup_insert_ne by (unfold d; lia);
           rewrite lookup_insert_ne by (unfold d; lia);
           rewrite lookup_insert_ne by (unfold d; lia);
           apply lookup_insert_eq
         | reflexivity ].
      cbn [heap next queue trace ret].
      apply world_eq; [heap_eq | reflexivity ..].
Qed.

Lemma late_adoption_on_frozen_witness :
  methods_then sloppy_host 1 0 (VFun (HUser 7)) VUndefined frozen_world =
    (Ret 2,
     mkWorld
       (<[3 := derived 1]>
          (<[1 := registered 1 3 (forward_resolve 0) (forward_reject 0)
                    (set_parentNode (Some 0) new_Promise)]>
             (<[2 := derived 0]> (heap frozen_world))))
       4 [] [(7, VNum 5)]).
Proof.
  apply (late_adoption_on_frozen sloppy_host 0 frozen_world 0
           (mkPromise [] [] None (VNum 5) st.resolved true) 1 new_Promise 7 VUndefined);
    first [reflexivity | (simpl; lia) | (split; reflexivity) | done].
Defined.

(** ** Invariants of the store under any use of the engine *)

Section Guarded.
Context (H : Host) (I : world -> Prop) (ok : string -> Prop) (guard : ref -> Prop).
Hypothesis ok_pending : ok st.pending.
Hypothesis I_assign : forall r upd, engine_update ok upd -> preserves I (assign H r upd).
Hypothesis I_guard : forall w r p,
  I w -> heap w !! r = Some p -> String.eqb (state p) st.pending = true -> guard r.
Hypothesis I_slot : forall r s f, guard r -> preserves I (modify_slot r s f).
Hypothesis I_freeze : forall r, guard r -> preserves I (do_freeze r).
Hypothesis I_resolve : forall d v, preserves I (methods_resolve d v).
Hypothesis I_reject : forall d v, preserves I (methods_reject d v).
Hypothesis I_log : forall id a, preserves I (log id a).
Hypothesis I_factory : preserves I factory.
Hypothesis I_pop : forall w j rest,
  I w -> queue w = j :: rest ->
  I (mkWorld (heap w) (next w) rest (trace w)) /\ ok (job_state j).

Lemma guarded_vouch call self s k :
  (forall arg, preserves I (call k arg)) ->
  preserves I (vouch_gen H call self s k).
Proof.
  intros Hc w Hw. unfold vouch_gen.
  destruct (string_isEmpty H s); [exact Hw|].
  unfold bind at 1, get_promise.
  destruct (heap w !! self) as [p|] eqn:Hp; [|exact Hw].
  destruct (String.eqb (state p) st.pending) eqn:Hs.
  { apply preserves_bind; [|intros; apply preserves_ret | exact Hw].
    apply I_slot. by apply (I_guard w self p). }
  destruct (String.eqb (state p) s); [|exact Hw].
  apply preserves_bind; [apply Hc | intros; apply preserves_ret | exact Hw].
Qed.

Lemma guarded_then call self su fa :
  (forall d yay arg, preserves I (call (KWrap self d su fa yay) arg)) ->
  preserves I (then_gen H call self su fa).
Proof.
  intros Hc. unfold then_gen.
  apply preserves_bind; [apply I_factory|]. intros d.
  apply preserves_bind.
  { destruct (typeof_function su); [by apply guarded_vouch | apply preserves_ret]. }
  intros _. apply preserves_bind.
  { destruct (typeof_function fa); [by apply guarded_vouch | apply preserves_ret]. }
  intros _. apply preserves_bind; [apply I_assign; constructor|].
  intros; apply preserves_ret.
Qed.

Lemma guarded_settle_call (yay : bool) d v :
  preserves I ((if yay then methods_resolve else methods_reject) d v).
Proof. destruct yay; [apply I_resolve | apply I_reject]. Qed.

Lemma guarded_fn_finally t self d result err :
  (forall q, preserves I (t q (VFun (HResolve self)) (VFun (HReject self)))) ->
  preserves I (fn_finally H t self d result err).
Proof.
  intros Ht.
  assert (Hplain : preserves I
    (if err && is_undefined result then throw (VError (label_invalidArguments H))
     else bind (get_promise self) (fun p =>
       bind ((if negb err then methods_resolve else methods_reject) d
               (or_else result (outcome p))) (fun _ => ret result)))).
  { destruct (err && is_undefined result); [apply preserves_throw|].
    apply preserves_bind; [apply preserves_get|]. intros p.
    apply preserves_bind; [apply guarded_settle_call | intros; apply preserves_ret]. }
  destruct result; try exact Hplain. unfold fn_finally.
  repeat (apply preserves_bind;
          [first [apply I_assign; by constructor | apply Ht]|intros _]).
  apply preserves_ret.
Qed.

Lemma guarded_call_handler h arg : preserves I (call_handler H h arg).
Proof.
  destruct h as [id|s|s]; simpl.
  - apply preserves_bind; [apply I_log|]. intros _.
    destruct (user_fn H id arg); [apply preserves_ret | apply preserves_throw].
  - apply preserves_bind; [apply I_resolve | intros; apply preserves_ret].
  - apply preserves_bind; [apply I_reject | intros; apply preserves_ret].
Qed.

Lemma guarded_replace_outcome label v : preserves I (replace_outcome H label v).
Proof.
  destruct v; try apply preserves_ret. unfold replace_outcome.
  destruct (String.index _ _ _); [|apply preserves_ret].
  apply preserves_bind; [apply guarded_call_handler | intros; apply preserves_ret].
Qed.

Lemma guarded_fn_gen t self d su fa yay :
  (forall q, preserves I (t q (VFun (HResolve self)) (VFun (HReject self)))) ->
  preserves I (fn_gen H t self d su fa yay).
Proof.
  intros Ht w Hw. unfold fn_gen, bind, get_promise.
  destruct (heap w !! self) as [p|]; [|exact Hw].
  assert (Hcall : I (snd (call_value H (if yay then su else fa) (outcome p) w))).
  { destruct (if yay then su else fa); try exact Hw. by apply guarded_call_handler. }
  destruct (call_value H (if yay then su else fa) (outcome p) w) as [[v|e| |] w1];
    simpl in Hcall; try exact Hcall; by apply guarded_fn_finally.
Qed.

Lemma guarded_call_cont n : forall k arg, preserves I (call_cont H n k arg).
Proof.
  induction n as [|n IH]; intros k arg; [intros w Hw; exact Hw|].
  destruct k as [self d su fa yay|h]; [|apply guarded_call_handler].
  rewrite call_cont_KWrap. apply guarded_fn_gen. intros q.
  unfold methods_then. apply guarded_then. intros; apply IH.
Qed.

Lemma guarded_methods_then n self su fa : preserves I (methods_then H n self su fa).
Proof. apply guarded_then. intros; apply guarded_call_cont. Qed.

Lemma guarded_array_each n self val l :
  forall i v, preserves I (array_each (drain_step H (call_cont H n) self val) l i v).
Proof.
  induction l as [|k l IH]; intros i v; [apply preserves_ret|].
  cbn [array_each]. apply preserves_bind.
  - unfold drain_step. apply preserves_bind; [apply guarded_call_cont|].
    intros result. destruct (instanceof_Promise result).
    + repeat (apply preserves_bind; [apply I_assign; by constructor|intros _]).
      apply preserves_ret.
    + destruct (instanceof_Error result); apply preserves_ret.
  - intros [b v']. simpl. destruct b; [apply IH | apply preserves_ret].
Qed.

Lemma guarded_purge_loop r s js : guard r -> preserves I (purge_loop r s js).
Proof.
  intros Hg. induction js as [|j js IH]; [apply preserves_ret|].
  cbn [purge_loop]. apply preserves_bind; [by apply I_slot | intros _; exact IH].
Qed.

Lemma guarded_promise_resolve n self state_ val :
  ok state_ -> preserves I (promise_resolve H n self state_ val).
Proof.
  intros Hok w Hw. unfold promise_resolve. unfold bind at 1, get_promise.
  destruct (heap w !! self) as [p|] eqn:Hp; [|exact Hw].
  destruct (String.eqb (state p) st.pending) eqn:Hs.
  2: { cbn [negb].
       apply preserves_bind;
         [apply guarded_replace_outcome | intros; apply preserves_throw | exact Hw]. }
  assert (Hg : guard self) by (by apply (I_guard w self p)).
  cbn [negb].
  match goal with
  | |- I (snd (?m w)) => cut (preserves I m); [intros Hm; by apply Hm|]
  end.
  apply preserves_bind; [apply I_assign; by constructor|]. intros _.
  apply preserves_bind; [apply I_assign; by constructor|]. intros _.
  apply preserves_bind; [apply preserves_get|]. intros p1.
  apply preserves_bind; [apply guarded_array_each|]. intros v.
  destruct (negb (v_pending v)).
  - apply preserves_bind; [apply I_assign; by constructor|]. intros _.
    apply preserves_bind; [apply I_assign; by constructor|]. intros _.
    apply preserves_bind; [apply preserves_get|]. intros p2.
    apply preserves_bind.
    { destruct (parentNode p2) as [parent|]; [|apply preserves_ret].
      apply preserves_bind; [apply preserves_get|]. intros pp.
      destruct (String.eqb (state pp) st.pending); [|apply preserves_ret].
      apply preserves_bind; [apply guarded_settle_call | intros; apply preserves_ret]. }
    intros _. apply preserves_bind; [|intros; apply preserves_ret].
    destruct (freeze H); [by apply I_freeze | apply preserves_ret].
  - apply preserves_bind; [by apply guarded_purge_loop | intros; apply preserves_ret].
Qed.

Lemma guarded_turn n w : I w -> I (turn H n w).
Proof.
  intros Hw. unfold turn, run_next.
  destruct (queue w) as [|[self s v] rest] eqn:Hq; [exact Hw|].
  destruct (I_pop w _ _ Hw Hq) as [Hw' Hok].
  destruct (run_job _ _ _ _) as [x w'] eqn:Hrun.
  change w' with (snd (x, w')). rewrite <- Hrun. cbn [run_job].
  by apply guarded_promise_resolve.
Qed.

Lemma guarded_api_step n w w' : api_step H n w w' -> I w -> I w'.
Proof.
  intros Hstep Hw. destruct Hstep.
  - by apply I_factory.
  - by apply guarded_methods_then.
  - by apply I_resolve.
  - by apply I_reject.
  - apply guarded_vouch; [|exact Hw]. intros arg. apply guarded_call_cont.
  - by apply guarded_turn.
Qed.

Lemma guarded_api_steps n w w' : rtc (api_step H n) w w' -> I w -> I w'.
Proof.
  induction 1 as [|w1 w2 w3 Hstep _ IH]; [done|].
  intros Hw. apply IH. by apply (guarded_api_step n w1 w2).
Qed.

End Guarded.

Section Sealed.
Context (H : Host) (r0 : ref) (p0 : Promise).
Hypothesis Hfrozen : frozen p0 = true.
Hypothesis Hsettled : state p0 ≠ st.pending.

Lemma sealed_put r p' w :
  sealed r0 p0 w -> r ≠ r0 ->
  sealed r0 p0 (mkWorld (<[r := p']> (heap w)) (next w) (queue w) (trace w)).
Proof. intros [Hlt Hp] Hne. split; [exact Hlt|]. simpl. by rewrite lookup_insert_ne. Qed.

Lemma sealed_assign r upd : preserves (sealed r0 p0) (assign H r upd).
Proof.
  intros w Hw. unfold assign, bind, get_promise.
  destruct (heap w !! r) as [p|] eqn:Hp; [|exact Hw].
  destruct (frozen p) eqn:Hf; [by destruct (frozen_write H)|]. simpl.
  apply sealed_put; [exact Hw|]. intros ->. destruct Hw as [_ Hw].
  rewrite Hp in Hw. injection Hw as ->. congruence.
Qed.

Lemma sealed_slot r s f : r ≠ r0 -> preserves (sealed r0 p0) (modify_slot r s f).
Proof.
  intros Hne w Hw. unfold modify_slot, bind, get_promise.
  destruct (heap w !! r) as [p|]; [|exact Hw]. simpl. by apply sealed_put.
Qed.

Lemma sealed_freeze r : r ≠ r0 -> preserves (sealed r0 p0) (do_freeze r).
Proof.
  intros Hne w Hw. unfold do_freeze, bind, get_promise.
  destruct (heap w !! r) as [p|]; [|exact Hw]. simpl. by apply sealed_put.
Qed.

Lemma sealed_factory : preserves (sealed r0 p0) factory.
Proof.
  intros w [Hlt Hp]. split; simpl; [lia|]. by rewrite lookup_insert_ne by lia.
Qed.

(** A promise found pending is not the sealed one. *)
Lemma sealed_not_pending w r p :
  sealed r0 p0 w -> heap w !! r = Some p -> String.eqb (state p) st.pending = true ->
  r ≠ r0.
Proof.
  intros [_ Hp0] Hp Hs ->. rewrite Hp0 in Hp. injection Hp as <-.
  by apply String.eqb_eq in Hs.
Qed.

Lemma sealed_api_steps n w w' :
  rtc (api_step H n) w w' -> sealed r0 p0 w -> sealed r0 p0 w'.
Proof.
  apply (guarded_api_steps H (sealed r0 p0) (fun _ => True) (fun r => r ≠ r0)).
  - exact I.
  - intros. apply sealed_assign.
  - apply sealed_not_pending.
  - apply sealed_slot.
  - apply sealed_freeze.
  - by intros d v w0 Hw.
  - by intros d v w0 Hw.
  - by intros id a w0 Hw.
  - apply sealed_factory.
  - by intros w0 j rest Hw Hq.
Qed.

End Sealed.

(** X13. A frozen promise that is no longer pending never changes.
    Whatever calls of [promise.factory], [then], [resolve], [reject] and
    [promise.vouch] are made on whatever promises, and however many turns
    of the event loop run in between, the object keeps its state, its
    outcome, its parent and both of its arrays. *)
Theorem frozen_settled_promise_never_changes (H : Host) fuel r p w w' :
  r < next w -> heap w !! r = Some p ->
  frozen p = true -> state p ≠ st.pending ->
  rtc (api_step H fuel) w w' ->
  heap w' !! r = Some p /\ r < next w'.
Proof.
  intros Hlt Hp Hf Hs Hsteps.
  destruct (sealed_api_steps H r p Hf Hs fuel w w' Hsteps) as [? ?]; done.
Qed.

Lemma frozen_settled_promise_never_changes_witness :
  heap (turn demo_host 2
          (snd (methods_then demo_host 2 0 (VFun (HUser 1)) VUndefined settled_world))) !! 0
    = Some (mkPromise [] [] None (VNum 5) st.resolved true) /\
  0 < next (turn demo_host 2
              (snd (methods_then demo_host 2 0 (VFun (HUser 1)) VUndefined settled_world))).
Proof.
  apply (frozen_settled_promise_never_changes demo_host 2 0
           (mkPromise [] [] None (VNum 5) st.resolved true) settled_world);
    [simpl; lia | reflexivity | reflexivity | discriminate |].
  eapply rtc_l; [apply step_then|]. apply rtc_once. apply step_turn.
Defined.

Section Valid.
Context (H : Host).

Lemma valid_put r p' w :
  valid_store w -> r < next w -> valid_state (state p') ->
  valid_store (mkWorld (<[r := p']> (heap w)) (next w) (queue w) (trace w)).
Proof.
  intros [Hh Hq] Hlt Hs. split; [|exact Hq]. intros r1 p1. simpl.
  destruct (decide (r = r1)) as [->|Hne].
  - rewrite lookup_insert_eq. by intros [= <-].
  - rewrite lookup_insert_ne by done. apply Hh.
Qed.

Lemma valid_assign r upd :
  engine_update valid_state upd -> preserves valid_store (assign H r upd).
Proof.
  intros Hu w Hw. unfold assign, bind, get_promise.
  destruct (heap w !! r) as [p|] eqn:Hp; [|exact Hw].
  destruct (frozen p) eqn:Hf; [by destruct (frozen_write H)|]. simpl.
  destruct (proj1 Hw r p Hp) as [Hlt Hs].
  apply valid_put; [exact Hw | exact Hlt |]. by destruct Hu.
Qed.

Lemma valid_slot r s f : preserves valid_store (modify_slot r s f).
Proof.
  intros w Hw. unfold modify_slot, bind, get_promise.
  destruct (heap w !! r) as [p|] eqn:Hp; [|exact Hw]. simpl.
  destruct (proj1 Hw r p Hp) as [Hlt Hs].
  apply valid_put; [exact Hw | exact Hlt |]. by destruct s.
Qed.

Lemma valid_freeze r : preserves valid_store (do_freeze r).
Proof.
  intros w Hw. unfold do_freeze, bind, get_promise.
  destruct (heap w !! r) as [p|] eqn:Hp; [|exact Hw]. simpl.
  destruct (proj1 Hw r p Hp) as [Hlt Hs].
  by apply valid_put.
Qed.

Lemma valid_defer self s v :
  s = st.resolved \/ s = st.broken -> preserves valid_store (defer (JSettle self s v)).
Proof.
  intros Hs w [Hh Hq]. split; [exact Hh|]. simpl.
  apply Forall_app. split; [exact Hq|]. by constructor.
Qed.

Lemma valid_factory : preserves valid_store factory.
Proof.
  intros w [Hh Hq]. split; [|exact Hq]. intros r p. simpl.
  destruct (decide (next w = r)) as [<-|Hne].
  - rewrite lookup_insert_eq. intros [= <-]. split; [lia | by left].
  - rewrite lookup_insert_ne by done. intros Hp.
    destruct (Hh r p Hp). split; [lia | done].
Qed.

Lemma valid_api_steps n w w' :
  rtc (api_step H n) w w' -> valid_store w -> valid_store w'.
Proof.
  apply (guarded_api_steps H valid_store valid_state (fun _ => True)).
  - by left.
  - apply valid_assign.
  - done.
  - intros. apply valid_slot.
  - intros. apply valid_freeze.
  - intros d v. apply preserves_bind; [|intros; apply preserves_ret].
    apply valid_defer. by left.
  - intros d v. apply preserves_bind; [|intros; apply preserves_ret].
    apply valid_defer. by right.
  - by intros id a w0 Hw.
  - apply valid_factory.
  - intros w0 j rest [Hh Hq] Hj. rewrite Hj in Hq.
    apply Forall_cons in Hq as [Hs Hq]. split; [by split|].
    unfold valid_state. tauto.
Qed.

End Valid.

(** X14. The states stay within [promise.state].  From the empty store,
    whatever calls of [promise.factory], [then], [resolve], [reject] and
    [promise.vouch] and turns of the event loop follow, every promise of
    the store was handed out by the factory and is in one of the three
    states, and [resolved()] on it returns [true] exactly when it is not
    pending. *)
Theorem reachable_states_are_valid (H : Host) fuel w :
  rtc (api_step H fuel) empty_world w ->
  forall r p, heap w !! r = Some p ->
    r < next w /\ valid_state (state p) /\
    methods_resolved r w = (Ret (negb (String.eqb (state p) st.pending)), w).
Proof.
  intros Hsteps r p Hp.
  assert (Hv : valid_store w).
  { apply (valid_api_steps H fuel empty_world w Hsteps). split; [|constructor].
    intros r1 p1 Hp1. cbn [heap empty_world] in Hp1. by rewrite lookup_empty in Hp1. }
  destruct (proj1 Hv r p Hp) as [Hlt Hs]. split; [exact Hlt|]. split; [exact Hs|].
  unfold methods_resolved, bind. rewrite (get_promise_eq _ _ _ Hp). unfold ret.
  by destruct Hs as [-> | [-> | ->]].
Qed.

Lemma reachable_states_are_valid_witness :
  0 < next (turn demo_host 2 (snd (methods_resolve 0 (VNum 1) one_promise))) /\
  valid_state (state (mkPromise [] [] None (VNum 1) st.resolved true)) /\
  methods_resolved 0 (turn demo_host 2 (snd (methods_resolve 0 (VNum 1) one_promise))) =
    (Ret (negb (String.eqb (state (mkPromise [] [] None (VNum 1) st.resolved true))
                           st.pending)),
     turn demo_host 2 (snd (methods_resolve 0 (VNum 1) one_promise))).
Proof.
  apply (reachable_states_are_valid demo_host 2
           (turn demo_host 2 (snd (methods_resolve 0 (VNum 1) one_promise)))).
  - eapply rtc_l; [apply step_factory|].
    eapply rtc_l; [apply (step_resolve demo_host 2 _ 0 (VNum 1))|].
    apply rtc_once. apply step_turn.
  - vm_compute. reflexivity.
Defined.

(** ** The promise that [then] returns *)

Section Child.
Context (H : Host).

Lemma unfrozen_put d r p' w :
  unfrozen d w -> (r = d -> frozen p' = false) ->
  unfrozen d (mkWorld (<[r := p']> (heap w)) (next w) (queue w) (trace w)).
Proof.
  intros [Hlt (pd & Hd & Hf)] Hr. split; [exact Hlt|]. simpl.
  destruct (decide (r = d)) as [->|Hne].
  - exists p'. rewrite lookup_insert_eq. by rewrite Hr.
  - exists pd. by rewrite lookup_insert_ne.
Qed.

Lemma unfrozen_assign d r upd :
  rearming upd -> preserves (unfrozen d) (assign H r upd).
Proof.
  intros Hu w Hw. unfold assign, bind, get_promise.
  destruct (heap w !! r) as [p|] eqn:Hp; [|exact Hw].
  destruct (frozen p) eqn:Hf; [by destruct (frozen_write H)|]. simpl.
  apply unfrozen_put; [exact Hw|]. intros _. by destruct Hu.
Qed.

Lemma unfrozen_slot d r s f : preserves (unfrozen d) (modify_slot r s f).
Proof.
  intros w Hw. unfold modify_slot, bind, get_promise.
  destruct (heap w !! r) as [p|] eqn:Hp; [|exact Hw]. simpl.
  apply unfrozen_put; [exact Hw|]. intros ->.
  destruct Hw as [_ (pd & Hd & Hf)]. rewrite Hp in Hd. injection Hd as ->.
  by destruct s.
Qed.

Lemma unfrozen_factory d : preserves (unfrozen d) factory.
Proof.
  intros w [Hlt (pd & Hd & Hf)]. split; simpl; [lia|].
  exists pd. by rewrite lookup_insert_ne by lia.
Qed.

Lemma unfrozen_call_cont d n k arg : preserves (unfrozen d) (call_cont H n k arg).
Proof.
  apply pres_call_cont.
  - intros. by apply unfrozen_assign.
  - apply unfrozen_slot.
  - by intros j w Hw.
  - apply unfrozen_factory.
  - by intros id a w Hw.
Qed.

Lemma unfrozen_vouch d n self s k :
  preserves (unfrozen d) (vouch_gen H (call_cont H n) self s k).
Proof.
  apply pres_vouch; [apply unfrozen_slot | intros arg; apply unfrozen_call_cont].
Qed.

End Child.

(** X15. [then] hands out a new promise whose parent is the receiver.
    In a store whose promises all come from the factory, [then] on an
    existing promise never runs out of fuel, and whenever it returns, it
    returns a reference that was not in use before the call; the promise
    behind it is not frozen and has the receiver as [parentNode], whatever
    the two arguments are and whatever the continuations called at once
    did. *)
Theorem then_returns_new_child (H : Host) n w self (su fa : value) :
  allocated w -> is_Some (heap w !! self) ->
  heap w !! next w = None /\
  fst (methods_then H (S (S n)) self su fa w) ≠ OutOfFuel /\
  (forall r w', methods_then H (S (S n)) self su fa w = (Ret r, w') ->
     r = next w /\ next w < next w' /\
     exists pd, heap w' !! r = Some pd /\ parentNode pd = Some self /\ frozen pd = false).
Proof.
  intros Hall [pself Hself].
  assert (Hfresh : heap w !! next w = None).
  { destruct (heap w !! next w) as [p|] eqn:Hp; [|done]. apply Hall in Hp. lia. }
  split; [exact Hfresh|]. split.
  { apply fueled_then. intros d yay arg. apply fueled_call_cont. }
  intros r w' Hthen. unfold methods_then, then_gen in Hthen.
  apply bind_ret_inv in Hthen. destruct Hthen as (d & w0 & Hfac & Hthen).
  injection Hfac as <- <-.
  set (w0 := mkWorld (<[next w := new_Promise]> (heap w)) (S (next w)) (queue w) (trace w))
    in *.
  assert (H0 : unfrozen (next w) w0).
  { split; [simpl; lia|]. exists new_Promise. split; [apply lookup_insert_eq | done]. }
  apply bind_ret_inv in Hthen. destruct Hthen as (x1 & w1 & Hv1 & Hthen).
  assert (H1 : unfrozen (next w) w1).
  { change w1 with (snd (Ret x1, w1)). rewrite <- Hv1.
    destruct (typeof_function su); [by apply unfrozen_vouch | exact H0]. }
  apply bind_ret_inv in Hthen. destruct Hthen as (x2 & w2 & Hv2 & Hthen).
  assert (H2 : unfrozen (next w) w2).
  { change w2 with (snd (Ret x2, w2)). rewrite <- Hv2.
    destruct (typeof_function fa); [by apply unfrozen_vouch | exact H1]. }
  destruct H2 as [Hlt (pd & Hd & Hf)].
  unfold bind in Hthen. rewrite (assign_unfrozen H _ _ pd w2 Hd Hf) in Hthen.
  injection Hthen as <- <-. split; [done|]. split; [simpl; lia|].
  exists (set_parentNode (Some self) pd). simpl. rewrite lookup_insert_eq. done.
Qed.

Lemma then_returns_new_child_witness :
  heap settled_world !! next settled_world = None /\
  fst (methods_then demo_host 2 0 (VFun (HUser 1)) VUndefined settled_world) ≠ OutOfFuel /\
  (forall r w',
     methods_then demo_host 2 0 (VFun (HUser 1)) VUndefined settled_world = (Ret r, w') ->
     r = next settled_world /\ next settled_world < next w' /\
     exists pd, heap w' !! r = Some pd /\ parentNode pd = Some 0 /\ frozen pd = false).
Proof.
  apply (then_returns_new_child demo_host 0 settled_world 0 (VFun (HUser 1)) VUndefined).
  - intros r p Hp. unfold settled_world in Hp. cbn [heap] in Hp.
    apply lookup_singleton_Some in Hp as [<- _]. simpl. lia.
  - by eexists.
Defined.

(** ** [then] settles nothing *)

Section StillPending.
Context (H : Host).

Lemma still_put d r p' w :
  still_pending d w -> (r = d -> state p' = st.pending) ->
  still_pending d (mkWorld (<[r := p']> (heap w)) (next w) (queue w) (trace w)).
Proof.
  intros [Hlt (pd & Hd & Hs)] Hr. split; [exact Hlt|]. simpl.
  destruct (decide (r = d)) as [->|Hne].
  - exists p'. rewrite lookup_insert_eq. by rewrite Hr.
  - exists pd. by rewrite lookup_insert_ne.
Qed.

Lemma still_assign d r upd :
  rearming upd -> preserves (still_pending d) (assign H r upd).
Proof.
  intros Hu w Hw. unfold assign, bind, get_promise.
  destruct (heap w !! r) as [p|] eqn:Hp; [|exact Hw].
  destruct (frozen p) eqn:Hf; [by destruct (frozen_write H)|]. simpl.
  apply still_put; [exact Hw|]. intros ->.
  destruct Hw as [_ (pd & Hd & Hs)]. rewrite Hp in Hd. injection Hd as ->.
  by destruct Hu.
Qed.

Lemma still_slot d r s f : preserves (still_pending d) (modify_slot r s f).
Proof.
  intros w Hw. unfold modify_slot, bind, get_promise.
  destruct (heap w !! r) as [p|] eqn:Hp; [|exact Hw]. simpl.
  apply still_put; [exact Hw|]. intros ->.
  destruct Hw as [_ (pd & Hd & Hs)]. rewrite Hp in Hd. injection Hd as ->.
  by destruct s.
Qed.

Lemma still_factory d : preserves (still_pending d) factory.
Proof.
  intros w [Hlt (pd & Hd & Hs)]. split; simpl; [lia|].
  exists pd. by rewrite lookup_insert_ne by lia.
Qed.

Lemma still_call_cont d n k arg : preserves (still_pending d) (call_cont H n k arg).
Proof.
  apply pres_call_cont.
  - intros. by apply still_assign.
  - apply still_slot.
  - by intros j w Hw.
  - apply still_factory.
  - by intros id a w Hw.
Qed.

End StillPending.

(** X16. [then] settles nothing.  Whatever its arguments and whatever the
    continuation it calls at once does (return, throw, return a promise),
    a call of [then] on any promise leaves every pending promise of the
    store in place and pending: a promise leaves the pending state only in
    a deferred job. *)
Theorem then_settles_nothing (H : Host) n w self (su fa : value) r p :
  r < next w -> heap w !! r = Some p -> state p = st.pending ->
  exists p', heap (snd (methods_then H n self su fa w)) !! r = Some p' /\
             state p' = st.pending.
Proof.
  intros Hlt Hp Hs.
  assert (Hw : still_pending r w) by (split; [exact Hlt | by exists p]).
  assert (Hthen : preserves (still_pending r) (methods_then H n self su fa)).
  { apply pres_then.
    - intros. by apply still_assign.
    - apply still_slot.
    - apply still_factory.
    - intros d yay arg. apply still_call_cont. }
  by destruct (Hthen w Hw) as [_ Hw'].
Qed.

Lemma then_settles_nothing_witness :
  exists p',
    heap (snd (methods_then demo_host 2 0 (VFun (HUser 4)) VUndefined
                 (mkWorld (<[1 := new_Promise]> (heap settled_world)) 2 [] []))) !! 1
      = Some p' /\
    state p' = st.pending.
Proof.
  apply (then_settles_nothing demo_host 2
           (mkWorld (<[1 := new_Promise]> (heap settled_world)) 2 [] [])
           0 (VFun (HUser 4)) VUndefined 1 new_Promise);
    [simpl; lia | reflexivity | reflexivity].
Defined.

(** ** Adoption, in general *)

Section AdoptionGeneral.
Context (H : Host).





End AdoptionGeneral.



(** ** A second settlement, whatever the outcome *)


